(** * bedrock-engineer: command execution engine and MCP tool-server registry

    A shallow embedding of
      - src/main/api/command/commandService.ts  (class CommandService)
      - src/preload/mcp/index.ts                (the module-level registry)
    followed by the properties of the specification that concern them.

    Conventions of the embedding.
      - A JavaScript string is a [string]: a sequence of 8-bit code units.
        The source only splits, concatenates, compares and searches strings,
        which acts on code units one at a time; case folding
        ([toLowerCase]) is modelled on the ASCII letters.
      - [Map<number, V>] is a [gmap Z V].
      - A function that may throw returns a [result]; a promise is the value
        it is settled with, and calls of the asynchronous functions of the
        registry are taken one at a time.
      - Objects that are shared between the registry and its callers (tool
        descriptors) live in a heap, a [list obj] indexed by location.
      - What the operating system or an external library decides (the pid of
        a spawned child, the outcome of [process.kill], of
        [MCPClient.fromCommand], of [client.cleanup], of [client.callTool])
        is an argument of the function that depends on it; so are the
        collation of [localeCompare] and the conversions of the engine. *)

From Stdlib Require Import Ascii String ZArith List Bool Lia Permutation Sorted.
From stdpp Require Import base option list gmap strings pretty.
Import ListNotations.

Local Open Scope Z_scope.


(** ** Outcomes of fallible code *)

Inductive result (A : Type) : Type :=
| Returned (a : A)
| Threw (message : string).
Arguments Returned {A} a.
Arguments Threw {A} message.


(** ** String primitives of the JavaScript runtime *)

Module Js.

(** [s.split(' ')]: cut at every single space; never returns the empty
    array ([''.split(' ')] is [['']]). *)
Fixpoint split_space (s : string) : list string :=
  match s with
  | EmptyString => [EmptyString]
  | String c rest =>
      if Ascii.eqb c " "%char then EmptyString :: split_space rest
      else match split_space rest with
           | [] => [String c EmptyString]
           | w :: ws => String c w :: ws
           end
  end.

(** [s.split('\n')] *)
Fixpoint split_lines (s : string) : list string :=
  match s with
  | EmptyString => [EmptyString]
  | String c rest =>
      if Ascii.eqb c "010"%char then EmptyString :: split_lines rest
      else match split_lines rest with
           | [] => [String c EmptyString]
           | w :: ws => String c w :: ws
           end
  end.

(** [s.includes(sub)] *)
Fixpoint includes (s sub : string) : bool :=
  String.prefix sub s ||
  match s with
  | EmptyString => false
  | String _ rest => includes rest sub
  end.

Definition lower_ascii (c : ascii) : ascii :=
  let n := nat_of_ascii c in
  if (65 <=? n)%nat && (n <=? 90)%nat then ascii_of_nat (n + 32) else c.

(** [s.toLowerCase()] *)
Fixpoint toLowerCase (s : string) : string :=
  match s with
  | EmptyString => EmptyString
  | String c rest => String (lower_ascii c) (toLowerCase rest)
  end.

(** [xs.every((x, index) => f(x, index))] *)
Fixpoint every_from {A} (f : A -> nat -> bool) (i : nat) (xs : list A) : bool :=
  match xs with
  | [] => true
  | x :: rest => f x i && every_from f (S i) rest
  end.
Definition every {A} (f : A -> nat -> bool) (xs : list A) : bool :=
  every_from f 0%nat xs.

(** [a === b] where [b] is an array read, [undefined] out of range *)
Definition strict_eq_opt (a : string) (b : option string) : bool :=
  match b with
  | Some b' => String.eqb a b'
  | None => false
  end.

End Js.

(** ** Regular expressions, as far as the input probes use them

    A probe only asks whether the pattern occurs somewhere in the text, so
    the matcher decides occurrence by derivatives; every pattern of the
    source ends in [$] under the [m] flag, which is taken as the end
    condition of an occurrence. *)

Module Regex.

Inductive re : Type :=
| Void
| Eps
| Class (p : ascii -> bool)
| Seq (r1 r2 : re)
| Alt (r1 r2 : re)
| Star (r : re).

Definition Plus (r : re) : re := Seq r (Star r).

Fixpoint nullable (r : re) : bool :=
  match r with
  | Void => false
  | Eps => true
  | Class _ => false
  | Seq r1 r2 => nullable r1 && nullable r2
  | Alt r1 r2 => nullable r1 || nullable r2
  | Star _ => true
  end.

Fixpoint deriv (c : ascii) (r : re) : re :=
  match r with
  | Void => Void
  | Eps => Void
  | Class p => if p c then Eps else Void
  | Seq r1 r2 =>
      if nullable r1 then Alt (Seq (deriv c r1) r2) (deriv c r2)
      else Seq (deriv c r1) r2
  | Alt r1 r2 => Alt (deriv c r1) (deriv c r2)
  | Star r1 => Seq (deriv c r1) (Star r1)
  end.

Definition is_line_terminator (c : ascii) : bool :=
  Ascii.eqb c "010"%char || Ascii.eqb c "013"%char.

(** [$] with the [m] flag: at the end of the text or before a line
    terminator *)
Definition at_eol (s : string) : bool :=
  match s with
  | EmptyString => true
  | String c _ => is_line_terminator c
  end.

(** an occurrence of [r$] starts at the head of [s] *)
Fixpoint match_here (r : re) (s : string) : bool :=
  (nullable r && at_eol s) ||
  match s with
  | EmptyString => false
  | String c rest => match_here (deriv c r) rest
  end.

(** [s.match(/r$/m)] is not null *)
Fixpoint test (r : re) (s : string) : bool :=
  match_here r s ||
  match s with
  | EmptyString => false
  | String _ rest => test r rest
  end.

(** the text from the leftmost occurrence on *)
Fixpoint leftmost (r : re) (s : string) : option string :=
  if match_here r s then Some s
  else match s with
       | EmptyString => None
       | String _ rest => leftmost r rest
       end.

Fixpoint upto_eol (s : string) : string :=
  match s with
  | EmptyString => EmptyString
  | String c rest =>
      if is_line_terminator c then EmptyString else String c (upto_eol rest)
  end.

Definition lit (c : ascii) : re := Class (Ascii.eqb c).
(** [.] without the [s] flag *)
Definition dot : re := Class (fun c => negb (is_line_terminator c)).
(** [[^:]] *)
Definition not_colon : re := Class (fun c => negb (Ascii.eqb c ":"%char)).

End Regex.

(** ** CommandService: types *)

Record CommandPatternConfig : Type := {
  pattern : string;
  description : string
}.

Record CommandPattern : Type := {
  command : string;
  args : list string;
  wildcard : bool
}.

Record CommandConfig : Type := {
  allowedCommands : option (list CommandPatternConfig);
  shell : string
}.

(** ** CommandService: the allow-list matcher *)

Definition parseCommandPattern (commandStr : string) : CommandPattern :=
  let parts := Js.split_space commandStr in
  let hasWildcard := existsb (fun part => String.eqb part "*") parts in
  {| command := hd EmptyString parts;
     args := tl parts;
     wildcard := hasWildcard |}.

(** the callback of [allowedCommands.some] in [isCommandAllowed] *)
Definition patternAllows (executeParts : CommandPattern) (allowedCmd : CommandPatternConfig) : bool :=
  let allowedParts := parseCommandPattern (pattern allowedCmd) in
  if negb (String.eqb (command allowedParts) (command executeParts)) then false
  else if wildcard allowedParts then true
  else if negb (Nat.eqb (length (args allowedParts)) (length (args executeParts))) then false
  else Js.every
         (fun arg index =>
            if String.eqb arg "*" then true
            else Js.strict_eq_opt arg (nth_error (args executeParts) index))
         (args allowedParts).

Definition isCommandAllowed (config : CommandConfig) (commandToExecute : string) : bool :=
  let executeParts := parseCommandPattern commandToExecute in
  let allowed := match allowedCommands config with Some l => l | None => [] end in
  existsb (patternAllows executeParts) allowed.

(** ** CommandService: the output classifiers *)

Definition serverReadyPatterns : list string :=
  [ "listening"; "ready"; "started"; "running"; "live";
    "compiled successfully"; "compiled"; "waiting for file changes";
    "development server running" ].

Definition errorPatterns : list string :=
  [ "EADDRINUSE"; "Error:"; "error:"; "ERR!"; "app crashed";
    "Cannot find module"; "command not found"; "Failed to compile";
    "Syntax error:"; "TypeError:" ].

Definition isServerReady (output : string) : bool :=
  existsb
    (fun pat => Js.includes (Js.toLowerCase output) (Js.toLowerCase pat))
    serverReadyPatterns.

Definition checkForErrors (stdout stderr : string) : bool :=
  if existsb (fun pat => Js.includes stdout pat || Js.includes stderr pat) errorPatterns
  then true
  else if Js.includes stdout "app crashed"
          && negb (Js.includes stdout "waiting for file changes")
  then true
  else false.

Record InputDetectionPattern : Type := {
  probe : Regex.re;
  promptExtractor : string -> string
}.

(** [/\? .+\?.*$/m] *)
Definition inquirer_re : Regex.re :=
  Regex.Seq (Regex.lit "?") (Regex.Seq (Regex.lit " ")
    (Regex.Seq (Regex.Plus Regex.dot)
       (Regex.Seq (Regex.lit "?") (Regex.Star Regex.dot)))).

(** [/[^:]+: $/m] *)
Definition basic_prompt_re : Regex.re :=
  Regex.Seq (Regex.Plus Regex.not_colon)
    (Regex.Seq (Regex.lit ":") (Regex.lit " ")).

Definition inputDetectionPatterns : list InputDetectionPattern :=
  [ {| probe := inquirer_re;
       (* group 1 of /\? (.+\?.*$)/m: the rest of the line after the
          leftmost matching "? " *)
       promptExtractor := fun output =>
         match Regex.leftmost inquirer_re output with
         | Some (String _ (String _ rest)) => Regex.upto_eol rest
         | _ => output
         end |};
    {| probe := basic_prompt_re;
       promptExtractor := fun output =>
         List.last (Js.split_lines output) EmptyString |} ].

Record WaitingResult : Type := {
  isWaiting : bool;
  prompt : option string
}.

Fixpoint isWaitingForInput_loop (ps : list InputDetectionPattern) (output : string) : WaitingResult :=
  match ps with
  | [] => {| isWaiting := false; prompt := None |}
  | p :: rest =>
      if Regex.test (probe p) output
      then {| isWaiting := true; prompt := Some (promptExtractor p output) |}
      else isWaitingForInput_loop rest output
  end.

Definition isWaitingForInput (output : string) : WaitingResult :=
  isWaitingForInput_loop inputDetectionPatterns output.


(** ** CommandService: process sessions *)

Definition nl : string := String "010"%char EmptyString.

Record ChildProcess : Type := {
  child_pid : Z;
  spawnargs : list string
}.

Record ProcessOutput : Type := {
  stdout : string;
  stderr : string;
  code : option Z
}.

Record ProcessState : Type := {
  isRunning : bool;
  hasError : bool;
  output : ProcessOutput;
  process : option ChildProcess
}.

(** [Partial<ProcessState>] *)
Record ProcessStateUpdate : Type := {
  upd_isRunning : option bool;
  upd_hasError : option bool;
  upd_output : option ProcessOutput;
  upd_process : option ChildProcess
}.

Definition upd_none : ProcessStateUpdate :=
  {| upd_isRunning := None; upd_hasError := None; upd_output := None; upd_process := None |}.

(** [{ ...currentState, ...updates }] *)
Definition spread_update (currentState : ProcessState) (updates : ProcessStateUpdate) : ProcessState :=
  {| isRunning := default (isRunning currentState) (upd_isRunning updates);
     hasError := default (hasError currentState) (upd_hasError updates);
     output := default (output currentState) (upd_output updates);
     process := match upd_process updates with
                | Some p => Some p
                | None => process currentState
                end |}.

Record DetachedProcessInfo : Type := {
  pid : Z;
  info_command : string;
  timestamp : Z
}.

Record ProcessInfo : Type := {
  pi_pid : Z;
  pi_command : string;
  detached : bool
}.

Record CommandExecutionResult : Type := {
  res_stdout : string;
  res_stderr : string;
  exitCode : Z;
  processInfo : ProcessInfo;
  requiresInput : option bool;
  res_prompt : option string
}.

Record CommandInput : Type := {
  in_command : string;
  cwd : string
}.

Record CommandStdinInput : Type := {
  in_pid : Z;
  stdin : string
}.

Record CommandService : Type := {
  config : CommandConfig;
  runningProcesses : gmap Z DetachedProcessInfo;
  processStates : gmap Z ProcessState
}.

Definition set_runningProcesses (m : gmap Z DetachedProcessInfo) (svc : CommandService) : CommandService :=
  {| config := config svc; runningProcesses := m; processStates := processStates svc |}.

Definition set_processStates (m : gmap Z ProcessState) (svc : CommandService) : CommandService :=
  {| config := config svc; runningProcesses := runningProcesses svc; processStates := m |}.

Definition initializeProcessState (p : Z) (svc : CommandService) : CommandService :=
  set_processStates
    (<[p := {| isRunning := true; hasError := false;
               output := {| stdout := ""; stderr := ""; code := None |};
               process := None |}]> (processStates svc))
    svc.

Definition updateProcessState (p : Z) (updates : ProcessStateUpdate) (svc : CommandService) : CommandService :=
  match processStates svc !! p with
  | Some currentState =>
      set_processStates (<[p := spread_update currentState updates]> (processStates svc)) svc
  | None => svc
  end.

(** [cleanup] of [executeCommand]; the same two deletions end [stopProcess]
    and the exit listener of [sendInput] *)
Definition cleanup (p : Z) (svc : CommandService) : CommandService :=
  set_processStates (delete p (processStates svc))
    (set_runningProcesses (delete p (runningProcesses svc)) svc).

(** *** The variables a call closes over

    [executeCommand] and [sendInput] each create a promise and listeners that
    share [currentOutput], [currentError] and [isCompleted]; a promise keeps
    the first value it is settled with. *)

Inductive ClosureOwner : Type :=
| OfExecuteCommand (input_command : string)
| OfSendInput (state : ProcessState) (proc : ChildProcess).

Record Closure : Type := {
  owner : ClosureOwner;
  cl_pid : Z;
  currentOutput : string;
  currentError : string;
  isCompleted : bool;
  settled : option (result CommandExecutionResult)
}.

Definition set_currentOutput (s : string) (c : Closure) : Closure :=
  {| owner := owner c; cl_pid := cl_pid c; currentOutput := s;
     currentError := currentError c; isCompleted := isCompleted c; settled := settled c |}.

Definition set_currentError (s : string) (c : Closure) : Closure :=
  {| owner := owner c; cl_pid := cl_pid c; currentOutput := currentOutput c;
     currentError := s; isCompleted := isCompleted c; settled := settled c |}.

Definition set_isCompleted (b : bool) (c : Closure) : Closure :=
  {| owner := owner c; cl_pid := cl_pid c; currentOutput := currentOutput c;
     currentError := currentError c; isCompleted := b; settled := settled c |}.

Definition settle (r : result CommandExecutionResult) (c : Closure) : Closure :=
  match settled c with
  | Some _ => c
  | None =>
      {| owner := owner c; cl_pid := cl_pid c; currentOutput := currentOutput c;
         currentError := currentError c; isCompleted := isCompleted c; settled := Some r |}
  end.

Definition resolve (r : CommandExecutionResult) : Closure -> Closure := settle (Returned r).
Definition reject (message : string) : Closure -> Closure := settle (Threw message).

Definition failure_text (c : Closure) : string :=
  nl +:+ currentOutput c +:+ nl +:+ currentError c.

(** [`${code}`] *)
Definition show_code (exit_code : option Z) : string :=
  match exit_code with
  | Some z => pretty z
  | None => "null"
  end.

(** [code || 0] *)
Definition code_or_0 (exit_code : option Z) : Z := default 0 exit_code.

(** [code === 0] *)
Definition code_is_0 (exit_code : option Z) : bool :=
  match exit_code with
  | Some z => Z.eqb z 0
  | None => false
  end.

(** *** Listeners of [executeCommand] *)

Definition exec_result (command_line : string) (c : Closure) (exit_code : Z)
    (requires : option bool) (p : option string) : CommandExecutionResult :=
  {| res_stdout := currentOutput c;
     res_stderr := currentError c;
     exitCode := exit_code;
     processInfo := {| pi_pid := cl_pid c; pi_command := command_line; detached := true |};
     requiresInput := requires;
     res_prompt := p |}.

Definition exec_completeWithError (error : string) (sc : CommandService * Closure) : CommandService * Closure :=
  let '(svc, c) := sc in
  if isCompleted c then sc
  else (cleanup (cl_pid c) svc, reject error (set_isCompleted true c)).

Definition exec_completeWithSuccess (command_line : string) (sc : CommandService * Closure) : CommandService * Closure :=
  let '(svc, c) := sc in
  if isCompleted c then sc
  else
    match processStates svc !! cl_pid c with
    | None => (svc, reject "Process state not found" c)
    | Some state =>
        let w := isWaitingForInput (currentOutput c) in
        if isWaiting w
        then (svc, resolve (exec_result command_line c 0 (Some true) (prompt w)) c)
        else if isServerReady (currentOutput c)
        then (svc, resolve (exec_result command_line c 0 None None) c)
        else
          let c' := set_isCompleted true c in
          (cleanup (cl_pid c) svc,
           resolve (exec_result command_line c' (code_or_0 (code (output state))) None None) c')
    end.

Definition exec_on_stdout (command_line chunk : string) (sc : CommandService * Closure) : CommandService * Closure :=
  let '(svc, c0) := sc in
  let c := set_currentOutput (currentOutput c0 +:+ chunk) c0 in
  match processStates svc !! cl_pid c with
  | None => (svc, c)
  | Some state =>
      let svc1 :=
        updateProcessState (cl_pid c)
          {| upd_isRunning := None; upd_hasError := None;
             upd_output := Some {| stdout := currentOutput c;
                                   stderr := stderr (output state);
                                   code := code (output state) |};
             upd_process := None |} svc in
      if checkForErrors chunk ""
      then
        let svc2 :=
          updateProcessState (cl_pid c)
            {| upd_isRunning := None; upd_hasError := Some true;
               upd_output := None; upd_process := None |} svc1 in
        exec_completeWithError ("Command failed: " +:+ failure_text c) (svc2, c)
      else if isWaiting (isWaitingForInput (currentOutput c)) || isServerReady (currentOutput c)
      then exec_completeWithSuccess command_line (svc1, c)
      else (svc1, c)
  end.

Definition exec_on_stderr (chunk : string) (sc : CommandService * Closure) : CommandService * Closure :=
  let '(svc, c0) := sc in
  let c := set_currentError (currentError c0 +:+ chunk) c0 in
  match processStates svc !! cl_pid c with
  | None => (svc, c)
  | Some state =>
      let svc1 :=
        updateProcessState (cl_pid c)
          {| upd_isRunning := None; upd_hasError := None;
             upd_output := Some {| stdout := stdout (output state);
                                   stderr := currentError c;
                                   code := code (output state) |};
             upd_process := None |} svc in
      if checkForErrors "" chunk
      then
        let svc2 :=
          updateProcessState (cl_pid c)
            {| upd_isRunning := None; upd_hasError := Some true;
               upd_output := None; upd_process := None |} svc1 in
        exec_completeWithError ("Command failed: " +:+ failure_text c) (svc2, c)
      else (svc1, c)
  end.

(** [error instanceof Error ? error.message : 'Unknown error'] *)
Definition error_message (e : option string) : string := default "Unknown error" e.

Definition exec_on_error (e : option string) (sc : CommandService * Closure) : CommandService * Closure :=
  exec_completeWithError ("Command execution failed: " +:+ error_message e) sc.

Definition exec_on_exit (command_line : string) (exit_code : option Z) (sc : CommandService * Closure) : CommandService * Closure :=
  let '(svc, c) := sc in
  match processStates svc !! cl_pid c with
  | None => sc
  | Some state =>
      let svc1 :=
        updateProcessState (cl_pid c)
          {| upd_isRunning := Some false; upd_hasError := None;
             upd_output := Some {| stdout := stdout (output state);
                                   stderr := stderr (output state);
                                   code := Some (code_or_0 exit_code) |};
             upd_process := None |} svc in
      if negb (checkForErrors (currentOutput c) (currentError c)) && code_is_0 exit_code
      then exec_completeWithSuccess command_line (svc1, c)
      else if negb (isCompleted c)
      then exec_completeWithError
             ("Process exited with code " +:+ show_code exit_code +:+ failure_text c) (svc1, c)
      else (svc1, c)
  end.

Definition exec_on_timeout (command_line : string) (sc : CommandService * Closure) : CommandService * Closure :=
  let '(svc, c) := sc in
  if isCompleted c then sc
  else
    match processStates svc !! cl_pid c with
    | None => sc
    | Some state =>
        if hasError state
        then exec_completeWithError ("Command failed to start: " +:+ nl +:+ currentError c) sc
        else if isServerReady (currentOutput c)
                || Js.includes (currentOutput c) "waiting for file changes"
        then exec_completeWithSuccess command_line sc
        else exec_completeWithError "Command timed out" sc
    end.

(** *** Listeners of [sendInput] *)

Definition send_completeWithError (error : string) (sc : CommandService * Closure) : CommandService * Closure :=
  let '(svc, c) := sc in
  if isCompleted c then sc
  else (svc, reject error (set_isCompleted true c)).

Definition send_completeWithSuccess (proc : ChildProcess) (sc : CommandService * Closure) : CommandService * Closure :=
  let '(svc, c) := sc in
  if isCompleted c then sc
  else
    let c' := set_isCompleted true c in
    let w := isWaitingForInput (currentOutput c') in
    (svc,
     resolve
       (exec_result (String.concat " " (spawnargs proc)) c' 0
          (Some (isWaiting w)) (if isWaiting w then prompt w else None))
       c').

Definition send_on_stdout (state : ProcessState) (proc : ChildProcess) (chunk : string)
    (sc : CommandService * Closure) : CommandService * Closure :=
  let '(svc, c0) := sc in
  let c := set_currentOutput (currentOutput c0 +:+ chunk) c0 in
  let svc1 :=
    updateProcessState (cl_pid c)
      {| upd_isRunning := None; upd_hasError := None;
         upd_output := Some {| stdout := currentOutput c;
                               stderr := stderr (output state);
                               code := code (output state) |};
         upd_process := None |} svc in
  if checkForErrors chunk ""
  then
    let svc2 :=
      updateProcessState (cl_pid c)
        {| upd_isRunning := None; upd_hasError := Some true;
           upd_output := None; upd_process := None |} svc1 in
    send_completeWithError ("Command failed: " +:+ failure_text c) (svc2, c)
  else if isWaiting (isWaitingForInput (currentOutput c)) || isServerReady (currentOutput c)
  then send_completeWithSuccess proc (svc1, c)
  else (svc1, c).

Definition send_on_stderr (state : ProcessState) (chunk : string)
    (sc : CommandService * Closure) : CommandService * Closure :=
  let '(svc, c0) := sc in
  let c := set_currentError (currentError c0 +:+ chunk) c0 in
  let svc1 :=
    updateProcessState (cl_pid c)
      {| upd_isRunning := None; upd_hasError := None;
         upd_output := Some {| stdout := stdout (output state);
                               stderr := currentError c;
                               code := code (output state) |};
         upd_process := None |} svc in
  if checkForErrors "" chunk
  then
    let svc2 :=
      updateProcessState (cl_pid c)
        {| upd_isRunning := None; upd_hasError := Some true;
           upd_output := None; upd_process := None |} svc1 in
    send_completeWithError ("Command failed: " +:+ failure_text c) (svc2, c)
  else (svc1, c).

Definition send_on_error (e : option string) (sc : CommandService * Closure) : CommandService * Closure :=
  send_completeWithError ("Command execution failed: " +:+ error_message e) sc.

Definition send_on_exit (state : ProcessState) (proc : ChildProcess) (exit_code : option Z)
    (sc : CommandService * Closure) : CommandService * Closure :=
  let '(svc, c) := sc in
  let svc1 :=
    updateProcessState (cl_pid c)
      {| upd_isRunning := Some false; upd_hasError := None;
         upd_output := Some {| stdout := stdout (output state);
                               stderr := stderr (output state);
                               code := Some (code_or_0 exit_code) |};
         upd_process := None |} svc in
  let '(svc2, c2) :=
    if negb (checkForErrors (currentOutput c) (currentError c)) && code_is_0 exit_code
    then send_completeWithSuccess proc (svc1, c)
    else if negb (isCompleted c)
    then send_completeWithError
           ("Process exited with code " +:+ show_code exit_code +:+ failure_text c) (svc1, c)
    else (svc1, c) in
  (cleanup (cl_pid c) svc2, c2).

Definition send_on_timeout (proc : ChildProcess) (sc : CommandService * Closure) : CommandService * Closure :=
  let '(svc, c) := sc in
  if isCompleted c then sc
  else
    match processStates svc !! cl_pid c with
    | None => sc
    | Some currentState =>
        if hasError currentState
        then send_completeWithError ("Command failed: " +:+ nl +:+ currentError c) sc
        else if isServerReady (currentOutput c)
                || Js.includes (currentOutput c) "waiting for file changes"
        then send_completeWithSuccess proc sc
        else send_completeWithError "Command timed out waiting for response" sc
    end.

(** *** The event loop

    [closures] holds the variables of every call made so far, by call
    number; [attached] names, per process, the call whose listeners are on
    its streams ([sendInput] removes the listeners of the call before it).
    A timer belongs to its call and fires whatever is attached. *)

Record System : Type := {
  service : CommandService;
  closures : list Closure;
  attached : gmap Z nat
}.

Inductive Event : Type :=
| StdoutData (p : Z) (chunk : string)
| StderrData (p : Z) (chunk : string)
| ProcessError (p : Z) (e : option string)
| ProcessExit (p : Z) (exit_code : option Z)
| TimerFired (call : nat).

Definition run_listener (call : nat)
    (f : Closure -> CommandService * Closure -> CommandService * Closure)
    (sys : System) : System :=
  match closures sys !! call with
  | None => sys
  | Some c =>
      let '(svc', c') := f c (service sys, c) in
      {| service := svc'; closures := <[call := c']> (closures sys); attached := attached sys |}
  end.

Definition on_attached (p : Z)
    (f : Closure -> CommandService * Closure -> CommandService * Closure)
    (sys : System) : System :=
  match attached sys !! p with
  | None => sys
  | Some call => run_listener call f sys
  end.

Definition step (ev : Event) (sys : System) : System :=
  match ev with
  | StdoutData p chunk =>
      on_attached p (fun c =>
        match owner c with
        | OfExecuteCommand cmd => exec_on_stdout cmd chunk
        | OfSendInput state proc => send_on_stdout state proc chunk
        end) sys
  | StderrData p chunk =>
      on_attached p (fun c =>
        match owner c with
        | OfExecuteCommand _ => exec_on_stderr chunk
        | OfSendInput state _ => send_on_stderr state chunk
        end) sys
  | ProcessError p e =>
      on_attached p (fun c =>
        match owner c with
        | OfExecuteCommand _ => exec_on_error e
        | OfSendInput _ _ => send_on_error e
        end) sys
  | ProcessExit p exit_code =>
      on_attached p (fun c =>
        match owner c with
        | OfExecuteCommand cmd => exec_on_exit cmd exit_code
        | OfSendInput state proc => send_on_exit state proc exit_code
        end) sys
  | TimerFired call =>
      run_listener call (fun c =>
        match owner c with
        | OfExecuteCommand cmd => exec_on_timeout cmd
        | OfSendInput _ proc => send_on_timeout proc
        end) sys
  end.

Definition run (evs : list Event) (sys : System) : System :=
  fold_left (fun s ev => step ev s) evs sys.

Definition new_closure (o : ClosureOwner) (p : Z) (out err : string) : Closure :=
  {| owner := o; cl_pid := p; currentOutput := out; currentError := err;
     isCompleted := false; settled := None |}.

(** [executeCommand]: [spawned] is [process.pid] of the child the operating
    system gave ([None] for [undefined]), [now] is [Date.now()].  The
    result is the rejection made before any listener exists, or the number
    of the call whose promise is pending. *)
Definition executeCommand (input : CommandInput) (spawned : option Z) (now : Z)
    (sys : System) : System * result nat :=
  let svc := service sys in
  if negb (isCommandAllowed (config svc) (in_command input))
  then (sys, Threw ("Command not allowed: " +:+ in_command input))
  else
    match spawned with
    | None => (sys, Threw "Failed to start process: PID is undefined")
    | Some p =>
        let proc := {| child_pid := p;
                       spawnargs := [shell (config svc); "-ic"; in_command input] |} in
        let svc1 := initializeProcessState p svc in
        let svc2 :=
          set_runningProcesses
            (<[p := {| pid := p; info_command := in_command input; timestamp := now |}]>
               (runningProcesses svc1)) svc1 in
        let svc3 :=
          updateProcessState p
            {| upd_isRunning := None; upd_hasError := None; upd_output := None;
               upd_process := Some proc |} svc2 in
        let call := length (closures sys) in
        ({| service := svc3;
            closures := closures sys ++ [new_closure (OfExecuteCommand (in_command input)) p "" ""];
            attached := <[p := call]> (attached sys) |},
         Returned call)
    end.

(** [sendInput]: throws before anything else when the guard fails;
    otherwise the listeners are replaced and [input.stdin + '\n'] is written
    (the text written is the third component). *)
Definition sendInput (input : CommandStdinInput) (sys : System) : System * result nat * option string :=
  match processStates (service sys) !! in_pid input with
  | Some state =>
      match process state with
      | Some proc =>
          let call := length (closures sys) in
          ({| service := service sys;
              closures := closures sys ++
                [new_closure (OfSendInput state proc) (in_pid input)
                   (stdout (output state)) (stderr (output state))];
              attached := <[in_pid input := call]> (attached sys) |},
           Returned call,
           Some (stdin input +:+ nl))
      | None =>
          (sys, Threw ("No running process found with PID: " +:+ pretty (in_pid input)), None)
      end
  | None =>
      (sys, Threw ("No running process found with PID: " +:+ pretty (in_pid input)), None)
  end.

(** [process.kill(-pid)] either returns or throws; a thrown [Error] carries
    its message. *)
Inductive KillOutcome : Type :=
| KillOk
| KillThrows (e : option string).

(** [stopProcess]: the third component lists the signals sent. *)
Definition stopProcess (kill : Z -> KillOutcome) (p : Z) (svc : CommandService) : CommandService * result unit * list Z :=
  match runningProcesses svc !! p with
  | Some processInfo =>
      match kill (- p) with
      | KillOk => (cleanup p svc, Returned tt, [- p])
      | KillThrows e =>
          (svc,
           Threw ("Failed to stop process " +:+ pretty p +:+ ": " +:+ error_message e),
           [- p])
      end
  | None => (svc, Returned tt, [])
  end.

Definition new_service (cfg : CommandConfig) : CommandService :=
  {| config := cfg; runningProcesses := ∅; processStates := ∅ |}.

Definition new_system (cfg : CommandConfig) : System :=
  {| service := new_service cfg; closures := []; attached := ∅ |}.

(** what a caller can observe of a system *)
Definition session (sys : System) (p : Z) : option ProcessState :=
  processStates (service sys) !! p.

Definition promise (sys : System) (call : nat) : option (result CommandExecutionResult) :=
  match closures sys !! call with
  | Some c => settled c
  | None => None
  end.

(** ** JSON, and the heap of JavaScript objects

    Tool descriptors are objects that the registry and its callers can both
    hold, so objects live in a heap and are denoted by their location.  A
    location is an index in the heap; allocation appends. *)

#[local] Set Warnings "-register-all".

Inductive json : Type :=
| JNull
| JBool (b : bool)
| JNum (z : Z)
| JStr (s : string)
| JArr (elems : list json)
| JObj (fields : list (string * json)).

Inductive val : Type :=
| VUndefined
| VNull
| VBool (b : bool)
| VNum (z : Z)
| VStr (s : string)
| VRef (l : nat).

Inductive obj : Type :=
| OObj (fields : list (string * val))
| OArr (elems : list val).

Module Json.

Definition dquote : string := String (ascii_of_nat 34) EmptyString.
Definition backslash : string := String (ascii_of_nat 92) EmptyString.

Definition hex_digit (n : nat) : ascii :=
  nth n (list_ascii_of_string "0123456789abcdef") "0"%char.

Definition escape_char (c : ascii) : string :=
  let n := nat_of_ascii c in
  if Nat.eqb n 34 then backslash +:+ dquote
  else if Nat.eqb n 92 then backslash +:+ backslash
  else if Nat.eqb n 8 then backslash +:+ "b"
  else if Nat.eqb n 9 then backslash +:+ "t"
  else if Nat.eqb n 10 then backslash +:+ "n"
  else if Nat.eqb n 12 then backslash +:+ "f"
  else if Nat.eqb n 13 then backslash +:+ "r"
  else if Nat.ltb n 32
  then backslash +:+ "u00" +:+
       String (hex_digit (Nat.div n 16)) (String (hex_digit (Nat.modulo n 16)) EmptyString)
  else String c EmptyString.

Fixpoint escape (s : string) : string :=
  match s with
  | EmptyString => EmptyString
  | String c rest => escape_char c +:+ escape rest
  end.

Definition quote (s : string) : string := dquote +:+ escape s +:+ dquote.

(** the text [JSON.stringify] writes for a value already reduced to JSON *)
Fixpoint text (j : json) : string :=
  match j with
  | JNull => "null"
  | JBool true => "true"
  | JBool false => "false"
  | JNum z => pretty z
  | JStr s => quote s
  | JArr elems =>
      "[" +:+ String.concat "," (List.map text elems) +:+ "]"
  | JObj fields =>
      "{" +:+
      String.concat ","
        ((fix members (fs : list (string * json)) : list string :=
            match fs with
            | [] => []
            | (k, v) :: rest => (quote k +:+ ":" +:+ text v) :: members rest
            end) fields) +:+
      "}"
  end.

(** own properties with an [undefined] value are left out of an object *)
Fixpoint present (fs : list (string * option json)) : list (string * json) :=
  match fs with
  | [] => []
  | (k, Some j) :: rest => (k, j) :: present rest
  | (_, None) :: rest => present rest
  end.

(** [Promise.all]-like sequencing of fallible steps *)
Fixpoint all_returned {A} (rs : list (result A)) : result (list A) :=
  match rs with
  | [] => Returned []
  | Threw m :: _ => Threw m
  | Returned a :: rest =>
      match all_returned rest with
      | Returned l => Returned (a :: l)
      | Threw m => Threw m
      end
  end.

(** [JSON.stringify] on a heap value, up to the text: [Returned None] is
    the result [undefined].  A value nested deeper than the heap has objects
    is circular, and [JSON.stringify] throws on it; [fuel] counts the
    depth. *)
Fixpoint of_val (fuel : nat) (h : list obj) (v : val) : result (option json) :=
  match v with
  | VUndefined => Returned None
  | VNull => Returned (Some JNull)
  | VBool b => Returned (Some (JBool b))
  | VNum z => Returned (Some (JNum z))
  | VStr s => Returned (Some (JStr s))
  | VRef l =>
      match fuel with
      | O => Threw "TypeError: Converting circular structure to JSON"
      | S fuel' =>
          match h !! l with
          | None => Threw "TypeError: Converting circular structure to JSON"
          | Some (OArr elems) =>
              match all_returned (List.map (of_val fuel' h) elems) with
              | Threw m => Threw m
              | Returned js => Returned (Some (JArr (List.map (default JNull) js)))
              end
          | Some (OObj fields) =>
              match all_returned (List.map (fun kv => of_val fuel' h (snd kv)) fields) with
              | Threw m => Threw m
              | Returned js =>
                  Returned (Some (JObj (present (combine (List.map fst fields) js))))
              end
          end
      end
  end.

Definition stringify (h : list obj) (v : val) : result (option json) :=
  of_val (S (length h)) h v.

(** [JSON.parse]: every array and object of the text is a new object;
    [parse_seq p] parses the members of an array or object in order *)
Definition parse_seq (p : json -> list obj -> list obj * val) : list json -> list obj -> list obj * list val :=
  fix each (js : list json) (h : list obj) : list obj * list val :=
    match js with
    | [] => (h, [])
    | j :: rest =>
        let '(h1, v) := p j h in
        let '(h2, vs) := each rest h1 in
        (h2, v :: vs)
    end.

Definition parse_fields (p : json -> list obj -> list obj * val) : list (string * json) -> list obj -> list obj * list (string * val) :=
  fix each (fs : list (string * json)) (h : list obj) : list obj * list (string * val) :=
    match fs with
    | [] => (h, [])
    | (k, j) :: rest =>
        let '(h1, v) := p j h in
        let '(h2, vs) := each rest h1 in
        (h2, (k, v) :: vs)
    end.

Fixpoint parse (j : json) (h : list obj) : list obj * val :=
  match j with
  | JNull => (h, VNull)
  | JBool b => (h, VBool b)
  | JNum z => (h, VNum z)
  | JStr s => (h, VStr s)
  | JArr elems =>
      let '(h', vs) := parse_seq parse elems h in
      (h' ++ [OArr vs], VRef (length h'))
  | JObj fields =>
      let '(h', fs) := parse_fields parse fields h in
      (h' ++ [OObj fs], VRef (length h'))
  end.

(** [JSON.parse(JSON.stringify(v))] *)
Definition deep_copy (h : list obj) (v : val) : result (list obj * val) :=
  match stringify h v with
  | Threw m => Threw m
  | Returned None => Threw "SyntaxError: undefined is not valid JSON"
  | Returned (Some j) => Returned (parse j h)
  end.

End Json.

(** *** Property reads and writes *)

Fixpoint assoc (key : string) (fs : list (string * val)) : val :=
  match fs with
  | [] => VUndefined
  | (k, v) :: rest => if String.eqb k key then v else assoc key rest
  end.

Fixpoint assoc_set (key : string) (v : val) (fs : list (string * val)) : list (string * val) :=
  match fs with
  | [] => [(key, v)]
  | (k, v0) :: rest =>
      if String.eqb k key then (k, v) :: rest else (k, v0) :: assoc_set key v rest
  end.

(** [o.key] for an object [o] and a key that is no built-in property *)
Definition get_field (h : list obj) (l : nat) (key : string) : val :=
  match h !! l with
  | Some (OObj fields) => assoc key fields
  | _ => VUndefined
  end.

(** [v?.key] *)
Definition get_optional (h : list obj) (v : val) (key : string) : val :=
  match v with
  | VRef l => get_field h l key
  | _ => VUndefined
  end.

(** [o.key = v] *)
Definition set_field (h : list obj) (l : nat) (key : string) (v : val) : list obj :=
  match h !! l with
  | Some (OObj fields) => <[l := OObj (assoc_set key v fields)]> h
  | _ => h
  end.

Definition truthy (v : val) : bool :=
  match v with
  | VUndefined | VNull => false
  | VBool b => b
  | VNum z => negb (Z.eqb z 0)
  | VStr s => negb (String.eqb s "")
  | VRef _ => true
  end.

(** *** What a caller can and cannot reach

    [extends_above n h h']: [h'] has every object of [h] below [n]
    unchanged, and no fewer objects.  [closed_in a b h]: the objects of [h]
    at locations from [a] up to [b] only refer to locations in that range.
    [isolated n h vs]: whatever is reachable from [vs] in [h] lies at or
    above [n]. *)

Definition extends_above (n : nat) (h h' : list obj) : Prop :=
  (length h <= length h')%nat /\ forall l, (l < n)%nat -> h' !! l = h !! l.

Definition val_in (a b : nat) (v : val) : Prop :=
  match v with
  | VRef l => (a <= l < b)%nat
  | _ => True
  end.

Definition obj_vals (o : obj) : list val :=
  match o with
  | OObj fields => List.map snd fields
  | OArr elems => elems
  end.

Definition closed_in (a b : nat) (h : list obj) : Prop :=
  forall l o, (a <= l < b)%nat -> h !! l = Some o -> Forall (val_in a b) (obj_vals o).

Definition agree_on (a b : nat) (h h' : list obj) : Prop :=
  forall l, (a <= l < b)%nat -> h' !! l = h !! l.

Definition isolated (n : nat) (h : list obj) (vs : list val) : Prop :=
  Forall (val_in n (length h)) vs /\ closed_in n (length h) h.

(** what parsing [j] makes: new objects only, closed under reference, that
    read back as [j] *)
Definition parse_ok (j : json) : Prop :=
  forall h h' v,
    Json.parse j h = (h', v) ->
    h `prefix_of` h'
    /\ val_in (length h) (length h') v
    /\ closed_in (length h) (length h') h'
    /\ forall f, (length h' - length h <= f)%nat -> Json.of_val f h' v = Returned (Some j).

(** two lists of values that read the same, each in its heap *)
Definition read_alike (h : list obj) (vs : list val) (h' : list obj) (vs' : list val) : Prop :=
  Forall2 (fun v v' => exists j, Json.stringify h v = Returned (Some j)
                                 /\ Json.stringify h' v' = Returned (Some j)) vs vs'.

(** *** The same renaming, on JSON *)

Fixpoint jassoc (key : string) (fs : list (string * json)) : option json :=
  match fs with
  | [] => None
  | (k, j) :: rest => if String.eqb k key then Some j else jassoc key rest
  end.

Fixpoint jassoc_set (key : string) (j : json) (fs : list (string * json)) : list (string * json) :=
  match fs with
  | [] => [(key, j)]
  | (k, j0) :: rest =>
      if String.eqb k key then (k, j) :: rest else (k, j0) :: jassoc_set key j rest
  end.

Definition truthy_json (j : json) : bool :=
  match j with
  | JNull => false
  | JBool b => b
  | JNum z => negb (Z.eqb z 0)
  | JStr s => negb (String.eqb s "")
  | JArr _ | JObj _ => true
  end.

(** ** The MCP registry: types *)

Record McpServerConfig : Type := {
  name : string;
  mcp_description : string;
  (** [command] and [args] are required by the interface, but a
      configuration is read from stored settings, where a property may be
      missing: [None] is [undefined]. *)
  mcp_command : option string;
  mcp_args : option (list string);
  (** own properties in enumeration order *)
  env : option (list (string * string))
}.

(** A connection: [tools] are the locations of the descriptor objects that
    the client holds. *)
Record MCPClient : Type := {
  handle : nat;
  tools : list nat
}.

Record Registry : Type := {
  clients : list (string * MCPClient);
  lastMcpServerConfigHash : option string;
  lastMcpServerLength : nat;
  lastMcpServerNames : list string
}.

(** the identity of the configuration last activated *)
Definition cache_of (st : Registry) : option string * nat * list string :=
  (lastMcpServerConfigHash st, lastMcpServerLength st, lastMcpServerNames st).

(** the state of the module when it is loaded *)
Definition initial_registry : Registry :=
  {| clients := []; lastMcpServerConfigHash := None;
     lastMcpServerLength := 0; lastMcpServerNames := [] |}.

(** What the world outside decides during one call. *)
Record World : Type := {
  (** [MCPClient.fromCommand]: [None] when it throws *)
  fromCommand : McpServerConfig -> option MCPClient;
  (** [client.cleanup()]: [false] when it throws *)
  cleanup_ok : MCPClient -> bool;
  (** [client.callTool(toolName, params)] *)
  callTool : MCPClient -> string -> val -> result val
}.

Inductive McpEffect : Type :=
| CleanedUp (c : MCPClient) (ok : bool)
| Launched (server : string) (ok : bool).

(** ** Sorting

    [Array.prototype.sort] is stable; for a consistent comparator every
    stable sort returns the same array, here by insertion. *)

Fixpoint sort_insert {A} (cmp : A -> A -> Z) (x : A) (l : list A) : list A :=
  match l with
  | [] => [x]
  | y :: rest => if Z.leb (cmp x y) 0 then x :: l else y :: sort_insert cmp x rest
  end.

Fixpoint sort_by {A} (cmp : A -> A -> Z) (l : list A) : list A :=
  match l with
  | [] => []
  | x :: rest => sort_insert cmp x (sort_by cmp rest)
  end.

(** the order of [sort()] without a comparator: by code units *)
Definition compare_code_units (a b : string) : Z :=
  match String.compare a b with
  | Lt => -1
  | Eq => 0
  | Gt => 1
  end.

Definition sort_default (l : list string) : list string := sort_by compare_code_units l.

(** a comparator that orders strings totally: [cmp a b <= 0] reads "[a]
    does not come after [b]" *)
Definition total_order (cmp : string -> string -> Z) : Prop :=
  (forall a b, cmp a b <= 0 \/ cmp b a <= 0)
  /\ (forall a b c, cmp a b <= 0 -> cmp b c <= 0 -> cmp a c <= 0)
  /\ (forall a b, cmp a b <= 0 -> cmp b a <= 0 -> a = b).

(** ** The MCP registry: operations *)

Section McpRegistry.

(** What the JavaScript engine supplies: the collation behind
    [String.prototype.localeCompare], and the conversions applied to a value
    that is not a string where the source expects a tool name ([ToString]
    of a value parsed from JSON depends on that JSON only). *)
Variable localeCompare : string -> string -> Z.
Variable ToString : json -> string.
Variable looseEqualsString : list obj -> val -> string -> bool.

(** the object literal mapped over the sorted servers; [[...server.args]]
    throws when [args] is [undefined] *)
Definition essentialConfig (server : McpServerConfig) : result json :=
  match mcp_args server with
  | None => Threw "TypeError: server.args is not iterable"
  | Some server_args =>
      Returned
        (JObj (Json.present
          [ ("name", Some (JStr (name server)));
            ("command", option_map JStr (mcp_command server));
            ("args", Some (JArr (List.map JStr server_args)));
            ("env",
             match env server with
             | Some (kv :: kvs) =>
                 Some (JObj (List.map (fun p => (fst p, JStr (snd p))) (kv :: kvs)))
             | _ => None
             end) ]))
  end.

Definition generateConfigHash (servers : list McpServerConfig) : result string :=
  match servers with
  | [] => Returned "empty"
  | _ =>
      let sortedServers := sort_by (fun a b => localeCompare (name a) (name b)) servers in
      match Json.all_returned (List.map essentialConfig sortedServers) with
      | Threw m => Threw m
      | Returned essentialConfigs => Returned (Json.text (JArr essentialConfigs))
      end
  end.

(** [currentNames.length === last.length && currentNames.every((n, i) => n === last[i])] *)
Definition sameNames (currentNames lastNames : list string) : bool :=
  Nat.eqb (length currentNames) (length lastNames)
  && Js.every (fun n i => Js.strict_eq_opt n (nth_error lastNames i)) currentNames.

(** [configHash !== lastMcpServerConfigHash] *)
Definition hash_differs (configHash : string) (lastHash : option string) : bool :=
  match lastHash with
  | Some h => negb (String.eqb configHash h)
  | None => true
  end.

Definition hasConfigChanged (st : Registry) (servers : list McpServerConfig) : result bool :=
  if negb (Nat.eqb (length servers) (lastMcpServerLength st)) then Returned true
  else if Nat.eqb (length servers) 0 && Nat.eqb (lastMcpServerLength st) 0 then Returned false
  else
    let currentNames := sort_default (List.map name servers) in
    if negb (sameNames currentNames (lastMcpServerNames st)) then Returned true
    else
      match generateConfigHash servers with
      | Threw m => Threw m
      | Returned configHash => Returned (hash_differs configHash (lastMcpServerConfigHash st))
      end.

Definition updateConfigCache (servers : list McpServerConfig) (st : Registry) : result Registry :=
  match generateConfigHash servers with
  | Threw m => Threw m
  | Returned h =>
      Returned {| clients := clients st;
                  lastMcpServerConfigHash := Some h;
                  lastMcpServerLength := length servers;
                  lastMcpServerNames := sort_default (List.map name servers) |}
  end.

Definition set_clients (cs : list (string * MCPClient)) (st : Registry) : Registry :=
  {| clients := cs;
     lastMcpServerConfigHash := lastMcpServerConfigHash st;
     lastMcpServerLength := lastMcpServerLength st;
     lastMcpServerNames := lastMcpServerNames st |}.

(** the entry of [configData.mcpServers] built for one server;
    [env: server.env || {}] always satisfies its schema *)
Definition entry_valid (server : McpServerConfig) : bool :=
  match mcp_command server, mcp_args server with
  | Some _, Some _ => true
  | _, _ => false
  end.

(** The object [configData.mcpServers] built by the [reduce] out of [{}]:
    its own properties in the order they were created, and the object its
    prototype was set to, if any. *)
Record ConfigData : Type := {
  own_entries : list (string * McpServerConfig);
  inherited : option McpServerConfig
}.

(** writing an own property: a property that exists keeps its place *)
Fixpoint own_set (key : string) (v : McpServerConfig) (acc : list (string * McpServerConfig)) : list (string * McpServerConfig) :=
  match acc with
  | [] => [(key, v)]
  | (k, v0) :: rest =>
      if String.eqb k key then (k, v) :: rest else (k, v0) :: own_set key v rest
  end.

(** [acc[server.name] = { command, args, env }]: a later server replaces
    the entry of an earlier one with the same name; the assignment to
    [__proto__] writes no property, it makes the object assigned the
    prototype of [acc] *)
Definition record_set (key : string) (v : McpServerConfig) (acc : ConfigData) : ConfigData :=
  if String.eqb key "__proto__"
  then {| own_entries := own_entries acc; inherited := Some v |}
  else {| own_entries := own_set key v (own_entries acc); inherited := inherited acc |}.

Definition configData (mcpServers : list McpServerConfig) : ConfigData :=
  fold_left (fun acc server => record_set (name server) server acc) mcpServers
    {| own_entries := []; inherited := None |}.

Definition has_own (key : string) (data : ConfigData) : bool :=
  existsb (fun kv => String.eqb (fst kv) key) (own_entries data).

(** [configSchema.safeParse(configData).success].  The record schema of zod
    checks the value under every key that [for (key in data)] visits: the
    own properties, and the properties [command], [args] and [env] of a
    prototype set by [record_set], unless an own property of the same name
    hides them.  What is found under an inherited key (a string, an array,
    a record of strings) is no server entry. *)
Definition configSchema_safeParse (mcpServers : list McpServerConfig) : bool :=
  let data := configData mcpServers in
  forallb (fun kv => entry_valid (snd kv)) (own_entries data)
  && match inherited data with
     | None => true
     | Some _ => forallb (fun key => has_own key data) ["command"; "args"; "env"]
     end.

(** the [catch] block: the cache is cleared, then [updateConfigCache([])] *)
Definition reset_cache (st : Registry) : Registry :=
  {| clients := clients st;
     lastMcpServerConfigHash := Some "empty";
     lastMcpServerLength := 0;
     lastMcpServerNames := [] |}.

Definition launch (w : World) (serverConfig : McpServerConfig) : option (string * MCPClient) :=
  option_map (fun c => (name serverConfig, c)) (fromCommand w serverConfig).

Fixpoint launch_all (w : World) (servers : list McpServerConfig) : list (string * MCPClient) :=
  match servers with
  | [] => []
  | s :: rest =>
      match launch w s with
      | Some c => c :: launch_all w rest
      | None => launch_all w rest
      end
  end.

(** the body of the asynchronous block of [initMcpFromAgentConfig] *)
Definition activate (w : World) (mcpServers : list McpServerConfig) (st : Registry) : Registry * result unit * list McpEffect :=
  let cleaned := List.map (fun nc => CleanedUp (snd nc) (cleanup_ok w (snd nc))) (clients st) in
  let st1 := set_clients [] st in
  match mcpServers with
  | [] =>
      match updateConfigCache mcpServers st1 with
      | Returned st2 => (st2, Returned tt, cleaned)
      | Threw m => (st1, Threw m, cleaned)
      end
  | _ =>
      if negb (configSchema_safeParse mcpServers)
      then (st1, Threw "Invalid MCP server configuration", cleaned)
      else
        let st2 := set_clients (launch_all w mcpServers) st1 in
        let launched :=
          List.map (fun s => Launched (name s) (bool_decide (is_Some (fromCommand w s)))) mcpServers in
        match updateConfigCache mcpServers st2 with
        | Returned st3 => (st3, Returned tt, cleaned ++ launched)
        | Threw m => (st2, Threw m, cleaned ++ launched)
        end
  end.

(** [initMcpFromAgentConfig], for calls that do not overlap:
    [initializationInProgress] is [null] when a call starts and again when
    it ends.  The third component lists what the call did to connections. *)
Definition initMcpFromAgentConfig (w : World) (mcpServers : list McpServerConfig) (st : Registry) : Registry * result unit * list McpEffect :=
  match hasConfigChanged st mcpServers with
  | Threw m => (st, Threw m, [])
  | Returned false => (st, Returned tt, [])
  | Returned true =>
      match activate w mcpServers st with
      | (st', Returned u, effects) => (st', Returned u, effects)
      | (st', Threw m, effects) => (reset_cache st', Threw m, effects)
      end
  end.

(** *** getMcpToolSpecs *)

(** [`${v}`] *)
Definition template_text (h : list obj) (v : val) : string :=
  match v with
  | VStr s => s
  | other =>
      match Json.stringify h other with
      | Returned (Some j) => ToString j
      | _ => ""
      end
  end.

(** [if (clonedTool.toolSpec?.name) clonedTool.toolSpec.name = `mcp_${...}`] *)
Definition prefix_name (h : list obj) (clonedTool : nat) : list obj :=
  let toolSpec := get_field h clonedTool "toolSpec" in
  let tool_name := get_optional h toolSpec "name" in
  if truthy tool_name
  then
    match toolSpec with
    | VRef l => set_field h l "name" (VStr ("mcp_" +:+ template_text h tool_name))
    | _ => h
    end
  else h.

(** what [prefix_name] does to a copy, told on the JSON the copy was parsed
    from *)
Definition name_text (j : json) : string :=
  match j with
  | JStr s => s
  | other => ToString other
  end.

Definition prefix_spec (toolSpec : json) : json :=
  match toolSpec with
  | JObj fields =>
      match jassoc "name" fields with
      | Some jn =>
          if truthy_json jn
          then JObj (jassoc_set "name" (JStr ("mcp_" +:+ name_text jn)) fields)
          else toolSpec
      | None => toolSpec
      end
  | _ => toolSpec
  end.

Definition prefix_json (tool : json) : json :=
  match tool with
  | JObj fields =>
      match jassoc "toolSpec" fields with
      | Some toolSpec => JObj (jassoc_set "toolSpec" (prefix_spec toolSpec) fields)
      | None => tool
      end
  | _ => tool
  end.

(** [tool.toolSpec.name] of a descriptor given as JSON, when it is a string *)
Definition json_tool_name (tool : json) : option string :=
  match tool with
  | JObj fields =>
      match jassoc "toolSpec" fields with
      | Some (JObj fields2) =>
          match jassoc "name" fields2 with
          | Some (JStr s) => Some s
          | _ => None
          end
      | _ => None
      end
  | _ => None
  end.

(** the callback of [client.tools.map] *)
Definition clone_tool (h : list obj) (tool : nat) : result (list obj * val) :=
  match Json.deep_copy h (VRef tool) with
  | Threw m => Threw m
  | Returned (h1, clonedTool) =>
      match clonedTool with
      | VRef l => Returned (prefix_name h1 l, clonedTool)
      | _ => Returned (h1, clonedTool)
      end
  end.

Fixpoint clone_tools (h : list obj) (ts : list nat) : result (list obj * list val) :=
  match ts with
  | [] => Returned (h, [])
  | t :: rest =>
      match clone_tool h t with
      | Threw m => Threw m
      | Returned (h1, v) =>
          match clone_tools h1 rest with
          | Threw m => Threw m
          | Returned (h2, vs) => Returned (h2, v :: vs)
          end
      end
  end.

(** all the descriptors the registry holds, in the order of [flatMap] *)
Definition registry_tools (st : Registry) : list nat :=
  List.concat (List.map (fun nc => tools (snd nc)) (clients st)).

(** [getMcpToolSpecs]; an exception leaves the heap as it was, the copies
    made before it being unreachable *)
Definition getMcpToolSpecs (w : World) (mcpServers : option (list McpServerConfig))
    (st : Registry) (h : list obj) : Registry * list obj * result (list val) :=
  match mcpServers with
  | None | Some [] => (st, h, Returned [])
  | Some servers =>
      match initMcpFromAgentConfig w servers st with
      | (st', Threw m, _) => (st', h, Threw m)
      | (st', Returned _, _) =>
          match clone_tools h (registry_tools st') with
          | Threw m => (st', h, Threw m)
          | Returned (h', specs) => (st', h', Returned specs)
          end
      end
  end.

(** [v] in [h'] reads as the copy, with its name prefixed, of the
    descriptor at [t] in [h] *)
Definition prefixed_copy_of (h : list obj) (t : nat) (h' : list obj) (v : val) : Prop :=
  exists j, Json.stringify h (VRef t) = Returned (Some j)
            /\ Json.stringify h' v = Returned (Some (prefix_json j)).

(** *** tryExecuteMcpTool *)

Record McpToolResult : Type := {
  found : bool;
  success : bool;
  tool_result_name : string;
  error : option string;
  message : string;
  tool_result : option val
}.

(** [tool.toolSpec?.name == toolName] *)
Definition tool_matches (h : list obj) (toolName : string) (tool : nat) : bool :=
  match get_optional h (get_field h tool "toolSpec") "name" with
  | VStr s => String.eqb s toolName
  | VUndefined | VNull => false
  | other => looseEqualsString h other toolName
  end.

Definition advertises (h : list obj) (toolName : string) (c : MCPClient) : bool :=
  existsb (tool_matches h toolName) (tools c).

Definition tryExecuteMcpTool (w : World) (toolName : string) (input : val)
    (mcpServers : option (list McpServerConfig)) (st : Registry) (h : list obj) : Registry * result McpToolResult :=
  match mcpServers with
  | None | Some [] =>
      (st,
       Returned
         {| found := false; success := false;
            tool_result_name := "mcp_" +:+ toolName;
            error := Some "No MCP servers configured";
            message := "This agent does not have any MCP servers configured. Please add MCP server configuration in agent settings.";
            tool_result := None |})
  | Some servers =>
      match initMcpFromAgentConfig w servers st with
      | (st', Threw m, _) => (st', Threw m)
      | (st', Returned _, _) =>
          match List.find (fun nc => advertises h toolName (snd nc)) (clients st') with
          | None =>
              (st',
               Returned
                 {| found := false; success := false;
                    tool_result_name := "mcp_" +:+ toolName;
                    error := Some ("MCP tool " +:+ toolName +:+ " not found");
                    message := "No MCP server provides a tool named " +:+ Json.dquote
                               +:+ toolName +:+ Json.dquote;
                    tool_result := None |})
          | Some (_, client) =>
              match callTool w client toolName input with
              | Returned res =>
                  (st',
                   Returned
                     {| found := true; success := true;
                        tool_result_name := "mcp_" +:+ toolName;
                        error := None;
                        message := "MCP tool execution successful";
                        tool_result := Some res |})
              | Threw errorMessage =>
                  (st',
                   Returned
                     {| found := true; success := false;
                        tool_result_name := "mcp_" +:+ toolName;
                        error := Some errorMessage;
                        message := "Error executing MCP tool " +:+ Json.dquote +:+ toolName
                                   +:+ Json.dquote +:+ ": " +:+ errorMessage;
                        tool_result := None |})
              end
          end
      end
  end.

End McpRegistry.

(** ** Configurations and runs used as examples *)

(** the shipped configuration of the pull-request reviewer agent *)
Definition gh_config : CommandConfig :=
  {| allowedCommands := Some [ {| pattern := "gh pr *"; description := "GitHub CLI" |} ];
     shell := "/bin/bash" |}.

Definition npm_config : CommandConfig :=
  {| allowedCommands := Some [ {| pattern := "npm install"; description := "install" |} ];
     shell := "/bin/bash" |}.

Definition read_name_config : CommandConfig :=
  {| allowedCommands := Some [ {| pattern := "read-name"; description := "asks a name" |} ];
     shell := "/bin/bash" |}.

(** [read-name] is started as process 4242, prints a prompt and exits with
    code 0 before any input is sent. *)
Definition prompted_then_exited : System :=
  run [ StdoutData 4242 "Enter name: "; ProcessExit 4242 (Some 0) ]
    (fst (executeCommand {| in_command := "read-name"; cwd := "/tmp" |} (Some 4242) 0
            (new_system read_name_config))).

Definition tracked_service : CommandService :=
  service (fst (executeCommand {| in_command := "read-name"; cwd := "/tmp" |} (Some 4242) 0
                  (new_system read_name_config))).

Definition kill_denied (target : Z) : KillOutcome := KillThrows (Some "kill EPERM").

(** the descriptor of the mocked client of [index.test.ts]:
    [{ toolSpec: { name: 'mockTool', description: ..., inputSchema: { json: { type: 'object' } } } }] *)
Definition mock_heap : list obj :=
  [ OObj [("type", VStr "object")];
    OObj [("json", VRef 0)];
    OObj [("name", VStr "mockTool");
          ("description", VStr "A mocked tool for testing");
          ("inputSchema", VRef 1)];
    OObj [("toolSpec", VRef 2)] ].

Definition mock_client : MCPClient := {| handle := 0; tools := [3%nat] |}.

Definition mock_world : World :=
  {| fromCommand := fun _ => Some mock_client;
     cleanup_ok := fun _ => true;
     callTool := fun _ toolName _ =>
       if String.eqb toolName "mockTool" then Returned (VStr "Mock tool response")
       else Threw ("Tool " +:+ toolName +:+ " not found") |}.

(** a world in which no server starts and every cleanup fails *)
Definition failing_world : World :=
  {| fromCommand := fun _ => None;
     cleanup_ok := fun _ => false;
     callTool := fun _ _ _ => Threw "not connected" |}.

Definition mockMcpServers : list McpServerConfig :=
  [ {| name := "mock-server"; mcp_description := "Mock MCP server for testing";
       mcp_command := Some "mock-command"; mcp_args := Some ["arg1"; "arg2"];
       env := Some [("TEST_ENV", "test_value")] |} ].

Definition fetch_server : McpServerConfig :=
  {| name := "fetch"; mcp_description := "HTTP fetch";
     mcp_command := Some "uvx"; mcp_args := Some ["mcp-server-fetch"]; env := None |}.

Definition github_server : McpServerConfig :=
  {| name := "github"; mcp_description := "GitHub";
     mcp_command := Some "npx"; mcp_args := Some ["-y"; "server-github"];
     env := Some [("GITHUB_TOKEN", "t")] |}.


(** conversions of a runtime, for the examples; no descriptor of the
    examples has a name that is not a string *)
Definition sample_ToString (j : json) : string := "[object Object]".
Definition sample_looseEqualsString (h : list obj) (v : val) (s : string) : bool := false.


(** the first call of [getMcpToolSpecs] of [index.test.ts] *)
Definition first_specs : Registry * list obj * result (list val) :=
  getMcpToolSpecs compare_code_units sample_ToString mock_world (Some mockMcpServers)
    initial_registry mock_heap.

(** ... after which the caller overwrites the name in the descriptor it
    was given: [tools[0].toolSpec.name = 'hacked'] *)
Definition heap_after_caller_write : list obj :=
  set_field (snd (fst first_specs)) 6 "name" (VStr "hacked").

(** ** CommandService: the remaining methods, and runs of the service *)

Definition getAllowedCommands (svc : CommandService) : list CommandPatternConfig :=
  match allowedCommands (config svc) with
  | Some l => l
  | None => []
  end.

Definition updateConfig (newConfig : CommandConfig) (svc : CommandService) : CommandService :=
  {| config := newConfig;
     runningProcesses := runningProcesses svc;
     processStates := processStates svc |}.

(** What can happen to a service: a call of one of its methods, or an
    event of a child process or of a timer. *)
Inductive Action : Type :=
| DoExecuteCommand (input : CommandInput) (spawned : option Z) (now : Z)
| DoSendInput (input : CommandStdinInput)
| DoStopProcess (kill : Z -> KillOutcome) (p : Z)
| DoUpdateConfig (newConfig : CommandConfig)
| DoEvent (ev : Event).

Definition with_service (svc : CommandService) (sys : System) : System :=
  {| service := svc; closures := closures sys; attached := attached sys |}.

Definition perform (a : Action) (sys : System) : System :=
  match a with
  | DoExecuteCommand input spawned now => fst (executeCommand input spawned now sys)
  | DoSendInput input => fst (fst (sendInput input sys))
  | DoStopProcess kill p => with_service (fst (fst (stopProcess kill p (service sys)))) sys
  | DoUpdateConfig newConfig => with_service (updateConfig newConfig (service sys)) sys
  | DoEvent ev => step ev sys
  end.

Definition perform_all (actions : list Action) (sys : System) : System :=
  fold_left (fun s a => perform a s) actions sys.

(** the two tables hold the same pids, and every tracked state has its
    process handle *)
Definition tables_aligned (svc : CommandService) : Prop :=
  forall p,
    (is_Some (runningProcesses svc !! p) <-> is_Some (processStates svc !! p))
    /\ (forall st, processStates svc !! p = Some st -> is_Some (process st)).

(** output in which no probe sees a prompt and no readiness keyword occurs *)
Definition quiet (out : string) : bool :=
  negb (isWaiting (isWaitingForInput out)) && negb (isServerReady out).

(** the stdout events of a list of chunks, and the text they add up to *)
Definition stdout_events (p : Z) (chunks : list string) : list Event :=
  List.map (StdoutData p) chunks.

Fixpoint joined (chunks : list string) : string :=
  match chunks with
  | [] => EmptyString
  | c :: rest => c +:+ joined rest
  end.

(** a pattern that cannot match a text without the character [x] *)
Fixpoint needs_char (x : ascii) (r : Regex.re) : Prop :=
  match r with
  | Regex.Void => True
  | Regex.Eps => False
  | Regex.Class p => forall c, p c = true -> c = x
  | Regex.Seq r1 r2 => needs_char x r1 \/ needs_char x r2
  | Regex.Alt r1 r2 => needs_char x r1 /\ needs_char x r2
  | Regex.Star _ => False
  end.

Fixpoint has_char (x : ascii) (s : string) : bool :=
  match s with
  | EmptyString => false
  | String c rest => Ascii.eqb c x || has_char x rest
  end.

(** ** The MCP registry: connection tests *)

Definition advice_not_found : string :=
  "Command not found. Please make sure the command is installed and the path is correct.".
Definition advice_timeout : string :=
  "The response from the server timed out. Please check if the server is running properly.".
Definition advice_permission : string :=
  "A permission error occurred. Please make sure you have the execution permissions.".
Definition advice_port : string :=
  "The port is already in use. Please make sure that no other process is using the same port.".
Definition advice_default : string :=
  "Please make sure your command and arguments are correct.".

Definition analyzeServerError (errorMessage : string) : string :=
  let lowerError := Js.toLowerCase errorMessage in
  if Js.includes lowerError "enoent" || Js.includes lowerError "command not found"
  then advice_not_found
  else if Js.includes lowerError "timeout"
  then advice_timeout
  else if Js.includes lowerError "permission denied" || Js.includes lowerError "eacces"
  then advice_permission
  else if Js.includes lowerError "port" && Js.includes lowerError "use"
  then advice_port
  else advice_default.

Record ConnectionDetails : Type := {
  toolCount : option nat;
  toolNames : option (list val);
  detail_error : option string;
  errorDetails : option string;
  startupTime : option Z
}.

Record ConnectionTest : Type := {
  test_success : bool;
  test_message : string;
  details : ConnectionDetails
}.

(** [tools.map((t) => t.toolSpec?.name).filter(Boolean)] *)
Definition advertised_names (h : list obj) (ts : list nat) : list val :=
  List.filter truthy
    (List.map (fun t => get_optional h (get_field h t "toolSpec") "name") ts).

(** [testMcpServerConnection]: [launched] is the outcome of
    [MCPClient.fromCommand], [cleaned] the one of [client.cleanup()], each
    with the text of what it throws; [startTime] and [endTime] are the two
    readings of [Date.now()]. *)
Definition testMcpServerConnection (mcpServer : McpServerConfig)
    (launched : result MCPClient) (cleaned : result unit)
    (h : list obj) (startTime endTime : Z) : ConnectionTest :=
  let failed (errorMessage : string) :=
    {| test_success := false;
       test_message := "Failed to connect to MCP server " +:+ Json.dquote
                       +:+ name mcpServer +:+ Json.dquote;
       details := {| toolCount := None; toolNames := None;
                     detail_error := Some errorMessage;
                     errorDetails := Some (analyzeServerError errorMessage);
                     startupTime := None |} |} in
  match launched with
  | Threw errorMessage => failed errorMessage
  | Returned client =>
      match cleaned with
      | Threw errorMessage => failed errorMessage
      | Returned _ =>
          {| test_success := true;
             test_message := "Successfully connected to MCP server " +:+ Json.dquote
                             +:+ name mcpServer +:+ Json.dquote;
             details := {| toolCount := Some (length (tools client));
                           toolNames := Some (advertised_names h (tools client));
                           detail_error := None; errorDetails := None;
                           startupTime := Some (endTime - startTime) |} |}
      end
  end.

(** own properties of the object [results], by key *)
Fixpoint results_set {V} (key : string) (v : V) (acc : list (string * V)) : list (string * V) :=
  match acc with
  | [] => [(key, v)]
  | (k, v0) :: rest =>
      if String.eqb k key then (k, v) :: rest else (k, v0) :: results_set key v rest
  end.

Fixpoint results_get {V} (key : string) (acc : list (string * V)) : option V :=
  match acc with
  | [] => None
  | (k, v) :: rest => if String.eqb k key then Some v else results_get key rest
  end.

(** [results[key] = v] on an object made by [{}]: the property is written,
    but for the key [__proto__], whose assignment sets the prototype of the
    object and writes no property *)
Definition results_assign {V} (key : string) (v : V) (acc : list (string * V)) : list (string * V) :=
  if String.eqb key "__proto__" then acc else results_set key v acc.

(** [testAllMcpServerConnections]: the servers are tested one after the
    other; [probe i s] is the test of the server [s] at position [i]. *)
Fixpoint testAll_from (probe : nat -> McpServerConfig -> ConnectionTest) (i : nat)
    (mcpServers : list McpServerConfig) (results : list (string * ConnectionTest)) : list (string * ConnectionTest) :=
  match mcpServers with
  | [] => results
  | server :: rest =>
      testAll_from probe (S i) rest (results_assign (name server) (probe i server) results)
  end.

Definition testAllMcpServerConnections (probe : nat -> McpServerConfig -> ConnectionTest)
    (mcpServers : option (list McpServerConfig)) : list (string * ConnectionTest) :=
  match mcpServers with
  | None | Some [] => []
  | Some servers => testAll_from probe 0 servers []
  end.

(** the fields of a configuration that enter its identity *)
Definition same_identity (a b : McpServerConfig) : Prop :=
  name a = name b
  /\ mcp_command a = mcp_command b
  /\ mcp_args a = mcp_args b
  /\ match env a, env b with
     | Some (kv :: kvs), Some (kv' :: kvs') => kv :: kvs = kv' :: kvs'
     | Some (_ :: _), _ | _, Some (_ :: _) => False
     | _, _ => True
     end.

(** what every listener keeps: the alignment of the tables, the value of a
    settled promise, and the identity of the call *)
Definition listener_keeps (f : CommandService * Closure -> CommandService * Closure) : Prop :=
  forall svc c,
    (tables_aligned svc -> tables_aligned (fst (f (svc, c))))
    /\ (forall r, settled c = Some r -> settled (snd (f (svc, c))) = Some r)
    /\ owner (snd (f (svc, c))) = owner c
    /\ cl_pid (snd (f (svc, c))) = cl_pid c.

(** the listeners of the call [call] of [executeCommand] are on the streams
    of process [p]; its variables hold [out] and [err], it has not
    completed, and its promise is [s] *)
Definition executing (sys : System) (p : Z) (call : nat) (cmd out err : string)
    (s : option (result CommandExecutionResult)) : Prop :=
  attached sys !! p = Some call
  /\ closures sys !! call =
       Some {| owner := OfExecuteCommand cmd; cl_pid := p; currentOutput := out;
               currentError := err; isCompleted := false; settled := s |}.

(** the same for a call of [sendInput], which captured [state] and [proc] *)
Definition answering (sys : System) (p : Z) (call : nat) (state : ProcessState)
    (proc : ChildProcess) (out err : string) (completed : bool)
    (s : option (result CommandExecutionResult)) : Prop :=
  attached sys !! p = Some call
  /\ closures sys !! call =
       Some {| owner := OfSendInput state proc; cl_pid := p; currentOutput := out;
               currentError := err; isCompleted := completed; settled := s |}.

(** chunks none of which carries an error marker and after each of which
    the output so far is quiet *)
Fixpoint quiet_chunks (out : string) (chunks : list string) : bool :=
  match chunks with
  | [] => true
  | chunk :: rest =>
      negb (checkForErrors chunk "") && quiet (out +:+ chunk)
      && quiet_chunks (out +:+ chunk) rest
  end.

(** the state of a session with another stdout *)
Definition with_stdout (text : string) (st : ProcessState) : ProcessState :=
  {| isRunning := isRunning st; hasError := hasError st;
     output := {| stdout := text; stderr := stderr (output st); code := code (output st) |};
     process := process st |}.

(** the result of a call of [executeCommand] for process [p] *)
Definition execution_result (p : Z) (cmd out err : string) (exit_code : Z)
    (requires : option bool) (prompt_text : option string) : CommandExecutionResult :=
  {| res_stdout := out; res_stderr := err; exitCode := exit_code;
     processInfo := {| pi_pid := p; pi_command := cmd; detached := true |};
     requiresInput := requires; res_prompt := prompt_text |}.

(** the events that the streams, the exit and the timer of one call can
    deliver; the event ['error'] of the child is not among them *)
Definition stream_exit_or_timer (p : Z) (call : nat) (ev : Event) : bool :=
  match ev with
  | StdoutData q _ => Z.eqb q p
  | StderrData q _ => Z.eqb q p
  | ProcessExit q _ => Z.eqb q p
  | TimerFired k => Nat.eqb k call
  | ProcessError _ _ => false
  end.

(** a pattern whose every alternative ends in [.*]: an occurrence of it
    runs on to the end of its line *)
Fixpoint ends_open (r : Regex.re) : Prop :=
  match r with
  | Regex.Void => True
  | Regex.Seq _ r2 => ends_open r2
  | Regex.Alt r1 r2 => ends_open r1 /\ ends_open r2
  | Regex.Star r1 => r1 = Regex.dot
  | _ => False
  end.

(** what [localeCompare] is for every collation: a total preorder, in which
    two different strings may well compare equal *)
Definition collates (cmp : string -> string -> Z) : Prop :=
  (forall a b, cmp a b <= 0 \/ cmp b a <= 0)
  /\ (forall a b c, cmp a b <= 0 -> cmp b c <= 0 -> cmp a c <= 0).

(** no two different names of the list compare equal *)
Definition distinguishes (cmp : string -> string -> Z) (names : list string) : Prop :=
  forall a b, In a names -> In b names -> cmp a b <= 0 -> cmp b a <= 0 -> a = b.

(** ** More configurations and runs used as examples *)

Definition dev_config : CommandConfig :=
  {| allowedCommands := Some [ {| pattern := "npm run dev"; description := "dev server" |} ];
     shell := "/bin/bash" |}.

(** [npm install] is started as process 501 *)
Definition install_started : System :=
  fst (executeCommand {| in_command := "npm install"; cwd := "/app" |} (Some 501) 1000
         (new_system npm_config)).

Definition install_state : ProcessState :=
  {| isRunning := true; hasError := false;
     output := {| stdout := ""; stderr := ""; code := None |};
     process := Some {| child_pid := 501; spawnargs := ["/bin/bash"; "-ic"; "npm install"] |} |}.

(** ... and prints its report in two chunks *)
Definition install_printed : System :=
  run (stdout_events 501 ["added 12 packages"; " in 3s"]) install_started.

(** ... or prints an error marker cut in two by the chunking *)
Definition install_marker_cut : System :=
  run (stdout_events 501 ["npm ERR"; "! missing script"]) install_started.

(** [read-name] is started as process 4242 and prints its prompt *)
Definition read_name_started : System :=
  fst (executeCommand {| in_command := "read-name"; cwd := "/tmp" |} (Some 4242) 0
         (new_system read_name_config)).

Definition read_name_state : ProcessState :=
  {| isRunning := true; hasError := false;
     output := {| stdout := ""; stderr := ""; code := None |};
     process := Some {| child_pid := 4242; spawnargs := ["/bin/bash"; "-ic"; "read-name"] |} |}.

Definition read_name_process : ChildProcess :=
  {| child_pid := 4242; spawnargs := ["/bin/bash"; "-ic"; "read-name"] |}.

Definition read_name_prompted : System :=
  step (StdoutData 4242 "Enter name: ") read_name_started.

Definition read_name_answer : CommandExecutionResult :=
  execution_result 4242 "read-name" "Enter name: " "" 0 (Some true) (Some "Enter name: ").

(** ... and is answered *)
Definition read_name_answered : System :=
  fst (fst (sendInput {| in_pid := 4242; stdin := "Ada" |} read_name_prompted)).

(** a development server, started as process 777, reports that it listens *)
Definition dev_started : System :=
  fst (executeCommand {| in_command := "npm run dev"; cwd := "/app" |} (Some 777) 0
         (new_system dev_config)).

Definition dev_ready : System :=
  step (StdoutData 777 "Server listening on port 3000") dev_started.

Definition dev_answer : CommandExecutionResult :=
  execution_result 777 "npm run dev" "Server listening on port 3000" "" 0 None None.

Definition kill_granted (target : Z) : KillOutcome := KillOk.

(** a world in which only the server [fetch] starts *)
Definition fetch_only_world : World :=
  {| fromCommand := fun s => if String.eqb (name s) "fetch" then Some mock_client else None;
     cleanup_ok := fun _ => true;
     callTool := fun _ _ _ => Threw "not connected" |}.

(** [github] with another description, [fetch] with an empty environment *)
Definition github_server_redescribed : McpServerConfig :=
  {| name := "github"; mcp_description := "GitHub issues and pull requests";
     mcp_command := Some "npx"; mcp_args := Some ["-y"; "server-github"];
     env := Some [("GITHUB_TOKEN", "t")] |}.

Definition fetch_server_empty_env : McpServerConfig :=
  {| name := "fetch"; mcp_description := "HTTP fetch";
     mcp_command := Some "uvx"; mcp_args := Some ["mcp-server-fetch"]; env := Some [] |}.

(** a second entry named [fetch], with another command *)
Definition fetch_server_again : McpServerConfig :=
  {| name := "fetch"; mcp_description := "HTTP fetch, second entry";
     mcp_command := Some "npx"; mcp_args := Some ["fetch-mcp"]; env := None |}.

(** connection tests in which no command is found *)
Definition probe_not_found (i : nat) (s : McpServerConfig) : ConnectionTest :=
  testMcpServerConnection s (Threw ("spawn " +:+ default "" (mcp_command s) +:+ " ENOENT"))
    (Returned tt) mock_heap 0 (Z.of_nat i).

(** [npm init] is started as process 88 and asks its first question *)
Definition init_config : CommandConfig :=
  {| allowedCommands := Some [ {| pattern := "npm init"; description := "new package" |} ];
     shell := "/bin/bash" |}.

Definition init_asked : System :=
  step (StdoutData 88 "? package name? ")
    (fst (executeCommand {| in_command := "npm init"; cwd := "/app" |} (Some 88) 0
            (new_system init_config))).

Definition init_process : ChildProcess :=
  {| child_pid := 88; spawnargs := ["/bin/bash"; "-ic"; "npm init"] |}.

Definition init_state : ProcessState :=
  {| isRunning := true; hasError := false;
     output := {| stdout := "? package name? "; stderr := ""; code := None |};
     process := Some init_process |}.

(** two servers whose names differ in the control character U+0001 only,
    which the default collation of the engine ignores *)
Definition name_a_soh : string := String "a" (String "001" EmptyString).

Definition server_a : McpServerConfig :=
  {| name := "a"; mcp_description := "first";
     mcp_command := Some "uvx"; mcp_args := Some ["server-a"]; env := None |}.

Definition server_a_soh : McpServerConfig :=
  {| name := name_a_soh; mcp_description := "second";
     mcp_command := Some "uvx"; mcp_args := Some ["server-b"]; env := None |}.

(** a collation that ignores the control characters U+0000 to U+0008 and
    orders what is left by code units *)
Fixpoint without_controls (s : string) : string :=
  match s with
  | EmptyString => EmptyString
  | String c rest =>
      if (nat_of_ascii c <? 9)%nat then without_controls rest
      else String c (without_controls rest)
  end.

Definition compare_ignoring_controls (a b : string) : Z :=
  compare_code_units (without_controls a) (without_controls b).


(** a well-formed server named [__proto__] *)
Definition proto_server : McpServerConfig :=
  {| name := "__proto__"; mcp_description := "";
     mcp_command := Some "uvx"; mcp_args := Some ["x"]; env := None |}.

(** a descriptor whose name is the empty string:
    [{ toolSpec: { name: '', description: 'anonymous' } }] *)
Definition nameless_heap : list obj :=
  [ OObj [("name", VStr ""); ("description", VStr "anonymous")];
    OObj [("toolSpec", VRef 0)] ].

Definition nameless_world : World :=
  {| fromCommand := fun _ => Some {| handle := 0; tools := [1%nat] |};
     cleanup_ok := fun _ => true;
     callTool := fun _ _ _ => Threw "not connected" |}.

(** * Properties *)

(** ** The classifiers on the inputs of the specification *)

Example isServerReady_compiled : isServerReady "Compiled successfully in 320ms" = true.
Proof. reflexivity. Qed.

Example isServerReady_npm : isServerReady "npm install done" = false.
Proof. reflexivity. Qed.

Example isWaitingForInput_enter_name :
  isWaitingForInput "Enter name: " = {| isWaiting := true; prompt := Some "Enter name: " |}.
Proof. reflexivity. Qed.

Example isWaitingForInput_inquirer :
  isWaitingForInput "? What is your name? (anon)" =
  {| isWaiting := true; prompt := Some "What is your name? (anon)" |}.
Proof. reflexivity. Qed.

Example isWaitingForInput_plain :
  isWaitingForInput "done" = {| isWaiting := false; prompt := None |}.
Proof. reflexivity. Qed.

(** ** The allow-list matcher *)

Section Matcher.

Implicit Types (req : string) (pat : CommandPatternConfig).

Lemma split_space_nonempty s : Js.split_space s <> [].
Proof.
  destruct s as [|c s]; simpl; [discriminate|].
  destruct (Ascii.eqb c " "); [discriminate|].
  destruct (Js.split_space s); discriminate.
Qed.

Lemma parts_of_pattern s :
  Js.split_space s = command (parseCommandPattern s) :: args (parseCommandPattern s).
Proof.
  unfold parseCommandPattern; simpl.
  pose proof (split_space_nonempty s) as Hne.
  destruct (Js.split_space s); [congruence | reflexivity].
Qed.

Lemma existsb_star (l : list string) :
  existsb (fun part => String.eqb part "*") l = true <-> In "*" l.
Proof.
  rewrite existsb_exists. split.
  - intros (x & Hin & Heq). apply String.eqb_eq in Heq. now subst.
  - intros Hin. exists "*". split; [assumption | apply String.eqb_refl].
Qed.

Lemma wildcard_tokens s :
  wildcard (parseCommandPattern s) = true <-> In "*" (Js.split_space s).
Proof. unfold parseCommandPattern; simpl. apply existsb_star. Qed.

Lemma wildcard_of_args s :
  In "*" (args (parseCommandPattern s)) -> wildcard (parseCommandPattern s) = true.
Proof.
  intros Hin. apply wildcard_tokens. rewrite parts_of_pattern. now right.
Qed.

Lemma no_wildcard_args s :
  ~ In "*" (Js.split_space s) ->
  wildcard (parseCommandPattern s) = false /\ ~ In "*" (args (parseCommandPattern s)).
Proof.
  intros Hno. split.
  - destruct (wildcard (parseCommandPattern s)) eqn:E; [|reflexivity].
    apply wildcard_tokens in E. contradiction.
  - intros Hin. apply Hno. rewrite parts_of_pattern. now right.
Qed.

(** the positional comparison of [every], for a pattern without [*] *)
Lemma every_from_literal (ys xs : list string) (k : nat) :
  ~ In "*" xs ->
  Js.every_from
    (fun arg index =>
       if String.eqb arg "*" then true else Js.strict_eq_opt arg (nth_error ys index))
    k xs = true
  <-> (forall j a, nth_error xs j = Some a -> nth_error ys (k + j) = Some a).
Proof.
  revert k. induction xs as [|x xs IH]; intros k Hno; simpl.
  - split; [|reflexivity]. intros _ [|j] a; discriminate.
  - assert (Hx : String.eqb x "*" = false).
    { apply String.eqb_neq. intros ->. apply Hno. now left. }
    rewrite Hx, andb_true_iff, IH by (intros Hin; apply Hno; now right).
    split.
    + intros [Hhd Htl] [|j] a Hj; simpl in Hj.
      * injection Hj as <-. rewrite Nat.add_0_r.
        unfold Js.strict_eq_opt in Hhd.
        destruct (nth_error ys k) as [y|]; [|discriminate].
        apply String.eqb_eq in Hhd. now subst.
      * replace (k + S j)%nat with (S k + j)%nat by lia. now apply Htl.
    + intros H. split.
      * specialize (H 0%nat x eq_refl). rewrite Nat.add_0_r in H. rewrite H.
        simpl. apply String.eqb_refl.
      * intros j a Hj. replace (S k + j)%nat with (k + S j)%nat by lia.
        now apply H.
Qed.

Lemma patternAllows_wildcard (executeParts : CommandPattern) pat :
  wildcard (parseCommandPattern (pattern pat)) = true ->
  (patternAllows executeParts pat = true
   <-> command (parseCommandPattern (pattern pat)) = command executeParts).
Proof.
  intros Hw. unfold patternAllows. rewrite Hw.
  destruct (String.eqb_spec (command (parseCommandPattern (pattern pat))) (command executeParts));
    cbn [negb]; split; auto; discriminate.
Qed.

Lemma patternAllows_literal (executeParts : CommandPattern) pat :
  ~ In "*" (Js.split_space (pattern pat)) ->
  (patternAllows executeParts pat = true
   <-> command (parseCommandPattern (pattern pat)) = command executeParts
       /\ length (args (parseCommandPattern (pattern pat))) = length (args executeParts)
       /\ forall i, nth_error (args (parseCommandPattern (pattern pat))) i
                    = nth_error (args executeParts) i).
Proof.
  intros Hno. destruct (no_wildcard_args _ Hno) as [Hw Hargs].
  unfold patternAllows. rewrite Hw.
  remember (parseCommandPattern (pattern pat)) as p eqn:Ep. clear Ep.
  destruct (String.eqb_spec (command p) (command executeParts)) as [Hc|Hc]; cbn [negb].
  2:{ split; [discriminate | intros [? _]; contradiction]. }
  destruct (Nat.eqb_spec (length (args p)) (length (args executeParts))) as [Hl|Hl]; cbn [negb].
  2:{ split; [discriminate | intros (_ & ? & _); contradiction]. }
  unfold Js.every. rewrite every_from_literal by assumption. split.
  - intros H. repeat split; try assumption. intros i.
    destruct (nth_error (args p) i) as [a|] eqn:Ei.
    + symmetry. now apply (H i a).
    + apply nth_error_None in Ei. symmetry. apply nth_error_None. lia.
  - intros (_ & _ & H) j a Hj. simpl. now rewrite <- H.
Qed.

Lemma isCommandAllowed_exists (cfg : CommandConfig) req :
  isCommandAllowed cfg req = true
  <-> exists allowed pat,
        allowedCommands cfg = Some allowed /\ In pat allowed
        /\ patternAllows (parseCommandPattern req) pat = true.
Proof.
  unfold isCommandAllowed. rewrite existsb_exists. split.
  - intros (pat & Hin & Hp). destruct (allowedCommands cfg) as [allowed|]; [|destruct Hin].
    now exists allowed, pat.
  - intros (allowed & pat & Ha & Hin & Hp). rewrite Ha. now exists pat.
Qed.

End Matcher.

(** C1. A pattern whose argument tokens contain [*] authorizes every
    command line with the same command token, whatever arguments follow:
    [isCommandAllowed] returns true. *)
Theorem wildcard_authorizes_any_arguments
    (cfg : CommandConfig) (allowed : list CommandPatternConfig)
    (pat : CommandPatternConfig) (req : string) :
  allowedCommands cfg = Some allowed ->
  In pat allowed ->
  In "*" (args (parseCommandPattern (pattern pat))) ->
  command (parseCommandPattern req) = command (parseCommandPattern (pattern pat)) ->
  isCommandAllowed cfg req = true.
Proof.
  intros Ha Hin Hstar Hcmd. apply isCommandAllowed_exists.
  exists allowed, pat. repeat split; try assumption.
  apply patternAllows_wildcard; [now apply wildcard_of_args | now symmetry].
Qed.

Lemma wildcard_authorizes_gh_pr :
  isCommandAllowed gh_config "gh pr view 42" = true
  /\ isCommandAllowed gh_config "gh pr diff 42 --repo x/y" = true
  /\ isCommandAllowed gh_config "gh pr comment 1 -F f.md" = true.
Proof.
  split; [|split];
    apply (wildcard_authorizes_any_arguments gh_config
             [ {| pattern := "gh pr *"; description := "GitHub CLI" |} ]
             {| pattern := "gh pr *"; description := "GitHub CLI" |});
    try reflexivity; simpl; auto.
Defined.

(** C2, as stated, fails: [gh pr *] has [*] amid other argument tokens
    and two arguments, yet it matches a command line with five. *)
Lemma positional_wildcard_refuted :
  ~ (forall (pat : CommandPatternConfig) (req : string),
       In "*" (args (parseCommandPattern (pattern pat))) ->
       args (parseCommandPattern (pattern pat)) <> ["*"] ->
       patternAllows (parseCommandPattern req) pat = true ->
       length (args (parseCommandPattern req))
       = length (args (parseCommandPattern (pattern pat)))).
Proof.
  intros H.
  specialize (H {| pattern := "gh pr *"; description := "" |} "gh pr diff 42 --repo x/y").
  simpl in H. assert (5 = 2)%nat as Habs; [|discriminate Habs].
  apply H; [auto | discriminate | reflexivity].
Qed.

(** C2, amended. For a pattern with a [*] among its argument tokens, a
    command line matches exactly when the command tokens are equal: neither
    the number of arguments nor any argument position is compared. *)
Theorem wildcard_compares_command_only
    (pat : CommandPatternConfig) (executeParts : CommandPattern) :
  In "*" (args (parseCommandPattern (pattern pat))) ->
  (patternAllows executeParts pat = true
   <-> command (parseCommandPattern (pattern pat)) = command executeParts).
Proof.
  intros Hstar. apply patternAllows_wildcard. now apply wildcard_of_args.
Qed.

Lemma wildcard_compares_command_only_gh :
  patternAllows (parseCommandPattern "gh pr diff 42 --repo x/y")
    {| pattern := "gh pr *"; description := "" |} = true
  /\ patternAllows (parseCommandPattern "git pr view")
       {| pattern := "gh pr *"; description := "" |} = false.
Proof.
  split.
  - apply (wildcard_compares_command_only
             {| pattern := "gh pr *"; description := "" |}
             (parseCommandPattern "gh pr diff 42 --repo x/y"));
      [simpl; auto | reflexivity].
  - destruct (patternAllows (parseCommandPattern "git pr view")
                {| pattern := "gh pr *"; description := "" |}) eqn:E; [|reflexivity].
    exfalso.
    apply (wildcard_compares_command_only
             {| pattern := "gh pr *"; description := "" |}
             (parseCommandPattern "git pr view")) in E; [|simpl; auto].
    vm_compute in E. discriminate E.
Defined.

(** C5. A pattern without any [*] token matches only a command line with
    the same command token, the same number of arguments and the same
    argument at every position; [isCommandAllowed] is true exactly when some
    pattern of the list matches (so a match anywhere in the list, whatever
    precedes it, gives true), and false for an empty or undefined list. *)
Theorem literal_pattern_and_default_deny (cfg : CommandConfig) (req : string) :
  (forall pat,
     ~ In "*" (Js.split_space (pattern pat)) ->
     (patternAllows (parseCommandPattern req) pat = true
      <-> command (parseCommandPattern (pattern pat)) = command (parseCommandPattern req)
          /\ length (args (parseCommandPattern (pattern pat)))
             = length (args (parseCommandPattern req))
          /\ forall i, nth_error (args (parseCommandPattern (pattern pat))) i
                       = nth_error (args (parseCommandPattern req)) i))
  /\ (forall before pat after,
        allowedCommands cfg = Some (before ++ pat :: after) ->
        patternAllows (parseCommandPattern req) pat = true ->
        isCommandAllowed cfg req = true)
  /\ ((forall allowed pat,
         allowedCommands cfg = Some allowed -> In pat allowed ->
         patternAllows (parseCommandPattern req) pat = false) ->
      isCommandAllowed cfg req = false)
  /\ (allowedCommands cfg = None \/ allowedCommands cfg = Some [] ->
      isCommandAllowed cfg req = false).
Proof.
  split; [|split; [|split]].
  - intros pat Hno. now apply patternAllows_literal.
  - intros before pat after Ha Hp. apply isCommandAllowed_exists.
    exists (before ++ pat :: after), pat. repeat split; try assumption.
    apply in_or_app. right. now left.
  - intros Hnone. destruct (isCommandAllowed cfg req) eqn:E; [|reflexivity].
    apply isCommandAllowed_exists in E as (allowed & pat & Ha & Hin & Hp).
    rewrite (Hnone allowed pat Ha Hin) in Hp. discriminate.
  - unfold isCommandAllowed. intros [-> | ->]; reflexivity.
Qed.

Lemma literal_pattern_npm_install :
  isCommandAllowed npm_config "npm install" = true
  /\ isCommandAllowed npm_config "npm install lodash" = false
  /\ isCommandAllowed {| allowedCommands := None; shell := "/bin/bash" |} "npm install" = false.
Proof.
  destruct (literal_pattern_and_default_deny npm_config "npm install")
    as (_ & Hfirst & _ & _).
  destruct (literal_pattern_and_default_deny npm_config "npm install lodash")
    as (Hlit & _ & Hnone & _).
  destruct (literal_pattern_and_default_deny
              {| allowedCommands := None; shell := "/bin/bash" |} "npm install")
    as (_ & _ & _ & Hempty).
  split; [|split].
  - apply (Hfirst [] {| pattern := "npm install"; description := "install" |} []);
      reflexivity.
  - apply Hnone. intros allowed pat Ha Hin. injection Ha as <-.
    destruct Hin as [<- | []].
    destruct (patternAllows (parseCommandPattern "npm install lodash")
                {| pattern := "npm install"; description := "install" |}) eqn:E;
      [|reflexivity].
    apply Hlit in E.
    + destruct E as (_ & Hlen & _). simpl in Hlen. discriminate Hlen.
    + simpl. intros [Hs | [Hs | []]]; discriminate Hs.
  - apply Hempty. now left.
Defined.

(** ** The error classifier *)

(** the second test of [checkForErrors] never decides: its marker is one of
    [errorPatterns] *)
Lemma checkForErrors_is_marker_search (out err : string) :
  checkForErrors out err
  = existsb (fun pat => Js.includes out pat || Js.includes err pat) errorPatterns.
Proof.
  unfold checkForErrors.
  destruct (existsb _ errorPatterns) eqn:E; [reflexivity|].
  destruct (Js.includes out "app crashed") eqn:Ecr; [|reflexivity].
  exfalso. apply Bool.not_true_iff_false in E. apply E.
  apply existsb_exists. exists "app crashed". split.
  - unfold errorPatterns. simpl. tauto.
  - now rewrite Ecr.
Qed.

(** C3. On stderr ["Error: Cannot find module 'x'"] the classifier
    reports an error; on stdout ["app crashed but waiting for file changes"]
    it reports an error as well, where the specification asks for false. *)
Theorem checkForErrors_on_spec_inputs :
  checkForErrors "" "Error: Cannot find module 'x'" = true
  /\ checkForErrors "app crashed but waiting for file changes" "" = true.
Proof. split; reflexivity. Qed.

(** ** Process sessions *)

Section Sessions.

Implicit Types (svc : CommandService) (c : Closure) (p : Z).

Lemma cleanup_purges p svc :
  runningProcesses (cleanup p svc) !! p = None
  /\ processStates (cleanup p svc) !! p = None.
Proof. unfold cleanup; simpl. split; apply lookup_delete_eq. Qed.

(** the exit listener of [sendInput] always purges the session *)
Lemma send_on_exit_purges (state : ProcessState) (proc : ChildProcess)
    (exit_code : option Z) svc c :
  processStates (fst (send_on_exit state proc exit_code (svc, c))) !! cl_pid c = None
  /\ runningProcesses (fst (send_on_exit state proc exit_code (svc, c))) !! cl_pid c = None.
Proof.
  unfold send_on_exit, send_completeWithSuccess, send_completeWithError.
  destruct (negb (checkForErrors _ _) && code_is_0 exit_code);
    destruct (isCompleted c); simpl; split; apply lookup_delete_eq.
Qed.

(** a failing exit seen by the listener of [executeCommand] purges it too *)
Lemma exec_on_exit_failure_purges (cmd : string) (exit_code : option Z) svc c :
  isCompleted c = false ->
  code_is_0 exit_code = false ->
  processStates (fst (exec_on_exit cmd exit_code (svc, c))) !! cl_pid c = None.
Proof.
  intros Hc Hcode. unfold exec_on_exit.
  destruct (processStates svc !! cl_pid c) as [state|] eqn:E; [|exact E].
  rewrite Hcode, andb_false_r, Hc. simpl. rewrite Hc. simpl.
  apply lookup_delete_eq.
Qed.

End Sessions.

(** C4. The session of a process that printed a prompt and then exited
    with code 0 stays in the state table with [isRunning] false, and
    [sendInput] for its pid is not rejected: the listeners are replaced and
    the text is written. *)
Theorem sendInput_accepts_exited_session :
  exists (state : ProcessState) (proc : ChildProcess) (r : CommandExecutionResult),
    session prompted_then_exited 4242 = Some state
    /\ isRunning state = false
    /\ process state = Some proc
    /\ promise prompted_then_exited 0 = Some (Returned r)
    /\ requiresInput r = Some true
    /\ snd (fst (sendInput {| in_pid := 4242; stdin := "Alice" |} prompted_then_exited))
       = Returned 1%nat
    /\ snd (sendInput {| in_pid := 4242; stdin := "Alice" |} prompted_then_exited)
       = Some ("Alice" +:+ nl).
Proof.
  do 3 eexists. repeat split; vm_compute; reflexivity.
Qed.

(** C10. [stopProcess] for a pid that is not in the running-process
    table returns without sending a signal and leaves the service as it is;
    when [process.kill] throws for a tracked pid, [stopProcess] throws and
    the service, hence both tables, is as before. *)
Theorem stopProcess_untracked_or_kill_fails
    (kill : Z -> KillOutcome) (p : Z) (svc : CommandService) :
  (runningProcesses svc !! p = None ->
   stopProcess kill p svc = (svc, Returned tt, []))
  /\ (forall e, is_Some (runningProcesses svc !! p) ->
        kill (- p) = KillThrows e ->
        stopProcess kill p svc
        = (svc,
           Threw ("Failed to stop process " +:+ pretty p +:+ ": " +:+ error_message e),
           [- p])).
Proof.
  unfold stopProcess. split.
  - intros ->. reflexivity.
  - intros e [info ->] ->. reflexivity.
Qed.

Lemma stopProcess_untracked_or_kill_fails_example :
  stopProcess kill_denied 7 tracked_service = (tracked_service, Returned tt, [])
  /\ stopProcess kill_denied 4242 tracked_service
     = (tracked_service, Threw "Failed to stop process 4242: kill EPERM", [-4242])
  /\ is_Some (runningProcesses tracked_service !! 4242)
  /\ is_Some (processStates tracked_service !! 4242).
Proof.
  destruct (stopProcess_untracked_or_kill_fails kill_denied 7 tracked_service) as [Habsent _].
  destruct (stopProcess_untracked_or_kill_fails kill_denied 4242 tracked_service) as [_ Hfail].
  split; [|split; [|split]].
  - apply Habsent. vm_compute. reflexivity.
  - apply (Hfail (Some "kill EPERM")); [|reflexivity]. vm_compute. eauto.
  - vm_compute. eauto.
  - vm_compute. eauto.
Defined.

(** ** Sorting by a comparator *)

Section Sorting.

Context {A : Type} (cmp : A -> A -> Z).

Hypothesis cmp_total : forall a b, cmp a b <= 0 \/ cmp b a <= 0.
Hypothesis cmp_trans : forall a b c, cmp a b <= 0 -> cmp b c <= 0 -> cmp a c <= 0.

Lemma sort_insert_perm x l : Permutation (sort_insert cmp x l) (x :: l).
Proof.
  induction l as [|y l IH]; simpl; [reflexivity|].
  destruct (Z.leb (cmp x y) 0); [reflexivity|].
  rewrite IH. apply perm_swap.
Qed.

Lemma sort_by_perm l : Permutation (sort_by cmp l) l.
Proof.
  induction l as [|x l IH]; simpl; [reflexivity|].
  rewrite sort_insert_perm. now constructor.
Qed.

Lemma sort_insert_sorted x l :
  StronglySorted (fun a b => cmp a b <= 0) l -> StronglySorted (fun a b => cmp a b <= 0) (sort_insert cmp x l).
Proof.
  induction l as [|y l IH]; intros Hs; simpl.
  - constructor; constructor.
  - apply StronglySorted_inv in Hs as [Hl Hy].
    destruct (Z.leb_spec (cmp x y) 0) as [Hxy|Hxy].
    + constructor; [constructor; assumption|].
      constructor; [assumption|].
      eapply Forall_impl; [exact Hy|]. intros z Hz. simpl in *. eauto.
    + constructor; [now apply IH|].
      rewrite sort_insert_perm. constructor; [|assumption].
      destruct (cmp_total y x); [assumption | lia].
Qed.

Lemma sort_by_sorted l : StronglySorted (fun a b => cmp a b <= 0) (sort_by cmp l).
Proof.
  induction l as [|x l IH]; simpl; [constructor | now apply sort_insert_sorted].
Qed.

Lemma sorted_perm_unique l1 l2 :
  StronglySorted (fun a b => cmp a b <= 0) l1 -> StronglySorted (fun a b => cmp a b <= 0) l2 ->
  Permutation l1 l2 ->
  (forall a b, In a l1 -> In b l1 -> cmp a b <= 0 -> cmp b a <= 0 -> a = b) ->
  l1 = l2.
Proof.
  revert l2. induction l1 as [|a l1 IH]; intros l2 Hs1 Hs2 Hp Hanti.
  - apply Permutation_nil in Hp. now subst.
  - destruct l2 as [|b l2].
    { apply Permutation_sym, Permutation_nil in Hp. discriminate. }
    apply StronglySorted_inv in Hs1 as [Hs1 Ha].
    apply StronglySorted_inv in Hs2 as [Hs2 Hb].
    assert (Hab : a = b).
    { assert (Hina : In a (b :: l2)) by (eapply Permutation_in; [exact Hp | now left]).
      assert (Hinb : In b (a :: l1))
        by (eapply Permutation_in; [symmetry; exact Hp | now left]).
      destruct Hina as [-> | Hina]; [reflexivity|].
      destruct Hinb as [<- | Hinb]; [reflexivity|].
      rewrite List.Forall_forall in Ha, Hb.
      apply Hanti; [now left | now right | now apply Ha | now apply Hb]. }
    subst b. f_equal. apply Permutation_cons_inv in Hp.
    apply IH; try assumption.
    intros x y Hx Hy. apply Hanti; now right.
Qed.

Lemma sort_by_of_perm l l' :
  Permutation l l' ->
  (forall a b, In a l -> In b l -> cmp a b <= 0 -> cmp b a <= 0 -> a = b) ->
  sort_by cmp l = sort_by cmp l'.
Proof.
  intros Hp Hanti. apply sorted_perm_unique; try apply sort_by_sorted.
  - now rewrite !sort_by_perm.
  - intros a b Ha Hb. apply Hanti; (eapply Permutation_in; [apply sort_by_perm|]); assumption.
Qed.

End Sorting.

Lemma compare_code_units_le (a b : string) :
  compare_code_units a b <= 0 <-> String.leb a b = true.
Proof.
  unfold compare_code_units, String.leb.
  destruct (String.compare a b); split; intros H; try reflexivity; try lia; discriminate.
Qed.

Lemma compare_code_units_total_order : total_order compare_code_units.
Proof.
  repeat split.
  - intros a b. rewrite !compare_code_units_le. apply String.leb_total.
  - intros a b c. rewrite !compare_code_units_le. intros Hab Hbc.
    apply Is_true_true. apply Is_true_true in Hab, Hbc.
    exact (transitivity (R := String.le) Hab Hbc).
  - intros a b. rewrite !compare_code_units_le. apply String.leb_antisym.
Qed.

Lemma sort_default_of_perm (l l' : list string) :
  Permutation l l' -> sort_default l = sort_default l'.
Proof.
  intros Hp. destruct compare_code_units_total_order as (Ht & Htr & Ha).
  unfold sort_default. apply sort_by_of_perm; auto.
Qed.

(** ** The MCP registry *)

Section RegistryProperties.

Variable localeCompare : string -> string -> Z.

Implicit Types (st : Registry) (servers : list McpServerConfig) (w : World).


Lemma nodup_key {X K} (key : X -> K) (l : list X) (a b : X) :
  List.NoDup (List.map key l) -> In a l -> In b l -> key a = key b -> a = b.
Proof.
  induction l as [|x l IH]; simpl; [contradiction|].
  intros Hnd Ha Hb Hk. apply List.NoDup_cons_iff in Hnd as [Hx Hnd].
  destruct Ha as [-> | Ha], Hb as [-> | Hb]; auto.
  - exfalso. apply Hx. rewrite Hk. now apply in_map.
  - exfalso. apply Hx. rewrite <- Hk. now apply in_map.
Qed.

Lemma every_from_same (pre xs : list string) :
  Js.every_from (fun n i => Js.strict_eq_opt n (nth_error (pre ++ xs) i)) (length pre) xs
  = true.
Proof.
  revert pre. induction xs as [|x xs IH]; intros pre; simpl; [reflexivity|].
  rewrite nth_error_app2, Nat.sub_diag by lia. simpl. rewrite String.eqb_refl. simpl.
  specialize (IH (pre ++ [x])).
  rewrite <- app_assoc, length_app in IH. simpl in IH.
  now rewrite Nat.add_1_r in IH.
Qed.

Lemma sameNames_refl (l : list string) : sameNames l l = true.
Proof.
  unfold sameNames, Js.every. rewrite Nat.eqb_refl. simpl.
  exact (every_from_same [] l).
Qed.

Lemma all_returned_map {X Y} (f : X -> result Y) (l : list X) :
  (forall x, In x l -> exists y, f x = Returned y) ->
  exists ys, Json.all_returned (List.map f l) = Returned ys.
Proof.
  induction l as [|x l IH]; intros H; simpl; [eauto|].
  destruct (H x (or_introl eq_refl)) as [y ->].
  destruct IH as [ys ->]; [intros; apply H; now right|]. eauto.
Qed.

Lemma essentialConfig_of_valid (s : McpServerConfig) :
  entry_valid s = true -> exists j, essentialConfig s = Returned j.
Proof.
  unfold entry_valid, essentialConfig.
  destruct (mcp_command s), (mcp_args s); try discriminate; eauto.
Qed.

Lemma generateConfigHash_of_valid servers :
  Forall (fun s => entry_valid s = true) servers ->
  exists h, generateConfigHash localeCompare servers = Returned h.
Proof.
  intros Hv. unfold generateConfigHash.
  destruct servers as [|s0 rest]; [eauto|].
  destruct (all_returned_map essentialConfig
              (sort_by (fun a b => localeCompare (name a) (name b)) (s0 :: rest)))
    as [js Hjs].
  - intros x Hx. apply essentialConfig_of_valid.
    rewrite List.Forall_forall in Hv. apply Hv.
    eapply Permutation_in; [apply sort_by_perm | exact Hx].
  - rewrite Hjs. eauto.
Qed.

Lemma own_set_values key (v : McpServerConfig) acc kv :
  In kv (own_set key v acc) -> snd kv = v \/ In kv acc.
Proof.
  induction acc as [|[k v0] acc IH]; simpl.
  - intros [<- | []]. now left.
  - destruct (String.eqb k key); simpl.
    + intros [<- | H]; [now left | right; now right].
    + intros [<- | H]; [right; now left|].
      destruct (IH H) as [? | ?]; [now left | right; now right].
Qed.

Lemma record_set_values key (v : McpServerConfig) acc kv :
  In kv (own_entries (record_set key v acc)) -> snd kv = v \/ In kv (own_entries acc).
Proof.
  unfold record_set. destruct (String.eqb key "__proto__"); simpl; [now right|].
  apply own_set_values.
Qed.

Lemma configData_values servers kv :
  In kv (own_entries (configData servers)) -> In (snd kv) servers.
Proof.
  unfold configData.
  assert (G : forall acc,
             In kv (own_entries
                      (fold_left (fun acc server => record_set (name server) server acc)
                         servers acc)) ->
             In kv (own_entries acc) \/ In (snd kv) servers).
  { induction servers as [|s servers IH]; intros acc; simpl; [now left|].
    intros H. destruct (IH _ H) as [H1 | H1]; [|right; now right].
    destruct (record_set_values _ _ _ _ H1) as [-> | H2]; [right; now left | now left]. }
  intros H. destruct (G _ H) as [[] | ?]. assumption.
Qed.

(** without a server named [__proto__] the object keeps the prototype of
    [{}] and every server writes a property *)
Lemma configData_plain servers :
  Forall (fun s => name s <> "__proto__") servers ->
  configData servers
  = {| own_entries :=
         fold_left (fun acc server => own_set (name server) server acc) servers [];
       inherited := None |}.
Proof.
  unfold configData.
  assert (G : forall own,
             Forall (fun s => name s <> "__proto__") servers ->
             fold_left (fun acc server => record_set (name server) server acc) servers
               {| own_entries := own; inherited := None |}
             = {| own_entries :=
                    fold_left (fun acc server => own_set (name server) server acc) servers own;
                  inherited := None |}).
  { induction servers as [|s servers IH]; intros own Hp; simpl; [reflexivity|].
    apply Forall_cons_iff in Hp as [Hs Hp]. unfold record_set at 2.
    apply String.eqb_neq in Hs. rewrite Hs. simpl. now apply IH. }
  apply G.
Qed.

Lemma safeParse_of_valid servers :
  Forall (fun s => entry_valid s = true) servers ->
  Forall (fun s => name s <> "__proto__") servers ->
  configSchema_safeParse servers = true.
Proof.
  intros Hv Hp. unfold configSchema_safeParse. cbv zeta.
  apply andb_true_iff. split.
  - apply forallb_forall.
    intros kv Hkv. rewrite List.Forall_forall in Hv. apply Hv.
    now apply configData_values.
  - now rewrite (configData_plain _ Hp).
Qed.




Lemma updateConfigCache_cache servers st st' :
  updateConfigCache localeCompare servers st = Returned st' ->
  clients st' = clients st
  /\ exists h, generateConfigHash localeCompare servers = Returned h
               /\ cache_of st' = (Some h, length servers, sort_default (List.map name servers)).
Proof.
  unfold updateConfigCache.
  destruct (generateConfigHash localeCompare servers) as [h|m]; [|discriminate].
  intros [= <-]. split; [reflexivity|]. exists h. split; reflexivity.
Qed.

Lemma hasConfigChanged_of_cache servers st h :
  generateConfigHash localeCompare servers = Returned h ->
  cache_of st = (Some h, length servers, sort_default (List.map name servers)) ->
  hasConfigChanged localeCompare st servers = Returned false.
Proof.
  intros Hh Hc. unfold cache_of in Hc. injection Hc as Hhash Hlen Hnames.
  unfold hasConfigChanged.
  rewrite Hlen, Nat.eqb_refl. simpl.
  destruct (Nat.eqb (length servers) 0); simpl; [reflexivity|].
  rewrite Hnames, sameNames_refl. simpl.
  rewrite Hh, Hhash. simpl. now rewrite String.eqb_refl.
Qed.


Lemma activate_of_valid w servers st :
  Forall (fun s => entry_valid s = true) servers ->
  configSchema_safeParse servers = true ->
  exists st' effects,
    activate localeCompare w servers st = (st', Returned tt, effects)
    /\ exists h, generateConfigHash localeCompare servers = Returned h
                 /\ cache_of st' = (Some h, length servers, sort_default (List.map name servers)).
Proof.
  intros Hv Hparse. destruct (generateConfigHash_of_valid servers Hv) as [h Hh].
  unfold activate, updateConfigCache. rewrite Hh.
  destruct servers as [|s0 rest].
  - do 2 eexists. split; [reflexivity|]. exists h. split; reflexivity.
  - rewrite Hparse. simpl.
    do 2 eexists. split; [reflexivity|]. exists h. split; reflexivity.
Qed.

Lemma hasConfigChanged_of_valid servers st :
  Forall (fun s => entry_valid s = true) servers ->
  exists b, hasConfigChanged localeCompare st servers = Returned b.
Proof.
  intros Hv. destruct (generateConfigHash_of_valid servers Hv) as [h Hh].
  unfold hasConfigChanged. rewrite Hh.
  repeat (match goal with |- context [if ?c then _ else _] => destruct c end); eauto.
Qed.

(** with well-formed entries that pass validation the call returns,
    whatever cleanup or launch fails, and the cache then matches the
    configuration *)
Lemma initMcpFromAgentConfig_of_valid w servers st :
  Forall (fun s => entry_valid s = true) servers ->
  configSchema_safeParse servers = true ->
  exists st' effects,
    initMcpFromAgentConfig localeCompare w servers st = (st', Returned tt, effects)
    /\ hasConfigChanged localeCompare st' servers = Returned false.
Proof.
  intros Hv Hparse. unfold initMcpFromAgentConfig.
  destruct (hasConfigChanged_of_valid servers st Hv) as [[|] Hb]; rewrite Hb.
  - destruct (activate_of_valid w servers st Hv Hparse) as (st' & effects & -> & h & Hh & Hc).
    do 2 eexists. split; [reflexivity|]. eapply hasConfigChanged_of_cache; eassumption.
  - do 2 eexists. split; [reflexivity | assumption].
Qed.

Lemma initMcpFromAgentConfig_returned w servers st st' effects :
  initMcpFromAgentConfig localeCompare w servers st = (st', Returned tt, effects) ->
  hasConfigChanged localeCompare st' servers = Returned false.
Proof.
  unfold initMcpFromAgentConfig.
  destruct (hasConfigChanged localeCompare st servers) as [[|]|m] eqn:Hch.
  - destruct (activate localeCompare w servers st) as [[st1 [u|m]] eff] eqn:Hact; [|discriminate].
    intros [= <- _].
    unfold activate in Hact.
    destruct servers as [|s0 rest].
    + destruct (updateConfigCache localeCompare [] (set_clients [] st)) as [st2|] eqn:Hu; [|discriminate].
      injection Hact as <- _ _.
      apply updateConfigCache_cache in Hu as (_ & h & Hh & Hc).
      eapply hasConfigChanged_of_cache; eassumption.
    + destruct (negb (configSchema_safeParse (s0 :: rest))); [discriminate|].
      destruct (updateConfigCache localeCompare (s0 :: rest) _) as [st3|] eqn:Hu; [|discriminate].
      injection Hact as <- _ _.
      apply updateConfigCache_cache in Hu as (_ & h & Hh & Hc).
      eapply hasConfigChanged_of_cache; eassumption.
  - intros [= <- _]. assumption.
  - discriminate.
Qed.

Section Collation.

Hypothesis collation : collates localeCompare.

Lemma generateConfigHash_of_perm servers servers' :
  List.NoDup (List.map name servers) ->
  distinguishes localeCompare (List.map name servers) ->
  Permutation servers servers' ->
  generateConfigHash localeCompare servers = generateConfigHash localeCompare servers'.
Proof.
  intros Hnd Hdist Hp. destruct collation as (Htot & Htr).
  unfold generateConfigHash.
  destruct servers as [|s0 rest].
  { apply Permutation_nil in Hp. now subst. }
  destruct servers' as [|s0' rest'].
  { apply Permutation_sym, Permutation_nil in Hp. discriminate. }
  rewrite (sort_by_of_perm (fun a b => localeCompare (name a) (name b))
             (fun a b => Htot (name a) (name b))
             (fun a b c => Htr (name a) (name b) (name c))
             (s0 :: rest) (s0' :: rest') Hp); [reflexivity|].
  intros a b Ha Hb Hab Hba.
  assert (Hname : name a = name b)
    by (apply Hdist; [now apply in_map | now apply in_map | assumption | assumption]).
  eapply nodup_key; eassumption.
Qed.

End Collation.

End RegistryProperties.

Section RegistryClaims.

Variable localeCompare : string -> string -> Z.
Variable looseEqualsString : list obj -> val -> string -> bool.

Implicit Types (st : Registry) (servers : list McpServerConfig) (w : World).

Lemma hasConfigChanged_of_perm st servers servers' :
  collates localeCompare ->
  List.NoDup (List.map name servers) ->
  distinguishes localeCompare (List.map name servers) ->
  Permutation servers servers' ->
  hasConfigChanged localeCompare st servers' = hasConfigChanged localeCompare st servers.
Proof.
  intros Hc Hnd Hdist Hp. unfold hasConfigChanged.
  rewrite <- (Permutation_length Hp).
  rewrite <- (sort_default_of_perm _ _ (Permutation_map name Hp)).
  now rewrite <- (generateConfigHash_of_perm localeCompare Hc _ _ Hnd Hdist Hp).
Qed.

(** Where the collation tells the names of a configuration apart, the
    order of its entries does not matter: after a call of
    [initMcpFromAgentConfig] that returned, a call with the same entries in
    any order finds no change and returns at once. *)
Lemma reordering_is_noop_for_distinguished_names
    (w1 w2 : World) servers servers' st st1 (effects : list McpEffect) :
  collates localeCompare ->
  List.NoDup (List.map name servers) ->
  distinguishes localeCompare (List.map name servers) ->
  Permutation servers servers' ->
  initMcpFromAgentConfig localeCompare w1 servers st = (st1, Returned tt, effects) ->
  hasConfigChanged localeCompare st1 servers' = Returned false
  /\ initMcpFromAgentConfig localeCompare w2 servers' st1 = (st1, Returned tt, []).
Proof.
  intros Hc Hnd Hdist Hp Hfirst.
  assert (Hsame : hasConfigChanged localeCompare st1 servers' = Returned false).
  { rewrite (hasConfigChanged_of_perm st1 servers servers' Hc Hnd Hdist Hp).
    eapply initMcpFromAgentConfig_returned. exact Hfirst. }
  split; [exact Hsame|].
  unfold initMcpFromAgentConfig. now rewrite Hsame.
Qed.

(** C6. When two names compare equal under [localeCompare], the order of
    the entries matters, where the specification asks that it does not: the
    sort by name keeps the order in which the entries were passed, and so
    does the hash.  For the servers named [a] and [a] followed by U+0001,
    after the call with one order has returned, the call with the other
    order finds a change and activates again: every connection held is
    cleaned up and both servers are launched a second time. *)
Theorem collation_tie_reactivates (w1 w2 : World) :
  localeCompare "a" name_a_soh = 0 ->
  localeCompare name_a_soh "a" = 0 ->
  let first := initMcpFromAgentConfig localeCompare w1 [server_a; server_a_soh] initial_registry in
  let st1 := fst (fst first) in
  let second := initMcpFromAgentConfig localeCompare w2 [server_a_soh; server_a] st1 in
  snd (fst first) = Returned tt
  /\ hasConfigChanged localeCompare st1 [server_a_soh; server_a] = Returned true
  /\ snd (fst second) = Returned tt
  /\ snd second
     = List.map (fun nc => CleanedUp (snd nc) (cleanup_ok w2 (snd nc))) (clients st1)
       ++ [ Launched name_a_soh (bool_decide (is_Some (fromCommand w2 server_a_soh)));
            Launched "a" (bool_decide (is_Some (fromCommand w2 server_a))) ].
Proof.
  intros Hab Hba first st1 second.
  assert (Hfirst : first
    = ({| clients := launch_all w1 [server_a; server_a_soh];
          lastMcpServerConfigHash :=
            Some (Json.text (JArr [ JObj [("name", JStr "a"); ("command", JStr "uvx");
                                          ("args", JArr [JStr "server-a"])];
                                    JObj [("name", JStr name_a_soh); ("command", JStr "uvx");
                                          ("args", JArr [JStr "server-b"])] ]));
          lastMcpServerLength := 2;
          lastMcpServerNames := sort_default ["a"; name_a_soh] |},
       Returned tt,
       [ Launched "a" (bool_decide (is_Some (fromCommand w1 server_a)));
         Launched name_a_soh (bool_decide (is_Some (fromCommand w1 server_a_soh))) ])).
  { subst first. unfold initMcpFromAgentConfig, hasConfigChanged. cbn [length initial_registry
      lastMcpServerLength Nat.eqb negb].
    unfold activate, updateConfigCache, generateConfigHash.
    cbn [sort_by sort_insert name server_a server_a_soh]. rewrite Hab. reflexivity. }
  assert (Hchanged : hasConfigChanged localeCompare st1 [server_a_soh; server_a] = Returned true).
  { subst st1. rewrite Hfirst. unfold hasConfigChanged, generateConfigHash.
    cbn [sort_by sort_insert name server_a server_a_soh]. rewrite Hba. reflexivity. }
  split; [subst st1; now rewrite Hfirst|]. split; [exact Hchanged|].
  subst second. unfold initMcpFromAgentConfig. rewrite Hchanged.
  unfold activate, updateConfigCache, generateConfigHash.
  cbn [sort_by sort_insert name server_a server_a_soh]. rewrite Hba.
  split; reflexivity.
Qed.



End RegistryClaims.

(** ** Deep copies in the heap *)

Section DeepCopy.

Implicit Types (h H : list obj) (v : val) (j : json) (f : nat).

Lemma lookup_map {X Y} (g : X -> Y) (l : list X) (i : nat) :
  List.map g l !! i = option_map g (l !! i).
Proof.
  revert i. induction l as [|x l IH]; intros [|i]; simpl; auto.
Qed.

Lemma all_returned_ext {X Y} (g g' : X -> result Y) (l : list X) (ys : list Y) :
  (forall x y, In x l -> g x = Returned y -> g' x = Returned y) ->
  Json.all_returned (List.map g l) = Returned ys ->
  Json.all_returned (List.map g' l) = Returned ys.
Proof.
  revert ys. induction l as [|x l IH]; intros ys Hext; simpl; [auto|].
  destruct (g x) as [y|m] eqn:Hx; [|discriminate].
  destruct (Json.all_returned (List.map g l)) as [ys'|m] eqn:Hl; [|discriminate].
  intros [= <-]. rewrite (Hext x y (or_introl eq_refl) Hx).
  rewrite (IH ys'); auto. intros x' y' Hin. apply Hext. now right.
Qed.

Lemma all_returned_pointwise {X Y} (g : X -> result Y) (l : list X) (ys : list Y) :
  length l = length ys ->
  (forall i x y, l !! i = Some x -> ys !! i = Some y -> g x = Returned y) ->
  Json.all_returned (List.map g l) = Returned ys.
Proof.
  revert ys. induction l as [|x l IH]; intros [|y ys] Hlen Hall; try discriminate; simpl.
  - reflexivity.
  - rewrite (Hall 0%nat x y eq_refl eq_refl). rewrite (IH ys); [reflexivity | |].
    + simpl in Hlen. lia.
    + intros i x' y' Hx Hy. exact (Hall (S i) x' y' Hx Hy).
Qed.

Lemma of_val_fuel f f' h v x :
  Json.of_val f h v = Returned x -> (f <= f')%nat -> Json.of_val f' h v = Returned x.
Proof.
  revert f' v x. induction f as [|f IH]; intros f' v x Hv Hle.
  - destruct v; simpl in *; try discriminate; destruct f'; exact Hv.
  - destruct f' as [|f']; [lia|].
    destruct v; simpl in *; try exact Hv.
    destruct (h !! l) as [[fields|elems]|]; [| |discriminate].
    + destruct (Json.all_returned (List.map (fun kv => Json.of_val f h kv.2) fields))
        as [js|m] eqn:Hjs; [|discriminate].
      rewrite (all_returned_ext _ (fun kv => Json.of_val f' h kv.2) _ _
                 (fun kv y _ Hy => IH f' _ _ Hy ltac:(lia)) Hjs).
      exact Hv.
    + destruct (Json.all_returned (List.map (Json.of_val f h) elems)) as [js|m] eqn:Hjs;
        [|discriminate].
      rewrite (all_returned_ext _ (Json.of_val f' h) _ _
                 (fun e y _ Hy => IH f' _ _ Hy ltac:(lia)) Hjs).
      exact Hv.
Qed.

(** the JSON of a value depends on the objects it reaches only *)
Lemma of_val_frame a b h H :
  closed_in a b h -> agree_on a b h H ->
  forall f v, val_in a b v -> Json.of_val f H v = Json.of_val f h v.
Proof.
  intros Hcl Hag. induction f as [|f IH]; intros v Hv; destruct v; simpl; try reflexivity.
  simpl in Hv. rewrite (Hag l Hv).
  destruct (h !! l) as [o|] eqn:Hl; [|reflexivity].
  pose proof (Hcl l o Hv Hl) as Hvals. rewrite List.Forall_forall in Hvals.
  destruct o as [fields|elems]; simpl in Hvals.
  - rewrite (map_ext_in (fun kv => Json.of_val f H kv.2) (fun kv => Json.of_val f h kv.2));
      [reflexivity|].
    intros kv Hin. apply IH, Hvals. now apply in_map.
  - rewrite (map_ext_in (Json.of_val f H) (Json.of_val f h)); [reflexivity|].
    intros e Hin. now apply IH, Hvals.
Qed.

Lemma val_in_mono a b a' b' v :
  (a' <= a)%nat -> (b <= b')%nat -> val_in a b v -> val_in a' b' v.
Proof. destruct v; simpl; auto. lia. Qed.

Lemma closed_in_join a b c h1 hk :
  (a <= b)%nat -> (b <= c)%nat ->
  h1 `prefix_of` hk -> length h1 = b ->
  closed_in a b h1 -> closed_in b c hk -> closed_in a c hk.
Proof.
  intros Hab Hbc Hpre Hlen H1 H2 l o Hl Ho.
  destruct (Nat.lt_ge_cases l b) as [Hlt|Hge].
  - assert (h1 !! l = Some o) as Ho1.
    { rewrite (prefix_lookup_lt h1 hk l); [assumption | lia | assumption]. }
    eapply Forall_impl; [exact (H1 l o ltac:(lia) Ho1)|].
    intros v. apply val_in_mono; lia.
  - eapply Forall_impl; [exact (H2 l o ltac:(lia) Ho)|].
    intros v. apply val_in_mono; lia.
Qed.


Lemma json_induction (P : json -> Prop) :
  P JNull -> (forall b, P (JBool b)) -> (forall z, P (JNum z)) -> (forall s, P (JStr s)) ->
  (forall elems, Forall P elems -> P (JArr elems)) ->
  (forall fields, Forall (fun kv => P (snd kv)) fields -> P (JObj fields)) ->
  forall j, P j.
Proof.
  intros Hnull Hbool Hnum Hstr Harr Hobj. fix IH 1.
  intros [ | b | z | s | elems | fields].
  - exact Hnull.
  - apply Hbool.
  - apply Hnum.
  - apply Hstr.
  - apply Harr. induction elems as [|e elems IHe]; constructor; [apply IH | exact IHe].
  - apply Hobj. induction fields as [|[k e] fields IHf]; constructor; [apply IH | exact IHf].
Qed.

Lemma parse_seq_cons (p : json -> list obj -> list obj * val) j js h :
  Json.parse_seq p (j :: js) h
  = let '(h1, v) := p j h in
    let '(h2, vs) := Json.parse_seq p js h1 in (h2, v :: vs).
Proof. reflexivity. Qed.

Lemma parse_fields_seq (p : json -> list obj -> list obj * val) fields h :
  Json.parse_fields p fields h
  = let '(h', vs) := Json.parse_seq p (List.map snd fields) h in
    (h', combine (List.map fst fields) vs).
Proof.
  revert h. induction fields as [|[k j] fields IH]; intros h; [reflexivity|].
  simpl. destruct (p j h) as [h1 v]. rewrite IH.
  destruct (Json.parse_seq p (List.map snd fields) h1) as [h2 vs]. reflexivity.
Qed.

Lemma parse_seq_ok js :
  Forall parse_ok js ->
  forall h hk vs,
    Json.parse_seq Json.parse js h = (hk, vs) ->
    h `prefix_of` hk
    /\ length vs = length js
    /\ Forall (val_in (length h) (length hk)) vs
    /\ closed_in (length h) (length hk) hk
    /\ forall H f i vt jt,
         agree_on (length h) (length hk) hk H ->
         (length hk - length h <= f)%nat ->
         vs !! i = Some vt -> js !! i = Some jt ->
         Json.of_val f H vt = Returned (Some jt).
Proof.
  induction 1 as [|j js Hj Hjs IH]; intros h hk vs Hp.
  - injection Hp as <- <-. repeat split; auto.
    + intros l o Hl. lia.
    + intros H f i vt jt _ _ Hv. discriminate Hv.
  - rewrite parse_seq_cons in Hp.
    destruct (Json.parse j h) as [h1 v] eqn:Hp1.
    destruct (Json.parse_seq Json.parse js h1) as [h2 vs'] eqn:Hp2.
    injection Hp as <- <-.
    destruct (Hj _ _ _ Hp1) as (Hpre1 & Hv1 & Hcl1 & Hread1).
    destruct (IH _ _ _ Hp2) as (Hpre2 & Hlen2 & Hv2 & Hcl2 & Hread2).
    pose proof (prefix_length _ _ Hpre1) as Hl1.
    pose proof (prefix_length _ _ Hpre2) as Hl2.
    repeat split.
    + now transitivity h1.
    + simpl. lia.
    + constructor.
      * eapply val_in_mono; [| |exact Hv1]; lia.
      * eapply Forall_impl; [exact Hv2|]. intros x. apply val_in_mono; lia.
    + eapply closed_in_join; [| | exact Hpre2 | reflexivity | exact Hcl1 | exact Hcl2]; lia.
    + intros H f [|i] vt jt Hag Hf Hvt Hjt; simpl in Hvt, Hjt.
      * injection Hvt as <-. injection Hjt as <-.
        rewrite (of_val_frame (length h) (length h1) h1 H Hcl1); [apply Hread1; lia | | exact Hv1].
        intros l Hl. rewrite (Hag l ltac:(lia)).
        symmetry. apply prefix_lookup_lt; [lia | exact Hpre2].
      * apply (Hread2 H f i); auto; [|lia].
        intros l Hl. apply Hag. lia.
Qed.

Lemma parse_is_ok j : parse_ok j.
Proof.
  induction j as [ | b | z | s | elems IH | fields IH] using json_induction;
    intros h h' v Hp; simpl in Hp.
  1-4: injection Hp as <- <-; repeat split; auto;
       try (intros l o Hl; lia); try (intros f _; destruct f; reflexivity).
  - destruct (Json.parse_seq Json.parse elems h) as [hk vs] eqn:Hs.
    injection Hp as <- <-.
    destruct (parse_seq_ok elems IH _ _ _ Hs) as (Hpre & Hlen & Hvs & Hcl & Hread).
    pose proof (prefix_length _ _ Hpre) as Hl.
    rewrite length_app. simpl. split; [|split; [|split]].
    + now apply prefix_app_r.
    + lia.
    + intros l o Hlo Ho.
      destruct (Nat.lt_ge_cases l (length hk)) as [Hlt|Hge].
      * rewrite lookup_app_l in Ho by assumption.
        eapply Forall_impl; [exact (Hcl l o ltac:(lia) Ho)|].
        intros x. apply val_in_mono; lia.
      * assert (l = length hk) as -> by lia.
        rewrite lookup_app_r, Nat.sub_diag in Ho by lia. injection Ho as <-. simpl.
        eapply Forall_impl; [exact Hvs|]. intros x. apply val_in_mono; lia.
    + intros [|f] Hf; [lia|]. simpl.
      rewrite lookup_app_r, Nat.sub_diag by lia. simpl.
      rewrite (all_returned_pointwise _ vs (List.map Some elems)).
      * rewrite List.map_map. simpl. now rewrite List.map_id.
      * rewrite length_map. exact Hlen.
      * intros i x y Hx Hy. rewrite lookup_map in Hy.
        destruct (elems !! i) as [jt|] eqn:Hjt; [|discriminate]. injection Hy as <-.
        apply (Hread (hk ++ [OArr vs]) f i x jt); auto; [|lia].
        intros l Hlo. apply lookup_app_l. lia.
  - rewrite parse_fields_seq in Hp.
    destruct (Json.parse_seq Json.parse (List.map snd fields) h) as [hk vs] eqn:Hs.
    injection Hp as <- <-.
    assert (IH' : Forall parse_ok (List.map snd fields)).
    { apply List.Forall_map. exact IH. }
    destruct (parse_seq_ok _ IH' _ _ _ Hs) as (Hpre & Hlen & Hvs & Hcl & Hread).
    rewrite length_map in Hlen.
    pose proof (prefix_length _ _ Hpre) as Hl.
    assert (Hsnd : List.map snd (combine (List.map fst fields) vs) = vs).
    { clear -Hlen. revert vs Hlen. induction fields as [|[k e] fields IHf];
        intros [|x vs] Hlen; simpl in *; try discriminate; try reflexivity.
      f_equal. apply IHf. lia. }
    assert (Hfst : List.map fst (combine (List.map fst fields) vs) = List.map fst fields).
    { clear -Hlen. revert vs Hlen. induction fields as [|[k e] fields IHf];
        intros [|x vs] Hlen; simpl in *; try discriminate; try reflexivity.
      f_equal. apply IHf. lia. }
    rewrite length_app. simpl. split; [|split; [|split]].
    + now apply prefix_app_r.
    + lia.
    + intros l o Hlo Ho.
      destruct (Nat.lt_ge_cases l (length hk)) as [Hlt|Hge].
      * rewrite lookup_app_l in Ho by assumption.
        eapply Forall_impl; [exact (Hcl l o ltac:(lia) Ho)|].
        intros x. apply val_in_mono; lia.
      * assert (l = length hk) as -> by lia.
        rewrite lookup_app_r, Nat.sub_diag in Ho by lia. injection Ho as <-. simpl.
        rewrite Hsnd.
        eapply Forall_impl; [exact Hvs|]. intros x. apply val_in_mono; lia.
    + intros [|f] Hf; [lia|]. simpl.
      rewrite lookup_app_r, Nat.sub_diag by lia. simpl.
      rewrite <- (List.map_map snd (Json.of_val f (hk ++ [OObj (combine (List.map fst fields) vs)]))).
      rewrite Hsnd, Hfst.
      rewrite (all_returned_pointwise _ vs (List.map Some (List.map snd fields))).
      * f_equal. f_equal. f_equal. clear. induction fields as [|[k e] fields IHf]; simpl;
          [reflexivity | now rewrite IHf].
      * rewrite !length_map. exact Hlen.
      * intros i x y Hx Hy. rewrite lookup_map in Hy.
        destruct (List.map snd fields !! i) as [jt|] eqn:Hjt; [|discriminate].
        injection Hy as <-.
        apply (Hread (hk ++ [OObj (combine (List.map fst fields) vs)]) f i x jt); auto; [|lia].
        intros l Hlo. apply lookup_app_l. lia.
Qed.


Lemma parse_seq_member js :
  forall h hk vs i jt vt,
    Json.parse_seq Json.parse js h = (hk, vs) ->
    js !! i = Some jt -> vs !! i = Some vt ->
    exists ha hb,
      Json.parse jt ha = (hb, vt)
      /\ h `prefix_of` ha /\ ha `prefix_of` hb /\ hb `prefix_of` hk
      /\ forall H f i' vt' jt',
           agree_on (length h) (length ha) hk H ->
           agree_on (length hb) (length hk) hk H ->
           (length hk - length h <= f)%nat ->
           i' <> i -> vs !! i' = Some vt' -> js !! i' = Some jt' ->
           Json.of_val f H vt' = Returned (Some jt').
Proof.
  induction js as [|j js IH]; intros h hk vs i jt vt Hp Hjt Hvt; [discriminate Hjt|].
  rewrite parse_seq_cons in Hp.
  destruct (Json.parse j h) as [h1 v] eqn:Hp1.
  destruct (Json.parse_seq Json.parse js h1) as [h2 vs'] eqn:Hp2.
  injection Hp as <- <-.
  destruct (parse_is_ok j _ _ _ Hp1) as (Hpre1 & Hv1 & Hcl1 & Hread1).
  destruct (parse_seq_ok js (proj2 (List.Forall_forall _ _) (fun x _ => parse_is_ok x)) _ _ _ Hp2)
    as (Hpre2 & Hlen2 & Hv2 & Hcl2 & Hread2).
  pose proof (prefix_length _ _ Hpre1) as Hl1.
  pose proof (prefix_length _ _ Hpre2) as Hl2.
  destruct i as [|i]; simpl in Hjt, Hvt.
  - injection Hjt as <-. injection Hvt as <-.
    exists h, h1. repeat split; auto.
    intros H f [|i'] vt' jt' _ Hag Hf Hne Hvt' Hjt'; [congruence|]. simpl in Hvt', Hjt'.
    apply (Hread2 H f i'); auto. lia.
  - destruct (IH _ _ _ i jt vt Hp2 Hjt Hvt) as (ha & hb & Hpt & Hpa & Hpab & Hpb & Hothers).
    pose proof (prefix_length _ _ Hpa) as Hla.
    exists ha, hb. repeat split; auto; [now transitivity h1|].
    intros H f [|i'] vt' jt' Hag1 Hag2 Hf Hne Hvt' Hjt'; simpl in Hvt', Hjt'.
    + injection Hvt' as <-. injection Hjt' as <-.
      rewrite (of_val_frame (length h) (length h1) h1 H Hcl1); [apply Hread1; lia | | exact Hv1].
      intros l Hl. rewrite (Hag1 l ltac:(lia)).
      symmetry. apply prefix_lookup_lt; [lia | exact Hpre2].
    + apply (Hothers H f i'); auto; [|lia].
      intros l Hl. apply Hag1. lia.
Qed.

Lemma parse_truthy j h h' v :
  Json.parse j h = (h', v) ->
  truthy v = truthy_json j
  /\ (forall s, j = JStr s -> v = VStr s)
  /\ (forall s, v = VStr s -> j = JStr s).
Proof.
  destruct j; simpl; intros Hp.
  1-4: injection Hp as <- <-; repeat split; congruence.
  - destruct (Json.parse_seq Json.parse elems h). injection Hp as <- <-.
    repeat split; congruence.
  - destruct (Json.parse_fields Json.parse fields h). injection Hp as <- <-.
    repeat split; congruence.
Qed.

Lemma combine_fst_snd {X Y} (keys : list X) (vs : list Y) :
  length vs = length keys ->
  List.map fst (combine keys vs) = keys /\ List.map snd (combine keys vs) = vs.
Proof.
  revert vs. induction keys as [|k keys IH]; intros [|v vs] Hlen;
    simpl in *; try discriminate; auto.
  destruct (IH vs ltac:(lia)) as [-> ->]. auto.
Qed.

(** a key lookup in an object and in its JSON meet at one position *)
Lemma assoc_position key (fields : list (string * json)) (vs : list val) :
  length vs = length fields ->
  match jassoc key fields with
  | None => assoc key (combine (List.map fst fields) vs) = VUndefined
  | Some jt =>
      exists i vt,
        List.map snd fields !! i = Some jt /\ vs !! i = Some vt
        /\ assoc key (combine (List.map fst fields) vs) = vt
        /\ (forall v', List.map snd (assoc_set key v' (combine (List.map fst fields) vs))
                        = <[i := v']> vs
                        /\ List.map fst (assoc_set key v' (combine (List.map fst fields) vs))
                           = List.map fst fields)
        /\ (forall j', List.map snd (jassoc_set key j' fields) = <[i := j']> (List.map snd fields)
                        /\ List.map fst (jassoc_set key j' fields) = List.map fst fields)
  end.
Proof.
  revert vs. induction fields as [|[k j] fields IH]; intros [|v vs] Hlen;
    simpl in *; try discriminate; try reflexivity.
  destruct (String.eqb k key) eqn:Hk.
  - exists 0%nat, v. simpl.
    destruct (combine_fst_snd (List.map fst fields) vs) as [Hf Hs];
      [rewrite length_map; lia|].
    rewrite Hf, Hs. repeat split; reflexivity.
  - specialize (IH vs ltac:(lia)).
    destruct (jassoc key fields) as [jt|]; [|exact IH].
    destruct IH as (i & vt & Hj & Hv & Ha & Hset & Hjset).
    exists (S i), vt. simpl. repeat split; auto; simpl.
    + f_equal. apply Hset.
    + f_equal. apply Hset.
    + f_equal. apply Hjset.
    + f_equal. apply Hjset.
Qed.

Lemma present_combine (F : list (string * json)) :
  Json.present (combine (List.map fst F) (List.map Some (List.map snd F))) = F.
Proof. induction F as [|[k j] F IH]; simpl; [reflexivity | now rewrite IH]. Qed.

Lemma jassoc_set_same key (F : list (string * json)) j :
  jassoc key F = Some j -> jassoc_set key j F = F.
Proof.
  induction F as [|[k j0] F IH]; simpl; [discriminate|].
  destruct (String.eqb k key); [now intros [= ->] | intros H; now rewrite IH].
Qed.

(** reading an object back, member by member *)
Lemma of_val_object f H l (fs : list (string * val)) (F : list (string * json)) :
  H !! l = Some (OObj fs) ->
  List.map fst fs = List.map fst F ->
  (forall i v j, List.map snd fs !! i = Some v -> List.map snd F !! i = Some j ->
                 Json.of_val f H v = Returned (Some j)) ->
  Json.of_val (S f) H (VRef l) = Returned (Some (JObj F)).
Proof.
  intros Hl Hkeys Hmembers. simpl. rewrite Hl.
  rewrite <- (List.map_map snd (Json.of_val f H)).
  rewrite (all_returned_pointwise _ (List.map snd fs) (List.map Some (List.map snd F))).
  - rewrite Hkeys. now rewrite present_combine.
  - rewrite !length_map. rewrite <- (length_map fst fs), Hkeys. now rewrite length_map.
  - intros i x y Hx Hy. rewrite lookup_map in Hy.
    destruct (List.map snd F !! i) as [j|] eqn:Hj; [|discriminate]. injection Hy as <-.
    eauto.
Qed.

End DeepCopy.

Section PrefixName.

Variable ToString : json -> string.

Implicit Types (h H : list obj) (v : val) (j : json) (f : nat).

Lemma root_of_object (hk : list obj) (o : obj) : (hk ++ [o]) !! length hk = Some o.
Proof. rewrite lookup_app_r, Nat.sub_diag by lia. reflexivity. Qed.

(** the copy after [prefix_name], read back, is [prefix_json] of the JSON it
    was parsed from; nothing that existed before the copy is touched *)
Lemma prefix_name_spec j h h1 l :
  Json.parse j h = (h1, VRef l) ->
  length (prefix_name ToString h1 l) = length h1
  /\ agree_on 0 (length h) h1 (prefix_name ToString h1 l)
  /\ closed_in (length h) (length h1) (prefix_name ToString h1 l)
  /\ forall f, (length h1 - length h <= f)%nat ->
       Json.of_val f (prefix_name ToString h1 l) (VRef l)
       = Returned (Some (prefix_json ToString j)).
Proof.
  intros Hp.
  assert (Hsame : prefix_name ToString h1 l = h1 -> prefix_json ToString j = j ->
                  length (prefix_name ToString h1 l) = length h1
                  /\ agree_on 0 (length h) h1 (prefix_name ToString h1 l)
                  /\ closed_in (length h) (length h1) (prefix_name ToString h1 l)
                  /\ forall f, (length h1 - length h <= f)%nat ->
                       Json.of_val f (prefix_name ToString h1 l) (VRef l)
                       = Returned (Some (prefix_json ToString j))).
  { intros -> ->. destruct (parse_is_ok j _ _ _ Hp) as (_ & _ & Hcl & Hread).
    repeat split; auto. }
  destruct j as [ | b | z | s | elems | fields]; simpl in Hp; try (injection Hp; discriminate).
  - destruct (Json.parse_seq Json.parse elems h) as [hk vs] eqn:Hs.
    injection Hp as <- <-. apply Hsame; [|reflexivity].
    unfold prefix_name, get_field. rewrite root_of_object. reflexivity.
  - rewrite parse_fields_seq in Hp.
    destruct (Json.parse_seq Json.parse (List.map snd fields) h) as [hk vs] eqn:Hs.
    injection Hp as <- <-.
    destruct (parse_seq_ok _ (proj2 (List.Forall_forall _ _) (fun x _ => parse_is_ok x)) _ _ _ Hs)
      as (Hpre & Hlen & Hvs & Hcl & Hread).
    rewrite length_map in Hlen.
    pose proof (prefix_length _ _ Hpre) as Hlk.
    set (fs := combine (List.map fst fields) vs) in *.
    set (h1 := hk ++ [OObj fs]) in *.
    assert (Hroot : h1 !! length hk = Some (OObj fs)) by apply root_of_object.
    pose proof (assoc_position "toolSpec" fields vs Hlen) as Hpos. fold fs in Hpos.
    destruct (jassoc "toolSpec" fields) as [jts|] eqn:Hjts.
    2:{ apply Hsame.
        - unfold prefix_name, get_field. rewrite Hroot, Hpos. reflexivity.
        - unfold prefix_json. now rewrite Hjts. }
    destruct Hpos as (i & vts & Hij & Hiv & Hassoc & _ & Hjset).
    destruct (parse_seq_member _ _ _ _ _ _ _ Hs Hij Hiv)
      as (ha & hb & Hpts & Hpa & Hpab & Hpb & Hothers).
    pose proof (prefix_length _ _ Hpa) as Hla.
    pose proof (prefix_length _ _ Hpab) as Hlab.
    pose proof (prefix_length _ _ Hpb) as Hlb.
    assert (Hunchanged : prefix_name ToString h1 (length hk) = h1 ->
                         prefix_spec ToString jts = jts ->
                         length (prefix_name ToString h1 (length hk)) = length h1
                         /\ agree_on 0 (length h) h1 (prefix_name ToString h1 (length hk))
                         /\ closed_in (length h) (length h1) (prefix_name ToString h1 (length hk))
                         /\ forall f, (length h1 - length h <= f)%nat ->
                              Json.of_val f (prefix_name ToString h1 (length hk)) (VRef (length hk))
                              = Returned (Some (prefix_json ToString (JObj fields)))).
    { intros E1 E2. apply Hsame; [exact E1|].
      unfold prefix_json. rewrite Hjts, E2. now rewrite (jassoc_set_same _ _ _ Hjts). }
    assert (Hp0 : Json.parse (JObj fields) h = (h1, VRef (length hk))).
    { simpl. rewrite parse_fields_seq, Hs. reflexivity. }
    destruct (parse_is_ok _ _ _ _ Hp0) as (_ & _ & Hcl1 & _).
    assert (Hlen1 : length h1 = S (length hk)).
    { unfold h1. rewrite length_app. simpl. lia. }
    assert (Hk1 : forall l, (l < length hk)%nat -> h1 !! l = hk !! l).
    { intros l Hl. unfold h1. now apply lookup_app_l. }
    assert (Hname : prefix_name ToString h1 (length hk)
                    = if truthy (get_optional h1 vts "name")
                      then match vts with
                           | VRef l2 =>
                               set_field h1 l2 "name"
                                 (VStr ("mcp_" +:+ template_text ToString h1
                                                     (get_optional h1 vts "name")))
                           | _ => h1
                           end
                      else h1).
    { unfold prefix_name, get_field. rewrite Hroot, Hassoc. reflexivity. }
    destruct jts as [ | b | z | s | elems2 | fields2]; simpl in Hpts.
    1-4: injection Hpts as <- <-; apply Hunchanged; [rewrite Hname; reflexivity | reflexivity].
    { destruct (Json.parse_seq Json.parse elems2 ha) as [hk2 vs2] eqn:Hs2.
      injection Hpts as <- <-. apply Hunchanged; [|reflexivity].
      rewrite Hname. unfold get_optional, get_field.
      rewrite length_app in Hlb. simpl in Hlb.
      rewrite Hk1 by lia.
      assert (Hlt : (length hk2 < length (hk2 ++ [OArr vs2]))%nat)
        by (rewrite length_app; simpl; lia).
      rewrite <- (prefix_lookup_lt _ _ (length hk2) Hlt Hpb).
      rewrite root_of_object. reflexivity. }
    rewrite parse_fields_seq in Hpts.
    destruct (Json.parse_seq Json.parse (List.map snd fields2) ha) as [hk2 vs2] eqn:Hs2.
    injection Hpts as <- <-.
    set (fs2 := combine (List.map fst fields2) vs2) in *.
    set (l2 := length hk2) in *.
    rewrite length_app in Hlab, Hlb. simpl in Hlab, Hlb.
    destruct (parse_seq_ok _ (proj2 (List.Forall_forall _ _) (fun x _ => parse_is_ok x)) _ _ _ Hs2)
      as (Hpre2 & Hlen2 & Hvs2 & Hcl2 & Hread2).
    rewrite length_map in Hlen2.
    pose proof (prefix_length _ _ Hpre2) as Hlk2. fold l2 in Hlk2.
    assert (Hl2 : h1 !! l2 = Some (OObj fs2)).
    { rewrite Hk1 by lia.
      assert (Hlt : (l2 < length (hk2 ++ [OObj fs2]))%nat)
        by (rewrite length_app; simpl; lia).
      rewrite <- (prefix_lookup_lt _ _ l2 Hlt Hpb).
      apply root_of_object. }
    assert (Hk2 : forall l, (l < l2)%nat -> h1 !! l = hk2 !! l).
    { intros l Hl. rewrite Hk1 by lia.
      assert (Hlt : (l < length (hk2 ++ [OObj fs2]))%nat)
        by (rewrite length_app; simpl; lia).
      rewrite <- (prefix_lookup_lt _ _ l Hlt Hpb).
      now apply lookup_app_l. }
    pose proof (assoc_position "name" fields2 vs2 Hlen2) as Hpos2. fold fs2 in Hpos2.
    destruct (jassoc "name" fields2) as [jn|] eqn:Hjn.
    2:{ apply Hunchanged.
        - rewrite Hname. unfold get_optional, get_field. rewrite Hl2, Hpos2. reflexivity.
        - unfold prefix_spec. now rewrite Hjn. }
    destruct Hpos2 as (i1 & vn & Hi1j & Hi1v & Hassoc2 & Hset2 & Hjset2).
    destruct (parse_seq_member _ _ _ _ _ _ _ Hs2 Hi1j Hi1v)
      as (hc & hd & Hpn & Hpc & Hpcd & Hpd & _).
    destruct (parse_truthy _ _ _ _ Hpn) as (Htr & Hstr1 & Hstr2).
    assert (Hget : get_optional h1 (VRef l2) "name" = vn).
    { unfold get_optional, get_field. now rewrite Hl2. }
    rewrite Hget, Htr in Hname.
    destruct (truthy_json jn) eqn:Htj.
    2:{ apply Hunchanged; [exact Hname|]. unfold prefix_spec. now rewrite Hjn, Htj. }
    assert (Htext : template_text ToString h1 vn = name_text ToString jn).
    { destruct (parse_is_ok _ _ _ _ Hpn) as (_ & Hvn & Hcln & Hreadn).
      pose proof (prefix_length _ _ Hpc) as Hlc.
      pose proof (prefix_length _ _ Hpcd) as Hlcd.
      pose proof (prefix_length _ _ Hpd) as Hld. fold l2 in Hld.
      assert (Hstringify : Json.stringify h1 vn = Returned (Some jn)).
      { unfold Json.stringify.
        rewrite (of_val_frame (length hc) (length hd) hd h1 Hcln); [apply Hreadn; lia | | exact Hvn].
        intros l Hl. rewrite Hk2 by lia. symmetry. apply prefix_lookup_lt; [lia | exact Hpd]. }
      destruct jn; simpl in Hpn.
      1-3: injection Hpn as _ <-; unfold template_text; rewrite Hstringify; reflexivity.
      - injection Hpn as _ <-. reflexivity.
      - destruct (Json.parse_seq Json.parse elems hc). injection Hpn as _ <-.
        unfold template_text. rewrite Hstringify. reflexivity.
      - destruct (Json.parse_fields Json.parse fields0 hc). injection Hpn as _ <-.
        unfold template_text. rewrite Hstringify. reflexivity. }
    rewrite Htext in Hname. unfold set_field in Hname. rewrite Hl2 in Hname.
    set (s' := "mcp_" +:+ name_text ToString jn) in *.
    rewrite Hname.
    assert (Hne : l2 <> length hk) by lia.
    split; [apply length_insert|]. split; [|split].
    + intros l Hl. apply list_lookup_insert_ne. lia.
    + intros l o Hl Ho. destruct (decide (l = l2)) as [->|Hll].
      * rewrite list_lookup_insert_eq in Ho by lia. injection Ho as <-. simpl.
        rewrite (proj1 (Hset2 _)). apply Forall_insert; [|exact I].
        eapply Forall_impl; [exact Hvs2|]. intros x. apply val_in_mono; lia.
      * rewrite list_lookup_insert_ne in Ho by congruence. exact (Hcl1 l o Hl Ho).
    + intros [|f0] Hf; [lia|].
      destruct (combine_fst_snd (List.map fst fields) vs) as [Hkeys Hvals];
        [rewrite length_map; lia|]. fold fs in Hkeys, Hvals.
      unfold prefix_json. rewrite Hjts.
      apply (of_val_object f0 _ (length hk) fs).
      * rewrite list_lookup_insert_ne by congruence. exact Hroot.
      * rewrite Hkeys. symmetry. apply Hjset.
      * intros k v jk Hv Hjk. rewrite Hvals in Hv. rewrite (proj1 (Hjset _)) in Hjk.
        destruct (decide (k = i)) as [->|Hki].
        -- rewrite list_lookup_insert_eq in Hjk
             by (apply lookup_lt_Some in Hij; exact Hij).
           injection Hjk as <-. rewrite Hiv in Hv. injection Hv as <-.
           unfold prefix_spec. rewrite Hjn, Htj. fold s'.
           destruct f0 as [|f1]; [lia|].
           destruct (combine_fst_snd (List.map fst fields2) vs2) as [Hkeys2 Hvals2];
             [rewrite length_map; lia|]. fold fs2 in Hkeys2, Hvals2.
           apply (of_val_object f1 _ l2 (assoc_set "name" (VStr s') fs2)).
           ++ apply list_lookup_insert_eq. lia.
           ++ rewrite (proj2 (Hset2 _)). symmetry. apply Hjset2.
           ++ intros k' v' jk' Hv' Hjk'. rewrite (proj1 (Hset2 _)) in Hv'.
              rewrite (proj1 (Hjset2 _)) in Hjk'.
              destruct (decide (k' = i1)) as [->|Hk'].
              ** rewrite list_lookup_insert_eq in Hv'
                   by (apply lookup_lt_Some in Hi1v; exact Hi1v).
                 rewrite list_lookup_insert_eq in Hjk'
                   by (apply lookup_lt_Some in Hi1j; exact Hi1j).
                 injection Hv' as <-. injection Hjk' as <-. clear. destruct f1; reflexivity.
              ** rewrite list_lookup_insert_ne in Hv' by congruence.
                 rewrite list_lookup_insert_ne in Hjk' by congruence.
                 apply (Hread2 _ f1 k'); auto; [|lia].
                 intros l Hl. rewrite list_lookup_insert_ne by lia. apply Hk2. lia.
        -- rewrite list_lookup_insert_ne in Hjk by congruence.
           apply (Hothers _ f0 k); auto; [| |lia].
           ++ intros l Hl. rewrite list_lookup_insert_ne by lia. apply Hk1. lia.
           ++ intros l Hl. rewrite length_app in Hl. simpl in Hl.
              rewrite list_lookup_insert_ne by lia. apply Hk1. lia.
Qed.

End PrefixName.

Section Clones.

Variable ToString : json -> string.

Implicit Types (h H : list obj) (v : val) (j : json) (f : nat) (t : nat).

Lemma extends_above_length n h h' :
  extends_above n h h' -> (length h <= length h')%nat.
Proof. now intros [? _]. Qed.

Lemma extends_above_trans n m h0 h h' :
  (n <= m)%nat -> extends_above n h0 h -> extends_above m h h' -> extends_above n h0 h'.
Proof.
  intros Hnm [Hl1 Ha1] [Hl2 Ha2]. split; [lia|].
  intros l Hl. rewrite Ha2 by lia. now apply Ha1.
Qed.

(** a descriptor of the registry reads the same in every heap that left the
    registry's objects alone *)
Lemma registry_read h0 h t f :
  closed_in 0 (length h0) h0 -> (t < length h0)%nat ->
  extends_above (length h0) h0 h ->
  Json.of_val f h (VRef t) = Json.of_val f h0 (VRef t).
Proof.
  intros Hcl Ht [_ Hag]. apply (of_val_frame 0 (length h0)); auto.
  - intros l Hl. apply Hag. lia.
  - simpl. lia.
Qed.

Lemma clone_tool_inv h0 h t h' v :
  closed_in 0 (length h0) h0 -> (t < length h0)%nat ->
  extends_above (length h0) h0 h ->
  clone_tool ToString h t = Returned (h', v) ->
  exists j l,
    v = VRef l
    /\ Json.of_val (S (length h)) h0 (VRef t) = Returned (Some j)
    /\ extends_above (length h) h h'
    /\ (length h <= l < length h')%nat
    /\ closed_in (length h) (length h') h'
    /\ forall H f, agree_on (length h) (length h') h' H ->
         (length h' - length h <= f)%nat ->
         Json.of_val f H (VRef l) = Returned (Some (prefix_json ToString j)).
Proof.
  intros Hcl Ht Hext Hclone. unfold clone_tool, Json.deep_copy, Json.stringify in Hclone.
  rewrite (registry_read h0 h t _ Hcl Ht Hext) in Hclone.
  destruct (Json.of_val (S (length h)) h0 (VRef t)) as [[j|]|m] eqn:Hj; try discriminate.
  destruct (Json.parse j h) as [h1 v1] eqn:Hp.
  destruct (parse_is_ok j _ _ _ Hp) as (Hpre & Hv1 & Hcl1 & Hread1).
  pose proof (prefix_length _ _ Hpre) as Hlen.
  assert (Hobj : exists l, v1 = VRef l).
  { simpl in Hj. destruct (h0 !! t) as [[fields|elems]|]; try discriminate.
    - destruct (Json.all_returned _); [|discriminate]. injection Hj as <-.
      simpl in Hp. destruct (Json.parse_fields _ _ _). injection Hp as _ <-. eauto.
    - destruct (Json.all_returned _); [|discriminate]. injection Hj as <-.
      simpl in Hp. destruct (Json.parse_seq _ _ _). injection Hp as _ <-. eauto. }
  destruct Hobj as [l ->]. injection Hclone as <- <-.
  destruct (prefix_name_spec ToString j h h1 l Hp) as (Hlen' & Hag' & Hcl' & Hread').
  simpl in Hv1. exists j, l. rewrite Hlen'. repeat split; auto; try lia.
  - intros x Hx. rewrite Hag' by lia. symmetry. now apply prefix_lookup_lt.
  - intros H f Hag Hf.
    rewrite (of_val_frame (length h) (length h1) _ H Hcl' Hag); [now apply Hread' | simpl; lia].
Qed.

Lemma clone_tool_runs h0 h t j f :
  closed_in 0 (length h0) h0 -> (t < length h0)%nat ->
  extends_above (length h0) h0 h ->
  Json.of_val f h0 (VRef t) = Returned (Some j) -> (f <= S (length h))%nat ->
  exists h' v, clone_tool ToString h t = Returned (h', v)
               /\ Json.of_val (S (length h)) h0 (VRef t) = Returned (Some j).
Proof.
  intros Hcl Ht Hext Hj Hf.
  pose proof (of_val_fuel _ _ _ _ _ Hj Hf) as Hj'.
  unfold clone_tool, Json.deep_copy, Json.stringify.
  rewrite (registry_read h0 h t _ Hcl Ht Hext), Hj'.
  destruct (Json.parse j h) as [h1 [ | | | | |l]]; eauto.
Qed.

(** the copies of one call: what they are copies of, where they live, and
    how they read in every heap that leaves them alone *)
Lemma clone_tools_inv h0 ts :
  closed_in 0 (length h0) h0 -> Forall (fun t => (t < length h0)%nat) ts ->
  forall h h' out,
    extends_above (length h0) h0 h ->
    clone_tools ToString h ts = Returned (h', out) ->
    extends_above (length h) h h'
    /\ isolated (length h) h' out
    /\ exists js,
         Forall2 (fun t j => exists f, (f <= S (length h'))%nat
                                       /\ Json.of_val f h0 (VRef t) = Returned (Some j)) ts js
         /\ Forall2 (fun j v => forall H, (length h' <= length H)%nat ->
                                  agree_on (length h) (length h') h' H ->
                                  Json.stringify H v = Returned (Some (prefix_json ToString j)))
              js out.
Proof.
  intros Hcl Hts. induction Hts as [|t ts Ht Hts IH]; intros h h' out Hext Hrun; simpl in Hrun.
  - injection Hrun as <- <-. split; [split; auto|]. split.
    + split; [constructor|]. intros l o Hl. lia.
    + exists []. split; constructor.
  - destruct (clone_tool ToString h t) as [[h1 v]|m] eqn:Hc; [|discriminate].
    destruct (clone_tools ToString h1 ts) as [[h2 vs]|m] eqn:Hcs; [|discriminate].
    injection Hrun as <- <-.
    destruct (clone_tool_inv h0 h t h1 v Hcl Ht Hext Hc)
      as (j & l & -> & Hj & Hext1 & Hl & Hcl1 & Hread1).
    pose proof (extends_above_length _ _ _ Hext) as Hlen0.
    pose proof (extends_above_length _ _ _ Hext1) as Hlen1.
    assert (Hext01 : extends_above (length h0) h0 h1)
      by (eapply extends_above_trans; [| exact Hext | exact Hext1]; lia).
    destruct (IH h1 h2 vs Hext01 Hcs) as (Hext2 & [Hvs Hcl2] & js & Hjs & Hreads).
    pose proof (extends_above_length _ _ _ Hext2) as Hlen2.
    split; [eapply extends_above_trans; [| exact Hext1 | exact Hext2]; lia|]. split.
    + split.
      * constructor; [simpl; lia|].
        eapply Forall_impl; [exact Hvs|]. intros x. apply val_in_mono; lia.
      * eapply (closed_in_join (length h) (length h1) (length h2) (take (length h1) h2) h2);
          try lia.
        -- apply prefix_take.
        -- rewrite length_take. lia.
        -- intros x o Hx Ho. rewrite lookup_take_lt in Ho by lia.
           rewrite (proj2 Hext2) in Ho by lia. exact (Hcl1 x o Hx Ho).
        -- exact Hcl2.
    + exists (j :: js). split.
      * constructor.
        -- exists (S (length h)). split; [lia | exact Hj].
        -- exact Hjs.
      * constructor.
        -- intros H HlenH Hag. unfold Json.stringify. apply Hread1; [|lia].
           intros x Hx. rewrite (Hag x ltac:(lia)). apply (proj2 Hext2). lia.
        -- eapply Forall2_impl; [exact Hreads|]. intros j' v' Hr H HlenH Hag.
           apply Hr; [exact HlenH|]. intros x Hx. apply Hag. lia.
Qed.

Lemma clone_tools_runs h0 ts js F :
  closed_in 0 (length h0) h0 -> Forall (fun t => (t < length h0)%nat) ts ->
  Forall2 (fun t j => exists f, (f <= F)%nat
                                /\ Json.of_val f h0 (VRef t) = Returned (Some j)) ts js ->
  forall h,
    extends_above (length h0) h0 h -> (F <= S (length h))%nat ->
    exists h' out,
      clone_tools ToString h ts = Returned (h', out)
      /\ Forall2 (fun j v => forall H, (length h' <= length H)%nat ->
                               agree_on (length h) (length h') h' H ->
                               Json.stringify H v = Returned (Some (prefix_json ToString j)))
           js out.
Proof.
  intros Hcl Hts Hjs. revert Hts.
  induction Hjs as [|t j ts js (f & Hf & Hj) Hjs IH]; intros Hts h Hext HF.
  - exists h, []. split; [reflexivity | constructor].
  - apply List.Forall_cons_iff in Hts as [Ht Hts].
    destruct (clone_tool_runs h0 h t j f Hcl Ht Hext Hj ltac:(lia)) as (h1 & v & Hc & Hj1).
    destruct (clone_tool_inv h0 h t h1 v Hcl Ht Hext Hc)
      as (j' & l & -> & Hj' & Hext1 & Hl & Hcl1 & Hread1).
    assert (j' = j) as -> by congruence.
    pose proof (extends_above_length _ _ _ Hext1) as Hlen1.
    assert (Hext01 : extends_above (length h0) h0 h1)
      by (eapply extends_above_trans; [| exact Hext | exact Hext1];
          apply (extends_above_length _ _ _ Hext)).
    destruct (IH Hts h1 Hext01 ltac:(lia)) as (h2 & out & Hcs & Hreads).
    destruct (clone_tools_inv h0 ts Hcl Hts h1 h2 out Hext01 Hcs) as (Hext2 & _ & _).
    pose proof (extends_above_length _ _ _ Hext2) as Hlen2.
    exists h2, (VRef l :: out). simpl. rewrite Hc, Hcs. split; [reflexivity|].
    constructor.
    + intros H HlenH Hag. unfold Json.stringify. apply Hread1; [|lia].
      intros x Hx. rewrite (Hag x ltac:(lia)). apply (proj2 Hext2). lia.
    + eapply Forall2_impl; [exact Hreads|]. intros j' v' Hr H HlenH Hag.
      apply Hr; [exact HlenH|]. intros x Hx. apply Hag. lia.
Qed.

Lemma jassoc_set_get key (F : list (string * json)) j :
  jassoc key (jassoc_set key j F) = Some j.
Proof.
  induction F as [|[k j0] F IH]; simpl.
  - now rewrite String.eqb_refl.
  - destruct (String.eqb k key) eqn:Hk; simpl; now rewrite Hk.
Qed.

(** the name of a copy carries the prefix *)
Lemma prefix_json_name j s :
  json_tool_name j = Some s -> s <> "" ->
  json_tool_name (prefix_json ToString j) = Some ("mcp_" +:+ s).
Proof.
  unfold json_tool_name, prefix_json. destruct j as [ | | | | |fields]; try discriminate.
  destruct (jassoc "toolSpec" fields) as [[ | | | | |fields2]|] eqn:Hts; try discriminate.
  unfold prefix_spec.
  destruct (jassoc "name" fields2) as [[ | | |s0| | ]|] eqn:Hn; try discriminate.
  intros [= ->] Hne. simpl.
  destruct (String.eqb_spec s ""); [contradiction|]. simpl.
  now rewrite !jassoc_set_get.
Qed.

End Clones.

Section IsolationClaim.

Variable localeCompare : string -> string -> Z.
Variable ToString : json -> string.

Lemma Forall2_through {X Y Z'} (R1 : X -> Y -> Prop) (R2 : X -> Z' -> Prop)
    (R : Y -> Z' -> Prop) (xs : list X) (ys : list Y) (zs : list Z') :
  (forall x y z, R1 x y -> R2 x z -> R y z) ->
  Forall2 R1 xs ys -> Forall2 R2 xs zs -> Forall2 R ys zs.
Proof.
  intros HR H1. revert zs. induction H1 as [|x y xs ys Hxy _ IH]; intros zs H2.
  - apply Forall2_nil_inv_l in H2 as ->. constructor.
  - apply Forall2_cons_inv_l in H2 as (z & zs' & Hxz & H2 & ->).
    constructor; eauto.
Qed.

Lemma extends_above_refl n (h : list obj) : extends_above n h h.
Proof. split; auto. Qed.

(** writing a property of an object at or above [n] leaves everything
    below [n] as it is *)
Lemma set_field_extends_above n (h : list obj) l key v :
  (n <= l)%nat -> extends_above n h (set_field h l key v).
Proof.
  intros Hl. unfold set_field. destruct (h !! l) as [[fields|elems]|]; try apply extends_above_refl.
  split; [now rewrite length_insert|].
  intros x Hx. apply list_lookup_insert_ne. lia.
Qed.

Lemma copies_are_prefixed (h0 h' : list obj) (ts : list nat) (js : list json) (out : list val) :
  closed_in 0 (length h0) h0 ->
  Forall (fun t => (t < length h0)%nat) ts ->
  extends_above (length h0) h0 h' ->
  Forall2 (fun t j => exists f, (f <= S (length h'))%nat
                                /\ Json.of_val f h0 (VRef t) = Returned (Some j)) ts js ->
  Forall2 (fun j v => forall H, (length h' <= length H)%nat ->
                           agree_on (length h0) (length h') h' H ->
                           Json.stringify H v = Returned (Some (prefix_json ToString j)))
    js out ->
  Forall (fun v => exists t, In t ts /\ prefixed_copy_of ToString h' t h' v) out.
Proof.
  intros Hcl Hts Hext Hjs. revert out Hts.
  induction Hjs as [|t j ts js (f & Hf & Hj) Hjs IH]; intros out Hts Hreads.
  - apply Forall2_nil_inv_l in Hreads as ->. constructor.
  - apply Forall2_cons_inv_l in Hreads as (v & vs & Hv & Hreads & ->).
    apply List.Forall_cons_iff in Hts as [Ht Hts].
    constructor.
    + exists t. split; [now left|]. exists j. split.
      * unfold Json.stringify. rewrite (registry_read h0 h' t _ Hcl Ht Hext).
        eapply of_val_fuel; [exact Hj | exact Hf].
      * apply Hv; [lia|]. intros l Hl. reflexivity.
    + eapply Forall_impl; [exact (IH vs Hts Hreads)|].
      intros x (t' & Hin & Hcopy). exists t'. split; [now right | exact Hcopy].
Qed.

(** C9. The descriptors returned by [getMcpToolSpecs] are copies: what
    can be reached from them lies wholly in objects created by the call, and
    the call leaves every older object as it was.  So whatever a caller then
    does to the objects created by the call or later ([h2]), the objects of
    the registry are unchanged and a following call with the same
    configuration returns descriptors that read exactly as those of the
    first call did.  Each returned descriptor reads as the registry's
    descriptor with the name prefixed: a non-empty name [s] has become
    [mcp_s]. *)
Theorem getMcpToolSpecs_returns_isolated_copies
    (w1 w2 : World) (servers : list McpServerConfig) (st st1 : Registry)
    (h0 h1 h2 : list obj) (out1 : list val) :
  closed_in 0 (length h0) h0 ->
  getMcpToolSpecs localeCompare ToString w1 (Some servers) st h0 = (st1, h1, Returned out1) ->
  Forall (fun t => (t < length h0)%nat) (registry_tools st1) ->
  extends_above (length h0) h1 h2 ->
  isolated (length h0) h1 out1
  /\ extends_above (length h0) h0 h1
  /\ extends_above (length h0) h0 h2
  /\ Forall (fun v => exists t, In t (registry_tools st1)
                                /\ prefixed_copy_of ToString h1 t h1 v) out1
  /\ (forall j s, json_tool_name j = Some s -> s <> "" ->
                  json_tool_name (prefix_json ToString j) = Some ("mcp_" +:+ s))
  /\ exists h3 out2,
       getMcpToolSpecs localeCompare ToString w2 (Some servers) st1 h2
       = (st1, h3, Returned out2)
       /\ read_alike h1 out1 h3 out2.
Proof.
  intros Hcl Hcall Hts Hmut. unfold getMcpToolSpecs in Hcall |- *.
  destruct servers as [|s0 rest].
  { injection Hcall as <- <- <-. repeat split; auto.
    - intros l o Hl. lia.
    - apply Hmut.
    - apply Hmut.
    - apply prefix_json_name.
    - exists h2, []. split; [reflexivity | constructor]. }
  destruct (initMcpFromAgentConfig localeCompare w1 (s0 :: rest) st) as [[st' [[]|m]] eff] eqn:Hinit.
  2:{ discriminate Hcall. }
  destruct (clone_tools ToString h0 (registry_tools st')) as [[h' specs]|m] eqn:Hrun;
    [|discriminate Hcall].
  injection Hcall as <- <- <-.
  destruct (clone_tools_inv ToString h0 _ Hcl Hts h0 h' specs (extends_above_refl _ _) Hrun)
    as (Hext1 & Hiso & js & Hjs & Hreads).
  pose proof (extends_above_length _ _ _ Hext1) as Hlen1.
  assert (Hext2 : extends_above (length h0) h0 h2)
    by (eapply extends_above_trans; [| exact Hext1 | exact Hmut]; lia).
  pose proof (extends_above_length _ _ _ Hmut) as Hlen2.
  split; [exact Hiso|]. split; [exact Hext1|]. split; [exact Hext2|]. split; [|split].
  - eapply copies_are_prefixed; eauto.
  - apply prefix_json_name.
  - pose proof (initMcpFromAgentConfig_returned localeCompare w1 _ _ _ _ Hinit) as Hsame.
    unfold initMcpFromAgentConfig. rewrite Hsame.
    destruct (clone_tools_runs ToString h0 _ js (S (length h')) Hcl Hts Hjs h2 Hext2 ltac:(lia))
      as (h3 & out2 & Hrun2 & Hreads2).
    rewrite Hrun2. exists h3, out2. split; [reflexivity|].
    destruct (clone_tools_inv ToString h0 _ Hcl Hts h2 h3 out2 Hext2 Hrun2) as (Hext3 & _ & _).
    pose proof (extends_above_length _ _ _ Hext3) as Hlen3.
    eapply Forall2_through; [| exact Hreads | exact Hreads2].
    intros j v1 v2 Hr1 Hr2. exists (prefix_json ToString j). split.
    + apply Hr1; [lia|]. intros l Hl. reflexivity.
    + apply Hr2; [lia|]. intros l Hl. reflexivity.
Qed.

End IsolationClaim.

(** ** The registry on the configurations of the examples *)

Lemma collation_tie_reactivates_example :
  let first :=
    initMcpFromAgentConfig compare_ignoring_controls mock_world [server_a; server_a_soh]
      initial_registry in
  let st1 := fst (fst first) in
  let second :=
    initMcpFromAgentConfig compare_ignoring_controls mock_world [server_a_soh; server_a] st1 in
  snd (fst first) = Returned tt
  /\ hasConfigChanged compare_ignoring_controls st1 [server_a_soh; server_a] = Returned true
  /\ snd (fst second) = Returned tt
  /\ snd second
     = [ CleanedUp mock_client true; CleanedUp mock_client true;
         Launched name_a_soh true; Launched "a" true ].
Proof.
  apply (collation_tie_reactivates compare_ignoring_controls mock_world mock_world);
    reflexivity.
Defined.




Lemma mock_heap_closed : closed_in 0 (length mock_heap) mock_heap.
Proof.
  intros l o Hl Ho. simpl in Hl.
  destruct l as [|[|[|[|l]]]]; simpl in Ho; try lia;
    injection Ho as <-; repeat constructor; simpl; lia.
Qed.

(** a descriptor whose name is the empty string is returned without the
    prefix *)
Lemma empty_name_is_not_prefixed :
  let outcome :=
    getMcpToolSpecs compare_code_units sample_ToString nameless_world (Some mockMcpServers)
      initial_registry nameless_heap in
  snd outcome = Returned [VRef 3]
  /\ Json.stringify (snd (fst outcome)) (VRef 3)
     = Returned (Some (JObj [("toolSpec",
                              JObj [("name", JStr ""); ("description", JStr "anonymous")])]))
  /\ json_tool_name (JObj [("toolSpec",
                            JObj [("name", JStr ""); ("description", JStr "anonymous")])])
     = Some ""
  /\ String.prefix "mcp_" "" = false.
Proof. intros outcome. vm_compute. repeat split. Qed.

Lemma getMcpToolSpecs_returns_isolated_copies_example :
  isolated 4 (snd (fst first_specs)) [VRef 7]
  /\ Json.stringify heap_after_caller_write (VRef 3)
     = Json.stringify mock_heap (VRef 3)
  /\ exists h3 out2,
       getMcpToolSpecs compare_code_units sample_ToString failing_world
         (Some mockMcpServers) (fst (fst first_specs)) heap_after_caller_write
       = (fst (fst first_specs), h3, Returned out2)
       /\ read_alike (snd (fst first_specs)) [VRef 7] h3 out2.
Proof.
  destruct (getMcpToolSpecs_returns_isolated_copies compare_code_units sample_ToString
              mock_world failing_world mockMcpServers initial_registry
              (fst (fst first_specs)) mock_heap (snd (fst first_specs))
              heap_after_caller_write [VRef 7] mock_heap_closed)
    as (Hiso & _ & _ & _ & _ & Hagain).
  - vm_compute. reflexivity.
  - repeat constructor.
  - apply set_field_extends_above. simpl. lia.
  - split; [exact Hiso|]. split; [vm_compute; reflexivity | exact Hagain].
Defined.

(** * Further properties of the command service *)

(** ** Strings *)

Section StringFacts.

Implicit Types (s t a b sub : string) (c x : ascii).

Lemma append_cons c s t : String c s +:+ t = String c (s +:+ t).
Proof. reflexivity. Qed.

Lemma append_nil_l t : "" +:+ t = t.
Proof. reflexivity. Qed.

Ltac push_append := rewrite ?append_cons, ?append_nil_l; simpl.

Lemma append_nil_r s : s +:+ "" = s.
Proof. induction s as [|c s IH]; push_append; [reflexivity | now rewrite IH]. Qed.

Lemma append_assoc s t u : (s +:+ t) +:+ u = s +:+ (t +:+ u).
Proof. induction s as [|c s IH]; push_append; [reflexivity | now rewrite IH]. Qed.

Lemma prefix_append sub s b : String.prefix sub s = true -> String.prefix sub (s +:+ b) = true.
Proof.
  revert s. induction sub as [|c sub IH]; intros s H; [destruct (s +:+ b); reflexivity|].
  destruct s as [|c' s]; simpl in *; [discriminate|]. push_append.
  destruct (ascii_dec c c'); [now apply IH | discriminate].
Qed.

Lemma includes_append_r s sub b : Js.includes s sub = true -> Js.includes (s +:+ b) sub = true.
Proof.
  induction s as [|c s IH]; simpl; rewrite ?orb_false_r; intros H.
  - destruct sub; [|discriminate]. destruct b; reflexivity.
  - push_append. apply orb_true_iff in H as [H|H].
    + apply (prefix_append _ (String c s) b) in H. rewrite append_cons in H.
      simpl in H. now rewrite H.
    + rewrite (IH H). apply orb_true_r.
Qed.

Lemma includes_append_l s sub a : Js.includes s sub = true -> Js.includes (a +:+ s) sub = true.
Proof.
  intros H. induction a as [|c a IH]; push_append; [exact H|].
  rewrite IH. apply orb_true_r.
Qed.

Lemma includes_within s sub a b :
  Js.includes s sub = true -> Js.includes (a +:+ s +:+ b) sub = true.
Proof. intros H. now apply includes_append_l, includes_append_r. Qed.

Lemma toLowerCase_append s t :
  Js.toLowerCase (s +:+ t) = Js.toLowerCase s +:+ Js.toLowerCase t.
Proof. induction s as [|c s IH]; push_append; [reflexivity | now rewrite IH]. Qed.

Lemma prefix_toLowerCase sub s :
  String.prefix sub s = true ->
  String.prefix (Js.toLowerCase sub) (Js.toLowerCase s) = true.
Proof.
  revert s. induction sub as [|c sub IH]; intros s H; [destruct s; reflexivity|].
  destruct s as [|c' s]; simpl in *; [discriminate|].
  destruct (ascii_dec c c') as [->|]; [|discriminate].
  destruct (ascii_dec (Js.lower_ascii c') (Js.lower_ascii c')); [now apply IH | congruence].
Qed.

(** a case-sensitive occurrence is an occurrence after case folding *)
Lemma includes_toLowerCase s sub :
  Js.includes s sub = true ->
  Js.includes (Js.toLowerCase s) (Js.toLowerCase sub) = true.
Proof.
  induction s as [|c s IH]; simpl; rewrite ?orb_false_r; intros H.
  - destruct sub; [reflexivity | discriminate].
  - apply orb_true_iff in H as [H|H].
    + apply (prefix_toLowerCase sub (String c s)) in H. simpl in H. now rewrite H.
    + rewrite (IH H). apply orb_true_r.
Qed.

Lemma split_space_token s : has_char " " s = false -> Js.split_space s = [s].
Proof.
  induction s as [|c s IH]; simpl; [reflexivity|].
  intros H. apply orb_false_iff in H as [Hc Hs]. rewrite Hc, (IH Hs). reflexivity.
Qed.

Lemma split_space_cons t rest :
  has_char " " t = false ->
  Js.split_space (t +:+ String " "%char rest) = t :: Js.split_space rest.
Proof.
  induction t as [|c t IH]; push_append; [reflexivity|].
  intros H. apply orb_false_iff in H as [Hc Ht]. rewrite Hc, (IH Ht). reflexivity.
Qed.

Lemma split_space_join (t : string) (ts : list string) :
  Forall (fun tok : string => has_char " " tok = false) (t :: ts) ->
  Js.split_space (String.concat " " (t :: ts)) = t :: ts.
Proof.
  revert t. induction ts as [|t' ts IH]; intros t Hall.
  - apply split_space_token. now apply List.Forall_inv in Hall.
  - change (String.concat " " (t :: t' :: ts))
      with (t +:+ String " "%char (String.concat " " (t' :: ts))).
    rewrite split_space_cons by (now apply List.Forall_inv in Hall).
    rewrite IH; [reflexivity | now apply List.Forall_inv_tail in Hall].
Qed.

End StringFacts.

(** X1. A command line made of tokens without spaces, joined by single
    spaces, is parsed into exactly these tokens: the first is the command,
    the others are the arguments, and the wildcard flag says whether one of
    them (the command included) is [*]. *)
Theorem parseCommandPattern_of_tokens (cmd : string) (arguments : list string) :
  Forall (fun tok : string => has_char " " tok = false) (cmd :: arguments) ->
  parseCommandPattern (String.concat " " (cmd :: arguments))
  = {| command := cmd;
       args := arguments;
       wildcard := existsb (fun part => String.eqb part "*") (cmd :: arguments) |}.
Proof.
  intros Hall. unfold parseCommandPattern. now rewrite (split_space_join cmd arguments Hall).
Qed.

Lemma parseCommandPattern_of_tokens_example :
  parseCommandPattern "gh pr diff 42"
  = {| command := "gh"; args := ["pr"; "diff"; "42"]; wildcard := false |}.
Proof.
  apply (parseCommandPattern_of_tokens "gh" ["pr"; "diff"; "42"]).
  repeat constructor.
Defined.

(** X2. A [*] in the place of the command is no wildcard for the command:
    a pattern whose command token is [*] allows the command lines whose
    command token is literally [*], and no other. *)
Theorem star_command_is_literal (pat : CommandPatternConfig) (executeParts : CommandPattern) :
  command (parseCommandPattern (pattern pat)) = "*" ->
  (patternAllows executeParts pat = true <-> command executeParts = "*").
Proof.
  intros Hstar.
  assert (Hw : wildcard (parseCommandPattern (pattern pat)) = true).
  { apply wildcard_tokens. rewrite parts_of_pattern, Hstar. now left. }
  rewrite (patternAllows_wildcard executeParts pat Hw), Hstar. split; congruence.
Qed.

Lemma star_command_is_literal_example :
  patternAllows (parseCommandPattern "ls -la")
    {| pattern := "*"; description := "anything?" |} = false
  /\ patternAllows (parseCommandPattern "* -la")
       {| pattern := "*"; description := "anything?" |} = true.
Proof.
  split.
  - destruct (patternAllows (parseCommandPattern "ls -la")
                {| pattern := "*"; description := "anything?" |}) eqn:E; [|reflexivity].
    apply (star_command_is_literal {| pattern := "*"; description := "anything?" |}
             (parseCommandPattern "ls -la")) in E; [discriminate E | reflexivity].
  - apply (star_command_is_literal {| pattern := "*"; description := "anything?" |}
             (parseCommandPattern "* -la")); reflexivity.
Defined.

(** ** The classifiers *)

Section ClassifierFacts.

Implicit Types (out err a b : string).

Lemma file_watch_is_ready out :
  Js.includes out "waiting for file changes" = true -> isServerReady out = true.
Proof.
  intros H. unfold isServerReady. apply existsb_exists.
  exists "waiting for file changes". split.
  - unfold serverReadyPatterns. simpl. tauto.
  - exact (includes_toLowerCase _ _ H).
Qed.

Lemma timeout_condition out :
  isServerReady out || Js.includes out "waiting for file changes" = isServerReady out.
Proof.
  destruct (isServerReady out) eqn:E; [reflexivity|]. simpl.
  destruct (Js.includes out "waiting for file changes") eqn:Hf; [|reflexivity].
  now rewrite (file_watch_is_ready out Hf) in E.
Qed.

End ClassifierFacts.

(** X3. An error marker cannot be hidden by more text: when
    [checkForErrors] reports an error for two texts, it reports one for
    every pair of texts that contain them. *)
Theorem checkForErrors_persists (out err a b a' b' : string) :
  checkForErrors out err = true ->
  checkForErrors (a +:+ out +:+ b) (a' +:+ err +:+ b') = true.
Proof.
  rewrite !checkForErrors_is_marker_search, !existsb_exists.
  intros (pat & Hin & Hpat). exists pat. split; [exact Hin|].
  apply orb_true_iff in Hpat as [H|H]; apply orb_true_iff; [left | right];
    now apply includes_within.
Qed.

Lemma checkForErrors_persists_example :
  checkForErrors ("$ npm start" +:+ nl +:+ "npm ERR! missing script" +:+ nl) "" = true.
Proof.
  apply (checkForErrors_persists "npm ERR! missing script" ""
           ("$ npm start" +:+ nl) nl "" "").
  reflexivity.
Defined.

(** X4. Readiness is found whatever the letter case and stays found as
    output accumulates: if a text contains a readiness keyword in any
    letter case, every text containing it is classified as ready. *)
Theorem isServerReady_persists (out a b keyword variant : string) :
  In keyword serverReadyPatterns ->
  Js.toLowerCase variant = keyword ->
  Js.includes out variant = true ->
  isServerReady (a +:+ out +:+ b) = true.
Proof.
  intros Hin Hvar Hocc. unfold isServerReady. apply existsb_exists.
  exists keyword. split; [exact Hin|].
  assert (Hlow : Js.toLowerCase keyword = keyword).
  { unfold serverReadyPatterns in Hin. simpl in Hin.
    repeat (destruct Hin as [<- | Hin]; [reflexivity|]). destruct Hin. }
  rewrite Hlow, <- Hvar. apply includes_toLowerCase. now apply includes_within.
Qed.

Lemma isServerReady_persists_example :
  isServerReady ("> vite" +:+ nl +:+ "Server LISTENING on :3000" +:+ nl +:+ "GET /") = true.
Proof.
  apply (isServerReady_persists "Server LISTENING on :3000" ("> vite" +:+ nl)
           (nl +:+ "GET /") "listening" "LISTENING").
  - simpl. tauto.
  - reflexivity.
  - reflexivity.
Defined.

(** ** The input probes *)

Section ProbeFacts.

Implicit Types (r : Regex.re) (s pre post out : string) (c x : ascii).

Lemma match_here_unfold r s :
  Regex.match_here r s
  = (Regex.nullable r && Regex.at_eol s)
    || match s with
       | EmptyString => false
       | String c rest => Regex.match_here (Regex.deriv c r) rest
       end.
Proof. destruct s; reflexivity. Qed.

Lemma test_unfold r s :
  Regex.test r s
  = Regex.match_here r s
    || match s with
       | EmptyString => false
       | String _ rest => Regex.test r rest
       end.
Proof. destruct s; reflexivity. Qed.

Lemma match_here_append r s post :
  Regex.match_here r s = true -> Regex.at_eol post = true ->
  Regex.match_here r (s +:+ post) = true.
Proof.
  intros H Hpost. revert r H. induction s as [|c s IH]; intros r H.
  - rewrite append_nil_l. rewrite match_here_unfold in H |- *.
    simpl in H. rewrite orb_false_r, andb_true_r in H. now rewrite H, Hpost.
  - rewrite append_cons. rewrite match_here_unfold in H |- *. simpl in H |- *.
    apply orb_true_iff in H as [H|H]; [now rewrite H|].
    rewrite (IH _ H). apply orb_true_r.
Qed.

Lemma test_append_r r s post :
  Regex.test r s = true -> Regex.at_eol post = true -> Regex.test r (s +:+ post) = true.
Proof.
  intros H Hpost. induction s as [|c s IH].
  - rewrite test_unfold in H |- *. rewrite orb_false_r in H.
    rewrite (match_here_append r "" post H Hpost). reflexivity.
  - rewrite append_cons. rewrite test_unfold in H |- *.
    apply orb_true_iff in H as [H|H].
    + apply (match_here_append r (String c s) post) in H; [|exact Hpost].
      rewrite append_cons in H. now rewrite H.
    + rewrite (IH H). apply orb_true_r.
Qed.

Lemma test_append_l r s pre : Regex.test r s = true -> Regex.test r (pre +:+ s) = true.
Proof.
  intros H. induction pre as [|c pre IH]; [exact H|].
  rewrite append_cons, test_unfold, IH. apply orb_true_r.
Qed.

Lemma isWaiting_probes out :
  isWaiting (isWaitingForInput out)
  = Regex.test inquirer_re out || Regex.test basic_prompt_re out.
Proof.
  unfold isWaitingForInput, inputDetectionPatterns. simpl.
  destruct (Regex.test inquirer_re out); [reflexivity|]. simpl.
  destruct (Regex.test basic_prompt_re out); reflexivity.
Qed.

Lemma basic_prompt_matches c :
  c <> ":"%char -> Regex.match_here basic_prompt_re (String c ": ") = true.
Proof.
  intros Hc. assert (E : Ascii.eqb c ":" = false) by now apply Ascii.eqb_neq.
  unfold basic_prompt_re, Regex.Plus, Regex.not_colon, Regex.lit. simpl.
  rewrite E. simpl. rewrite ?orb_true_r. reflexivity.
Qed.

Lemma needs_not_nullable x r : needs_char x r -> Regex.nullable r = false.
Proof.
  induction r; simpl; try tauto.
  - intros [H|H]; [rewrite (IHr1 H) | rewrite (IHr2 H), andb_false_r]; reflexivity.
  - intros [H1 H2]. now rewrite (IHr1 H1), (IHr2 H2).
Qed.

Lemma needs_deriv x r c : needs_char x r -> c <> x -> needs_char x (Regex.deriv c r).
Proof.
  intros Hr Hc. induction r; simpl in *; try tauto.
  - destruct (p c) eqn:Hp; simpl; [|exact I]. now apply Hr in Hp.
  - destruct Hr as [H|H].
    + rewrite (needs_not_nullable x r1 H). simpl. left. now apply IHr1.
    + destruct (Regex.nullable r1); simpl; [split; [now right | now apply IHr2] | now right].
Qed.

Lemma needs_no_match x r s :
  needs_char x r -> has_char x s = false -> Regex.match_here r s = false.
Proof.
  revert r. induction s as [|c s IH]; intros r Hr Hs; rewrite match_here_unfold;
    rewrite (needs_not_nullable x r Hr); simpl in *; [reflexivity|].
  apply orb_false_iff in Hs as [Hc Hs]. apply IH; [|exact Hs].
  apply needs_deriv; [exact Hr|]. now apply Ascii.eqb_neq.
Qed.

Lemma needs_no_test x r s :
  needs_char x r -> has_char x s = false -> Regex.test r s = false.
Proof.
  intros Hr. induction s as [|c s IH]; intros Hs; rewrite test_unfold;
    rewrite (needs_no_match x r _ Hr Hs); simpl in *; [reflexivity|].
  apply orb_false_iff in Hs as [_ Hs]. now apply IH.
Qed.

Lemma inquirer_needs_question_mark : needs_char "?" inquirer_re.
Proof. simpl. left. intros c Hc. symmetry. now apply Ascii.eqb_eq. Qed.

Lemma basic_prompt_needs_colon : needs_char ":" basic_prompt_re.
Proof. simpl. right. left. intros c Hc. symmetry. now apply Ascii.eqb_eq. Qed.

End ProbeFacts.

(** X5. A line that ends in a colon and a space, after a character that
    is no colon, is a prompt wherever it stands: with any text before it,
    and at the end of the output or before a line break and anything. *)
Theorem trailing_colon_space_is_prompt (pre post : string) (c : ascii) :
  c <> ":"%char -> Regex.at_eol post = true ->
  isWaiting (isWaitingForInput (pre +:+ String c ": " +:+ post)) = true.
Proof.
  intros Hc Hpost. rewrite isWaiting_probes. apply orb_true_iff. right.
  apply test_append_l, test_append_r; [|exact Hpost].
  rewrite test_unfold, (basic_prompt_matches c Hc). reflexivity.
Qed.

Lemma trailing_colon_space_is_prompt_example :
  isWaiting (isWaitingForInput ("Welcome." +:+ nl +:+ "Password: ")) = true.
Proof.
  apply (trailing_colon_space_is_prompt ("Welcome." +:+ nl +:+ "Passwor") "" "d").
  - discriminate.
  - reflexivity.
Defined.

(** X6. A prompt once seen stays seen: when an output is classified as
    waiting for input, so is every output that continues it after a line
    break (or not at all), whatever was printed before it.  The probes run
    on the accumulated output, so later lines do not end the waiting. *)
Theorem waiting_persists (out pre post : string) :
  isWaiting (isWaitingForInput out) = true ->
  Regex.at_eol post = true ->
  isWaiting (isWaitingForInput (pre +:+ out +:+ post)) = true.
Proof.
  rewrite !isWaiting_probes. intros H Hpost.
  apply orb_true_iff in H as [H|H]; apply orb_true_iff; [left | right];
    now apply test_append_l, test_append_r.
Qed.

Lemma waiting_persists_example :
  isWaiting (isWaitingForInput ("Enter name: " +:+ nl +:+ "Hello Alice" +:+ nl +:+ "done")) = true.
Proof.
  apply (waiting_persists "Enter name: " "" (nl +:+ "Hello Alice" +:+ nl +:+ "done"));
    reflexivity.
Defined.

(** X7. An output with no colon and no question mark is never taken for
    a prompt. *)
Theorem no_colon_no_question_mark_is_not_waiting (out : string) :
  has_char ":" out = false -> has_char "?" out = false ->
  isWaitingForInput out = {| isWaiting := false; prompt := None |}.
Proof.
  intros Hcolon Hq. unfold isWaitingForInput, inputDetectionPatterns. simpl.
  rewrite (needs_no_test "?" _ _ inquirer_needs_question_mark Hq).
  rewrite (needs_no_test ":" _ _ basic_prompt_needs_colon Hcolon). reflexivity.
Qed.

Lemma no_colon_no_question_mark_is_not_waiting_example :
  isWaitingForInput ("added 42 packages in 3s" +:+ nl)
  = {| isWaiting := false; prompt := None |}.
Proof.
  apply no_colon_no_question_mark_is_not_waiting; reflexivity.
Defined.

(** ** What every run of the service keeps *)

Section RunInvariants.

Implicit Types (svc : CommandService) (c : Closure) (p : Z) (sys : System).

Lemma aligned_update p u svc :
  tables_aligned svc -> tables_aligned (updateProcessState p u svc).
Proof.
  intros Hal q. unfold updateProcessState.
  destruct (processStates svc !! p) as [cur|] eqn:Hp; [|apply Hal]. simpl.
  destruct (Hal q) as [Hdom Hproc]. destruct (decide (p = q)) as [->|Hne].
  - rewrite lookup_insert_eq. split.
    + rewrite Hdom, Hp. split; eauto.
    + intros st [= <-]. unfold spread_update. simpl.
      destruct (upd_process u); [eauto|]. exact (Hproc cur Hp).
  - rewrite lookup_insert_ne by assumption. split; assumption.
Qed.

Lemma aligned_cleanup p svc : tables_aligned svc -> tables_aligned (cleanup p svc).
Proof.
  intros Hal q. unfold cleanup. simpl. destruct (Hal q) as [Hdom Hproc].
  destruct (decide (p = q)) as [->|Hne].
  - rewrite !lookup_delete_eq. split; [split; intros [? ?]; discriminate | discriminate].
  - rewrite !lookup_delete_ne by assumption. split; assumption.
Qed.

Lemma settled_settle c x r : settled c = Some r -> settled (settle x c) = Some r.
Proof. unfold settle. intros H. now rewrite H. Qed.

Lemma owner_settle c x : owner (settle x c) = owner c.
Proof. unfold settle. destruct (settled c); reflexivity. Qed.

Lemma pid_settle c x : cl_pid (settle x c) = cl_pid c.
Proof. unfold settle. destruct (settled c); reflexivity. Qed.

Create HintDb listeners.
#[local] Hint Resolve aligned_update aligned_cleanup settled_settle : listeners.

Ltac four_parts := split; [|split; [|split]].

Ltac listener_cases :=
  intros svc c; unfold resolve, reject;
  repeat match goal with
         | |- context [match ?x with _ => _ end] =>
             lazymatch x with
             | settled _ => fail
             | _ => destruct x eqn:?
             end
         end;
  simpl; rewrite ?owner_settle, ?pid_settle; simpl;
  four_parts; intros; eauto 8 with listeners.

Lemma keeps_exec_completeWithError e : listener_keeps (exec_completeWithError e).
Proof. unfold exec_completeWithError. listener_cases. Qed.

Lemma keeps_exec_completeWithSuccess cmd : listener_keeps (exec_completeWithSuccess cmd).
Proof. unfold exec_completeWithSuccess. listener_cases. Qed.

Lemma keeps_send_completeWithError e : listener_keeps (send_completeWithError e).
Proof. unfold send_completeWithError. listener_cases. Qed.

Lemma keeps_send_completeWithSuccess proc : listener_keeps (send_completeWithSuccess proc).
Proof. unfold send_completeWithSuccess. listener_cases. Qed.

(** a listener that first changes the state table or its own text and then
    ends in one of the four completions *)
Lemma keeps_after f svc c svc1 c1 :
  listener_keeps f ->
  (tables_aligned svc -> tables_aligned svc1) ->
  settled c1 = settled c -> owner c1 = owner c -> cl_pid c1 = cl_pid c ->
  (tables_aligned svc -> tables_aligned (fst (f (svc1, c1))))
  /\ (forall r, settled c = Some r -> settled (snd (f (svc1, c1))) = Some r)
  /\ owner (snd (f (svc1, c1))) = owner c
  /\ cl_pid (snd (f (svc1, c1))) = cl_pid c.
Proof.
  intros Hf Hsvc Hs Ho Hp. destruct (Hf svc1 c1) as (H1 & H2 & H3 & H4).
  four_parts; [auto | | congruence | congruence].
  intros r Hr. apply H2. congruence.
Qed.

Lemma keeps_idle svc c svc1 c1 :
  (tables_aligned svc -> tables_aligned svc1) ->
  settled c1 = settled c -> owner c1 = owner c -> cl_pid c1 = cl_pid c ->
  (tables_aligned svc -> tables_aligned (fst (svc1, c1)))
  /\ (forall r, settled c = Some r -> settled (snd (svc1, c1)) = Some r)
  /\ owner (snd (svc1, c1)) = owner c
  /\ cl_pid (snd (svc1, c1)) = cl_pid c.
Proof. intros. simpl. four_parts; auto. congruence. Qed.

Ltac listener_body :=
  intros svc c;
  repeat match goal with
         | |- context [match ?x with _ => _ end] => destruct x eqn:?
         | |- context [if ?x then _ else _] => destruct x eqn:?
         end;
  first [ apply keeps_after;
          [ first [ apply keeps_exec_completeWithError | apply keeps_exec_completeWithSuccess
                  | apply keeps_send_completeWithError | apply keeps_send_completeWithSuccess ]
          | eauto 8 with listeners | reflexivity | reflexivity | reflexivity ]
        | apply keeps_idle; [ eauto 8 with listeners | reflexivity | reflexivity | reflexivity ] ].

Lemma keeps_exec_on_stdout cmd chunk : listener_keeps (exec_on_stdout cmd chunk).
Proof. unfold exec_on_stdout. listener_body. Qed.

Lemma keeps_exec_on_stderr chunk : listener_keeps (exec_on_stderr chunk).
Proof. unfold exec_on_stderr. listener_body. Qed.

Lemma keeps_exec_on_error e : listener_keeps (exec_on_error e).
Proof. unfold exec_on_error. apply keeps_exec_completeWithError. Qed.

Lemma keeps_exec_on_exit cmd code : listener_keeps (exec_on_exit cmd code).
Proof. unfold exec_on_exit. listener_body. Qed.

Lemma keeps_exec_on_timeout cmd : listener_keeps (exec_on_timeout cmd).
Proof. unfold exec_on_timeout. listener_body. Qed.

Lemma keeps_send_on_stdout state proc chunk : listener_keeps (send_on_stdout state proc chunk).
Proof. unfold send_on_stdout. listener_body. Qed.

Lemma keeps_send_on_stderr state chunk : listener_keeps (send_on_stderr state chunk).
Proof. unfold send_on_stderr. listener_body. Qed.

Lemma keeps_send_on_error e : listener_keeps (send_on_error e).
Proof. unfold send_on_error. apply keeps_send_completeWithError. Qed.

Lemma keeps_send_on_timeout proc : listener_keeps (send_on_timeout proc).
Proof. unfold send_on_timeout. listener_body. Qed.

Lemma keeps_send_on_exit state proc code : listener_keeps (send_on_exit state proc code).
Proof.
  intros svc c. unfold send_on_exit.
  set (svc1 := updateProcessState _ _ svc).
  assert (H1 : tables_aligned svc -> tables_aligned svc1) by apply aligned_update.
  destruct (negb (checkForErrors _ _) && code_is_0 code).
  - destruct (keeps_send_completeWithSuccess proc svc1 c) as (Ha & Hs & Ho & Hp).
    destruct (send_completeWithSuccess proc (svc1, c)) as [svc2 c2]. simpl in *.
    four_parts; auto with listeners.
  - destruct (negb (isCompleted c)).
    + destruct (keeps_send_completeWithError
                  ("Process exited with code " +:+ show_code code +:+ failure_text c) svc1 c)
        as (Ha & Hs & Ho & Hp).
      destruct (send_completeWithError _ (svc1, c)) as [svc2 c2]. simpl in *.
      four_parts; auto with listeners.
    + simpl. four_parts; auto with listeners.
Qed.

Lemma run_listener_aligned call f sys :
  (forall c, listener_keeps (f c)) ->
  tables_aligned (service sys) -> tables_aligned (service (run_listener call f sys)).
Proof.
  intros Hf Hal. unfold run_listener.
  destruct (closures sys !! call) as [c|]; [|exact Hal].
  destruct (Hf c (service sys) c) as (Ha & _).
  destruct (f c (service sys, c)) as [svc' c']. simpl in *. auto.
Qed.

Lemma step_listeners ev :
  match ev with
  | StdoutData _ chunk =>
      forall c, listener_keeps
        match owner c with
        | OfExecuteCommand cmd => exec_on_stdout cmd chunk
        | OfSendInput state proc => send_on_stdout state proc chunk
        end
  | StderrData _ chunk =>
      forall c, listener_keeps
        match owner c with
        | OfExecuteCommand _ => exec_on_stderr chunk
        | OfSendInput state _ => send_on_stderr state chunk
        end
  | ProcessError _ e =>
      forall c, listener_keeps
        match owner c with
        | OfExecuteCommand _ => exec_on_error e
        | OfSendInput _ _ => send_on_error e
        end
  | ProcessExit _ code =>
      forall c, listener_keeps
        match owner c with
        | OfExecuteCommand cmd => exec_on_exit cmd code
        | OfSendInput state proc => send_on_exit state proc code
        end
  | TimerFired _ =>
      forall c, listener_keeps
        match owner c with
        | OfExecuteCommand cmd => exec_on_timeout cmd
        | OfSendInput _ proc => send_on_timeout proc
        end
  end.
Proof.
  destruct ev; intros c; destruct (owner c);
    auto using keeps_exec_on_stdout, keeps_send_on_stdout, keeps_exec_on_stderr,
      keeps_send_on_stderr, keeps_exec_on_error, keeps_send_on_error, keeps_exec_on_exit,
      keeps_send_on_exit, keeps_exec_on_timeout, keeps_send_on_timeout.
Qed.

Lemma step_aligned ev sys :
  tables_aligned (service sys) -> tables_aligned (service (step ev sys)).
Proof.
  intros Hal. pose proof (step_listeners ev) as Hf.
  destruct ev; simpl; unfold on_attached;
    try destruct (attached sys !! p); auto using run_listener_aligned.
Qed.

Lemma aligned_start p info proc svc :
  tables_aligned svc ->
  tables_aligned
    (updateProcessState p
       {| upd_isRunning := None; upd_hasError := None; upd_output := None;
          upd_process := Some proc |}
       (set_runningProcesses (<[p := info]> (runningProcesses (initializeProcessState p svc)))
          (initializeProcessState p svc))).
Proof.
  intros Hal q. unfold updateProcessState, initializeProcessState. simpl.
  rewrite lookup_insert_eq. simpl. destruct (Hal q) as [Hdom Hproc].
  destruct (decide (p = q)) as [->|Hne].
  - rewrite !lookup_insert_eq. split; [split; eauto|].
    intros st [= <-]. simpl. eauto.
  - rewrite !lookup_insert_ne by assumption. split; assumption.
Qed.

Lemma perform_aligned a sys :
  tables_aligned (service sys) -> tables_aligned (service (perform a sys)).
Proof.
  intros Hal. destruct a as [input spawned now|input|kill p|newConfig|ev]; simpl.
  - unfold executeCommand.
    destruct (negb (isCommandAllowed _ _)); [exact Hal|].
    destruct spawned as [p|]; [|exact Hal]. simpl. now apply aligned_start.
  - unfold sendInput. destruct (processStates (service sys) !! in_pid input) as [state|]; [|exact Hal].
    destruct (process state); exact Hal.
  - unfold stopProcess. destruct (runningProcesses (service sys) !! p); [|exact Hal].
    destruct (kill (- p)); simpl; [now apply aligned_cleanup | exact Hal].
  - exact Hal.
  - now apply step_aligned.
Qed.

Lemma perform_all_aligned actions sys :
  tables_aligned (service sys) -> tables_aligned (service (perform_all actions sys)).
Proof.
  revert sys. induction actions as [|a rest IH]; intros sys Hal; [exact Hal|].
  simpl. apply IH. now apply perform_aligned.
Qed.

Lemma new_service_aligned cfg : tables_aligned (new_service cfg).
Proof.
  intros p. simpl. rewrite !lookup_empty. split; [split; intros [? ?]; discriminate | discriminate].
Qed.

Lemma sendInput_accepts_tracked input sys :
  tables_aligned (service sys) ->
  (exists call, snd (fst (sendInput input sys)) = Returned call)
  <-> is_Some (runningProcesses (service sys) !! in_pid input).
Proof.
  intros Hal. destruct (Hal (in_pid input)) as [Hdom Hproc]. rewrite Hdom.
  unfold sendInput. destruct (processStates (service sys) !! in_pid input) as [state|] eqn:Hst.
  - destruct (Hproc state eq_refl) as [proc ->]. simpl. split; eauto.
  - simpl. split; [intros [? ?]; discriminate | intros [? ?]; discriminate].
Qed.

End RunInvariants.

(** X9. In every state the service can reach from its construction, the two
    tables [runningProcesses] and [processStates] hold the same pids and
    every tracked state has its process handle; hence [sendInput] is
    accepted exactly for the pids that [runningProcesses] holds. *)
Theorem tables_stay_aligned (cfg : CommandConfig) (actions : list Action) :
  let sys := perform_all actions (new_system cfg) in
  tables_aligned (service sys)
  /\ forall input,
       (exists call, snd (fst (sendInput input sys)) = Returned call)
       <-> is_Some (runningProcesses (service sys) !! in_pid input).
Proof.
  intros sys.
  assert (Hal : tables_aligned (service sys)).
  { apply perform_all_aligned. apply new_service_aligned. }
  split; [exact Hal|]. intros input. now apply sendInput_accepts_tracked.
Qed.

(** ** One call of [executeCommand], event by event *)

Section ExecutionFacts.

Implicit Types (svc : CommandService) (c : Closure) (p : Z) (sys : System) (call : nat).

Lemma run_listener_at call f sys c :
  closures sys !! call = Some c ->
  run_listener call f sys
  = {| service := fst (f c (service sys, c));
       closures := <[call := snd (f c (service sys, c))]> (closures sys);
       attached := attached sys |}.
Proof.
  intros Hc. unfold run_listener. rewrite Hc. now destruct (f c (service sys, c)).
Qed.

Lemma promise_at svc' (cs : list Closure) att call c c' :
  cs !! call = Some c ->
  promise {| service := svc'; closures := <[call := c']> cs; attached := att |} call = settled c'.
Proof.
  intros Hc. unfold promise. simpl.
  now rewrite list_lookup_insert_eq by (eapply lookup_lt_Some; exact Hc).
Qed.

Lemma closure_at (cs : list Closure) call c c' : cs !! call = Some c -> <[call := c']> cs !! call = Some c'.
Proof. intros Hc. apply list_lookup_insert_eq. eapply lookup_lt_Some; exact Hc. Qed.

Lemma update_present p u svc st :
  processStates svc !! p = Some st ->
  processStates (updateProcessState p u svc) !! p = Some (spread_update st u)
  /\ runningProcesses (updateProcessState p u svc) = runningProcesses svc.
Proof.
  intros Hst. unfold updateProcessState. rewrite Hst. simpl.
  now rewrite lookup_insert_eq.
Qed.

Lemma update_absent p u svc : processStates svc !! p = None -> updateProcessState p u svc = svc.
Proof. intros Hst. unfold updateProcessState. now rewrite Hst. Qed.

Lemma settle_default x c : settled (settle x c) = Some (default x (settled c)).
Proof. unfold settle. destruct (settled c) eqn:E; simpl; [exact E | reflexivity]. Qed.

Lemma executeCommand_starts input p now sys :
  isCommandAllowed (config (service sys)) (in_command input) = true ->
  let call := length (closures sys) in
  let sys' := fst (executeCommand input (Some p) now sys) in
  snd (executeCommand input (Some p) now sys) = Returned call
  /\ executing sys' p call (in_command input) "" "" None
  /\ session sys' p
     = Some {| isRunning := true; hasError := false;
               output := {| stdout := ""; stderr := ""; code := None |};
               process := Some {| child_pid := p;
                                  spawnargs := [shell (config (service sys)); "-ic";
                                                in_command input] |} |}.
Proof.
  intros Hallowed. unfold executeCommand. rewrite Hallowed. simpl.
  split; [reflexivity|]. split.
  - split; simpl; [apply lookup_insert_eq|].
    now rewrite lookup_app_r, Nat.sub_diag by lia.
  - unfold session, updateProcessState, initializeProcessState. simpl.
    rewrite lookup_insert_eq. simpl. now rewrite lookup_insert_eq.
Qed.

Lemma on_attached_at p call f sys c :
  attached sys !! p = Some call -> closures sys !! call = Some c ->
  on_attached p f sys
  = {| service := fst (f c (service sys, c));
       closures := <[call := snd (f c (service sys, c))]> (closures sys);
       attached := attached sys |}.
Proof. intros Ha Hc. unfold on_attached. rewrite Ha. now apply run_listener_at. Qed.

Lemma exec_completeWithError_pending message svc c :
  isCompleted c = false ->
  exec_completeWithError message (svc, c)
  = (cleanup (cl_pid c) svc, reject message (set_isCompleted true c)).
Proof. intros Hc. unfold exec_completeWithError. now rewrite Hc. Qed.

End ExecutionFacts.

Ltac enter_listener Hex :=
  let Ha := fresh "Hattached" in
  let Hc := fresh "Hclosure" in
  destruct Hex as [Ha Hc];
  unfold step; try rewrite (on_attached_at _ _ _ _ _ Ha Hc);
  try rewrite (run_listener_at _ _ _ _ Hc);
  cbn [owner].

(** X10. [executeCommand] fails fast: as soon as one chunk of stdout or of
    stderr carries an error marker, the session is removed from both
    tables, and a promise that is still pending is rejected with
    'Command failed: ' and the output so far. *)
Theorem error_marker_fails_fast (sys : System) (p : Z) (call : nat) (cmd out err chunk : string)
    (s : option (result CommandExecutionResult)) (st : ProcessState) :
  executing sys p call cmd out err s ->
  session sys p = Some st ->
  (checkForErrors chunk "" = true ->
   let sys' := step (StdoutData p chunk) sys in
   promise sys' call
   = Some (default (Threw ("Command failed: " +:+ nl +:+ (out +:+ chunk) +:+ nl +:+ err)) s)
   /\ session sys' p = None
   /\ runningProcesses (service sys') !! p = None)
  /\ (checkForErrors "" chunk = true ->
      let sys' := step (StderrData p chunk) sys in
      promise sys' call
      = Some (default (Threw ("Command failed: " +:+ nl +:+ out +:+ nl +:+ (err +:+ chunk))) s)
      /\ session sys' p = None
      /\ runningProcesses (service sys') !! p = None).
Proof.
  intros Hex Hst. unfold session in Hst. split; intros Hmarker sys'; subst sys'.
  - enter_listener Hex. unfold exec_on_stdout.
    cbn [cl_pid currentOutput currentError set_currentOutput]. rewrite Hst, Hmarker.
    rewrite exec_completeWithError_pending by reflexivity.
    cbn [fst snd cl_pid]. split; [|split].
    + rewrite (promise_at _ _ _ _ _ _ Hclosure). unfold reject. now rewrite settle_default.
    + apply cleanup_purges.
    + apply cleanup_purges.
  - enter_listener Hex. unfold exec_on_stderr.
    cbn [cl_pid currentOutput currentError set_currentError]. rewrite Hst, Hmarker.
    rewrite exec_completeWithError_pending by reflexivity.
    cbn [fst snd cl_pid]. split; [|split].
    + rewrite (promise_at _ _ _ _ _ _ Hclosure). unfold reject. now rewrite settle_default.
    + apply cleanup_purges.
    + apply cleanup_purges.
Qed.

Section ExecutionSteps.

Implicit Types (svc : CommandService) (c : Closure) (p : Z) (sys : System) (call : nat).

Lemma quiet_parts out :
  quiet out = true -> isWaiting (isWaitingForInput out) = false /\ isServerReady out = false.
Proof.
  unfold quiet. intros H. apply andb_true_iff in H as [H1 H2].
  now apply negb_true_iff in H1, H2.
Qed.

Lemma with_stdout_same st : with_stdout (stdout (output st)) st = st.
Proof. now destruct st as [? ? [? ? ?] ?]. Qed.

Lemma quiet_chunk_step sys p call cmd out err chunk s st :
  executing sys p call cmd out err s ->
  session sys p = Some st ->
  checkForErrors chunk "" = false ->
  quiet (out +:+ chunk) = true ->
  executing (step (StdoutData p chunk) sys) p call cmd (out +:+ chunk) err s
  /\ session (step (StdoutData p chunk) sys) p = Some (with_stdout (out +:+ chunk) st)
  /\ runningProcesses (service (step (StdoutData p chunk) sys)) = runningProcesses (service sys).
Proof.
  intros Hex Hst Hclean Hquiet. unfold session in Hst.
  destruct (quiet_parts _ Hquiet) as [Hw Hr].
  enter_listener Hex. unfold exec_on_stdout.
  cbn [cl_pid currentOutput currentError set_currentOutput]. rewrite Hst, Hclean, Hw, Hr.
  cbn [orb fst snd]. split; [|split].
  - split; [exact Hattached|]. cbn [closures]. now apply (closure_at _ _ _ _ Hclosure).
  - unfold session. cbn [service].
    destruct (update_present p
      {| upd_isRunning := None; upd_hasError := None;
         upd_output := Some {| stdout := out +:+ chunk; stderr := stderr (output st);
                               code := code (output st) |};
         upd_process := None |} _ _ Hst) as [-> _].
    reflexivity.
  - cbn [service]. eapply update_present. exact Hst.
Qed.

End ExecutionSteps.

(** X11. Output that shows no error marker, no prompt and no readiness
    keyword only accumulates: after any number of such chunks the call is
    still running with the same promise, the stored stdout is the text
    received so far, and [runningProcesses] is unchanged. *)
Theorem quiet_output_accumulates (chunks : list string) (sys : System) (p : Z) (call : nat)
    (cmd out err : string) (s : option (result CommandExecutionResult)) (st : ProcessState) :
  executing sys p call cmd out err s ->
  session sys p = Some st ->
  stdout (output st) = out ->
  quiet_chunks out chunks = true ->
  let sys' := run (stdout_events p chunks) sys in
  executing sys' p call cmd (out +:+ joined chunks) err s
  /\ session sys' p = Some (with_stdout (out +:+ joined chunks) st)
  /\ runningProcesses (service sys') = runningProcesses (service sys).
Proof.
  revert sys out st. induction chunks as [|chunk rest IH]; intros sys out st Hex Hst Hout Hq sys';
    subst sys'.
  - simpl. rewrite append_nil_r, <- Hout, with_stdout_same. now rewrite Hout.
  - simpl in Hq. apply andb_true_iff in Hq as [Hq Hrest]. apply andb_true_iff in Hq as [Hc Hq].
    apply negb_true_iff in Hc.
    destruct (quiet_chunk_step sys p call cmd out err chunk s st Hex Hst Hc Hq) as (Hex1 & Hst1 & Hrun1).
    change (run (stdout_events p (chunk :: rest)) sys)
      with (run (stdout_events p rest) (step (StdoutData p chunk) sys)).
    destruct (IH _ _ _ Hex1 Hst1 eq_refl Hrest) as (Hex2 & Hst2 & Hrun2).
    cbn [joined]. rewrite <- append_assoc. split; [exact Hex2|]. split; [|now rewrite Hrun2].
    rewrite Hst2. reflexivity.
Qed.

(** X12. A process that exits with code 0 after output without error marker,
    prompt or readiness keyword completes the call: the session is removed
    from both tables and a pending promise is resolved with the whole
    output and exit code 0. *)
Theorem clean_exit_completes (sys : System) (p : Z) (call : nat) (cmd out err : string)
    (s : option (result CommandExecutionResult)) (st : ProcessState) :
  executing sys p call cmd out err s ->
  session sys p = Some st ->
  checkForErrors out err = false ->
  quiet out = true ->
  let sys' := step (ProcessExit p (Some 0)) sys in
  promise sys' call = Some (default (Returned (execution_result p cmd out err 0 None None)) s)
  /\ session sys' p = None
  /\ runningProcesses (service sys') !! p = None.
Proof.
  intros Hex Hst Hclean Hquiet sys'. subst sys'. unfold session in Hst.
  destruct (quiet_parts _ Hquiet) as [Hw Hr].
  enter_listener Hex. unfold exec_on_exit.
  cbn [cl_pid currentOutput currentError]. rewrite Hst, Hclean.
  cbn [negb code_is_0 Z.eqb andb]. unfold exec_completeWithSuccess.
  cbn [isCompleted cl_pid currentOutput].
  match goal with
  | |- context [updateProcessState p ?u (service sys)] =>
      destruct (update_present p u _ _ Hst) as [-> _]
  end.
  rewrite Hw, Hr. cbn [fst snd cl_pid set_isCompleted]. split; [|split].
  - rewrite (promise_at _ _ _ _ _ _ Hclosure). unfold resolve. now rewrite settle_default.
  - apply cleanup_purges.
  - apply cleanup_purges.
Qed.

(** X13. An exit with another code than 0 (or with none, after a signal), or
    an exit after output in which an error marker can be found, ends the
    call as a failure: the session is removed from both tables and a
    pending promise is rejected with 'Process exited with code ...' and
    the output. *)
Theorem failing_exit_rejects (sys : System) (p : Z) (call : nat) (cmd out err : string)
    (exit_code : option Z) (s : option (result CommandExecutionResult)) (st : ProcessState) :
  executing sys p call cmd out err s ->
  session sys p = Some st ->
  checkForErrors out err = true \/ exit_code <> Some 0 ->
  let sys' := step (ProcessExit p exit_code) sys in
  promise sys' call
  = Some (default (Threw ("Process exited with code " +:+ show_code exit_code
                          +:+ nl +:+ out +:+ nl +:+ err)) s)
  /\ session sys' p = None
  /\ runningProcesses (service sys') !! p = None.
Proof.
  intros Hex Hst Hfail sys'. subst sys'. unfold session in Hst.
  assert (Hcond : negb (checkForErrors out err) && code_is_0 exit_code = false).
  { destruct Hfail as [-> | Hcode]; [reflexivity|].
    apply andb_false_iff. right. destruct exit_code as [z|]; [|reflexivity].
    simpl. apply Z.eqb_neq. congruence. }
  enter_listener Hex. unfold exec_on_exit.
  cbn [cl_pid currentOutput currentError isCompleted]. rewrite Hst, Hcond.
  cbn [negb]. rewrite exec_completeWithError_pending by reflexivity.
  cbn [fst snd cl_pid]. split; [|split].
  - rewrite (promise_at _ _ _ _ _ _ Hclosure). unfold reject. now rewrite settle_default.
  - apply cleanup_purges.
  - apply cleanup_purges.
Qed.

(** X14. A chunk after which the output shows a prompt resolves a pending
    promise with [requiresInput: true] and the prompt, and keeps the
    session: the call stays attached and not completed, the session
    stays in both tables, and [sendInput] for this pid is accepted and
    writes the input followed by a newline. *)
Theorem prompt_resolves_and_keeps_session (sys : System) (p : Z) (call : nat)
    (cmd out err chunk text : string) (s : option (result CommandExecutionResult))
    (st : ProcessState) (proc : ChildProcess) :
  executing sys p call cmd out err s ->
  session sys p = Some st ->
  process st = Some proc ->
  checkForErrors chunk "" = false ->
  isWaiting (isWaitingForInput (out +:+ chunk)) = true ->
  let sys' := step (StdoutData p chunk) sys in
  let answer :=
    default (Returned (execution_result p cmd (out +:+ chunk) err 0 (Some true)
                         (prompt (isWaitingForInput (out +:+ chunk))))) s in
  promise sys' call = Some answer
  /\ executing sys' p call cmd (out +:+ chunk) err (Some answer)
  /\ session sys' p = Some (with_stdout (out +:+ chunk) st)
  /\ runningProcesses (service sys') = runningProcesses (service sys)
  /\ snd (fst (sendInput {| in_pid := p; stdin := text |} sys')) = Returned (length (closures sys'))
  /\ snd (sendInput {| in_pid := p; stdin := text |} sys') = Some (text +:+ nl).
Proof.
  intros Hex Hst Hproc Hclean Hwait sys' answer. subst sys' answer. unfold session in Hst.
  assert (Hst' : processStates
                   (updateProcessState p
                      {| upd_isRunning := None; upd_hasError := None;
                         upd_output := Some {| stdout := out +:+ chunk;
                                               stderr := stderr (output st);
                                               code := code (output st) |};
                         upd_process := None |} (service sys)) !! p
                 = Some (with_stdout (out +:+ chunk) st)).
  { now destruct (update_present p
      {| upd_isRunning := None; upd_hasError := None;
         upd_output := Some {| stdout := out +:+ chunk; stderr := stderr (output st);
                               code := code (output st) |};
         upd_process := None |} _ _ Hst) as [-> _]. }
  enter_listener Hex. unfold exec_on_stdout, set_currentOutput.
  cbn [cl_pid currentOutput currentError isCompleted owner settled].
  rewrite Hst, Hclean, Hwait.
  cbn [orb]. unfold exec_completeWithSuccess. cbn [isCompleted cl_pid currentOutput].
  rewrite Hst', Hwait. cbn [fst snd].
  assert (Hsettled :
    settled (resolve
      (exec_result cmd
         {| owner := OfExecuteCommand cmd; cl_pid := p; currentOutput := out +:+ chunk;
            currentError := err; isCompleted := false; settled := s |} 0 (Some true)
         (prompt (isWaitingForInput (out +:+ chunk))))
      {| owner := OfExecuteCommand cmd; cl_pid := p; currentOutput := out +:+ chunk;
         currentError := err; isCompleted := false; settled := s |})
    = Some (default (Returned (execution_result p cmd (out +:+ chunk) err 0 (Some true)
                                 (prompt (isWaitingForInput (out +:+ chunk))))) s)).
  { unfold resolve. now rewrite settle_default. }
  split; [|split; [|split; [|split; [|split]]]].
  - rewrite (promise_at _ _ _ _ _ _ Hclosure). exact Hsettled.
  - split; [exact Hattached|]. cbn [closures].
    rewrite (closure_at _ _ _ _ Hclosure). f_equal.
    unfold resolve, settle. cbn [settled]. destruct s; reflexivity.
  - unfold session. cbn [service]. exact Hst'.
  - cbn [service]. eapply update_present. exact Hst.
  - unfold sendInput. cbn [service in_pid]. rewrite Hst'. cbn [process with_stdout].
    rewrite Hproc. reflexivity.
  - unfold sendInput. cbn [service in_pid]. rewrite Hst'. cbn [process with_stdout].
    rewrite Hproc. reflexivity.
Qed.

(** X15. The timer of [executeCommand] never ends a session whose output
    holds a readiness keyword: when it fires, both tables are left as they
    are and the call stays not completed; a promise still pending is
    resolved with exit code 0. *)
Theorem ready_server_survives_timer (sys : System) (p : Z) (call : nat) (cmd out err : string)
    (s : option (result CommandExecutionResult)) (st : ProcessState) :
  closures sys !! call
  = Some {| owner := OfExecuteCommand cmd; cl_pid := p; currentOutput := out;
            currentError := err; isCompleted := false; settled := s |} ->
  session sys p = Some st ->
  hasError st = false ->
  isServerReady out = true ->
  let sys' := step (TimerFired call) sys in
  let w := isWaitingForInput out in
  let answer :=
    default (Returned (execution_result p cmd out err 0
                         (if isWaiting w then Some true else None)
                         (if isWaiting w then prompt w else None))) s in
  service sys' = service sys
  /\ promise sys' call = Some answer
  /\ closures sys' !! call
     = Some {| owner := OfExecuteCommand cmd; cl_pid := p; currentOutput := out;
               currentError := err; isCompleted := false; settled := Some answer |}.
Proof.
  intros Hclosure Hst Hok Hready sys' w answer. subst sys' w answer. unfold session in Hst.
  unfold step. rewrite (run_listener_at _ _ _ _ Hclosure). cbn [owner].
  unfold exec_on_timeout.
  cbn [cl_pid currentOutput currentError isCompleted]. rewrite Hst, Hok, Hready.
  cbn [orb]. unfold exec_completeWithSuccess. cbn [isCompleted cl_pid currentOutput].
  rewrite Hst, Hready.
  destruct (isWaiting (isWaitingForInput out)) eqn:Hw; cbn [fst snd];
    (split; [reflexivity|]; split;
     [ rewrite (promise_at _ _ _ _ _ _ Hclosure); unfold resolve; now rewrite settle_default
     | cbn [closures];
       rewrite (closure_at _ _ _ _ Hclosure); f_equal;
       unfold resolve, settle; cbn [settled]; destruct s; reflexivity ]).
Qed.

(** X16. When the timer of [executeCommand] fires on a call that has not
    completed and whose output holds no readiness keyword, the session is
    removed from both tables, also when the promise was resolved with a
    prompt before and whatever call is attached to the process by then; a
    pending promise is rejected with 'Command timed out', or with
    'Command failed to start: ' after an error was recorded. *)
Theorem timer_ends_session (sys : System) (p : Z) (call : nat) (cmd out err : string)
    (s : option (result CommandExecutionResult)) (st : ProcessState) :
  closures sys !! call
  = Some {| owner := OfExecuteCommand cmd; cl_pid := p; currentOutput := out;
            currentError := err; isCompleted := false; settled := s |} ->
  session sys p = Some st ->
  hasError st = true \/ isServerReady out = false ->
  let sys' := step (TimerFired call) sys in
  promise sys' call
  = Some (default (Threw (if hasError st
                          then "Command failed to start: " +:+ nl +:+ err
                          else "Command timed out")) s)
  /\ session sys' p = None
  /\ runningProcesses (service sys') !! p = None.
Proof.
  intros Hclosure Hst Hcase sys'. subst sys'. unfold session in Hst.
  unfold step. rewrite (run_listener_at _ _ _ _ Hclosure). cbn [owner].
  unfold exec_on_timeout.
  cbn [cl_pid currentOutput currentError isCompleted]. rewrite Hst.
  destruct (hasError st) eqn:Herr.
  - rewrite exec_completeWithError_pending by reflexivity.
    cbn [fst snd cl_pid]. split; [|split].
    + rewrite (promise_at _ _ _ _ _ _ Hclosure). unfold reject. now rewrite settle_default.
    + apply cleanup_purges.
    + apply cleanup_purges.
  - destruct Hcase as [Hcase | Hready]; [discriminate|].
    rewrite timeout_condition, Hready.
    rewrite exec_completeWithError_pending by reflexivity.
    cbn [fst snd cl_pid]. split; [|split].
    + rewrite (promise_at _ _ _ _ _ _ Hclosure). unfold reject. now rewrite settle_default.
    + apply cleanup_purges.
    + apply cleanup_purges.
Qed.

(** ** One call of [sendInput], event by event *)

Section AnswerFacts.

Implicit Types (svc : CommandService) (c : Closure) (p : Z) (sys : System) (call : nat).

Lemma sendInput_starts p text sys state proc :
  session sys p = Some state ->
  process state = Some proc ->
  let call := length (closures sys) in
  let sys' := fst (fst (sendInput {| in_pid := p; stdin := text |} sys)) in
  sendInput {| in_pid := p; stdin := text |} sys = (sys', Returned call, Some (text +:+ nl))
  /\ answering sys' p call state proc (stdout (output state)) (stderr (output state)) false None
  /\ service sys' = service sys.
Proof.
  unfold session. intros Hst Hproc. unfold sendInput. cbn [in_pid stdin].
  rewrite Hst, Hproc. cbn [fst snd]. split; [reflexivity|]. split; [|reflexivity].
  split; cbn [attached closures]; [apply lookup_insert_eq|].
  now rewrite lookup_app_r, Nat.sub_diag by lia.
Qed.

Lemma send_completeWithError_pending message svc c :
  isCompleted c = false ->
  send_completeWithError message (svc, c) = (svc, reject message (set_isCompleted true c)).
Proof. intros Hc. unfold send_completeWithError. now rewrite Hc. Qed.

Lemma cleanup_update p u svc : cleanup p (updateProcessState p u svc) = cleanup p svc.
Proof.
  unfold updateProcessState. destruct (processStates svc !! p); [|reflexivity].
  unfold cleanup. simpl. now rewrite delete_insert_eq.
Qed.

End AnswerFacts.

(** X17. The exit listener of [sendInput] always ends the session: whatever
    the exit code and the output, the pid leaves both tables and nothing
    else in them changes; a call that has not completed is settled,
    resolved with exit code 0 when the code is 0 and no error marker is in
    the output, rejected with 'Process exited with code ...' otherwise. *)
Theorem sendInput_exit_ends_session (sys : System) (p : Z) (call : nat) (state : ProcessState)
    (proc : ChildProcess) (out err : string) (exit_code : option Z) (completed : bool)
    (s : option (result CommandExecutionResult)) :
  answering sys p call state proc out err completed s ->
  let sys' := step (ProcessExit p exit_code) sys in
  let w := isWaitingForInput out in
  service sys' = cleanup p (service sys)
  /\ promise sys' call
     = if completed then s
       else Some (default
                    (if negb (checkForErrors out err) && code_is_0 exit_code
                     then Returned (execution_result p (String.concat " " (spawnargs proc))
                                      out err 0 (Some (isWaiting w))
                                      (if isWaiting w then prompt w else None))
                     else Threw ("Process exited with code " +:+ show_code exit_code
                                 +:+ nl +:+ out +:+ nl +:+ err)) s).
Proof.
  intros Hex sys' w. subst sys' w. enter_listener Hex. unfold send_on_exit.
  cbn [cl_pid currentOutput currentError isCompleted].
  unfold send_completeWithSuccess, send_completeWithError. cbn [isCompleted].
  destruct completed.
  - destruct (negb (checkForErrors out err) && code_is_0 exit_code); cbn [negb fst snd];
      (split; [apply cleanup_update | now rewrite (promise_at _ _ _ _ _ _ Hclosure)]).
  - destruct (negb (checkForErrors out err) && code_is_0 exit_code);
      cbn [negb isCompleted set_isCompleted currentOutput fst snd];
      (split; [apply cleanup_update|]);
      rewrite (promise_at _ _ _ _ _ _ Hclosure); unfold resolve, reject;
      now rewrite settle_default.
Qed.

(** X18. An error marker seen by the listeners of [sendInput] rejects a
    pending promise with 'Command failed: ' but, unlike in
    [executeCommand], keeps the session: [runningProcesses] is unchanged
    and the state stays in the table, now with [hasError] set. *)
Theorem sendInput_error_keeps_session (sys : System) (p : Z) (call : nat) (state st : ProcessState)
    (proc : ChildProcess) (out err chunk : string) (s : option (result CommandExecutionResult)) :
  answering sys p call state proc out err false s ->
  session sys p = Some st ->
  checkForErrors chunk "" = true ->
  let sys' := step (StdoutData p chunk) sys in
  promise sys' call
  = Some (default (Threw ("Command failed: " +:+ nl +:+ (out +:+ chunk) +:+ nl +:+ err)) s)
  /\ session sys' p
     = Some {| isRunning := isRunning st; hasError := true;
               output := {| stdout := out +:+ chunk; stderr := stderr (output state);
                            code := code (output state) |};
               process := process st |}
  /\ runningProcesses (service sys') = runningProcesses (service sys).
Proof.
  intros Hex Hst Hmarker sys'. subst sys'. unfold session in Hst.
  enter_listener Hex. unfold send_on_stdout, set_currentOutput.
  cbn [cl_pid currentOutput currentError isCompleted owner settled]. rewrite Hmarker.
  rewrite send_completeWithError_pending by reflexivity. cbn [fst snd].
  match goal with
  | |- context [updateProcessState p ?u2 (updateProcessState p ?u1 (service sys))] =>
      destruct (update_present p u1 _ _ Hst) as [Hst1 Hrun1];
      destruct (update_present p u2 _ _ Hst1) as [Hst2 Hrun2]
  end.
  split; [|split].
  - rewrite (promise_at _ _ _ _ _ _ Hclosure). unfold reject. now rewrite settle_default.
  - unfold session. cbn [service]. rewrite Hst2. reflexivity.
  - cbn [service]. now rewrite Hrun2, Hrun1.
Qed.

(** X19. The listeners of [sendInput] write the stored output from the
    state captured when the call was made: a chunk of stderr that follows
    a chunk of stdout puts the stdout of before the call back into the
    table, although the call itself holds both chunks. *)
Theorem sendInput_stderr_restores_captured_stdout (sys : System) (p : Z) (text a b : string)
    (state : ProcessState) (proc : ChildProcess) :
  session sys p = Some state ->
  process state = Some proc ->
  checkForErrors a "" = false ->
  quiet (stdout (output state) +:+ a) = true ->
  checkForErrors "" b = false ->
  let sys' :=
    run [StdoutData p a; StderrData p b]
      (fst (fst (sendInput {| in_pid := p; stdin := text |} sys))) in
  session sys' p
  = Some {| isRunning := isRunning state; hasError := hasError state;
            output := {| stdout := stdout (output state);
                         stderr := stderr (output state) +:+ b;
                         code := code (output state) |};
            process := process state |}
  /\ answering sys' p (length (closures sys)) state proc
       (stdout (output state) +:+ a) (stderr (output state) +:+ b) false None.
Proof.
  intros Hst Hproc Ha Hquiet Hb sys'. subst sys'.
  destruct (sendInput_starts p text sys state proc Hst Hproc) as (_ & Hex & Hsvc).
  set (sys1 := fst (fst (sendInput {| in_pid := p; stdin := text |} sys))) in *.
  unfold session in Hst. rewrite <- Hsvc in Hst.
  destruct (quiet_parts _ Hquiet) as [Hw Hr].
  change (run [StdoutData p a; StderrData p b] sys1)
    with (step (StderrData p b) (step (StdoutData p a) sys1)).
  (* the chunk of stdout *)
  assert (Hex2 : answering (step (StdoutData p a) sys1) p (length (closures sys)) state proc
                   (stdout (output state) +:+ a) (stderr (output state)) false None
                 /\ is_Some (processStates (service (step (StdoutData p a) sys1)) !! p)
                 /\ forall st2, processStates (service (step (StdoutData p a) sys1)) !! p = Some st2 ->
                      isRunning st2 = isRunning state /\ hasError st2 = hasError state
                      /\ process st2 = process state).
  { enter_listener Hex. unfold send_on_stdout, set_currentOutput.
    cbn [cl_pid currentOutput currentError isCompleted owner settled].
    rewrite Ha, Hw, Hr. cbn [orb fst snd].
    match goal with
    | |- context [updateProcessState p ?u1 (service sys1)] =>
        destruct (update_present p u1 _ _ Hst) as [Hst1 Hrun1]
    end.
    split; [|split].
    - split; [exact Hattached|]. cbn [closures]. now apply (closure_at _ _ _ _ Hclosure).
    - cbn [service]. rewrite Hst1. eauto.
    - cbn [service]. rewrite Hst1. intros st2 [= <-]. now split. }
  destruct Hex2 as (Hex2 & [st2 Hst2] & Hsame).
  destruct (Hsame st2 Hst2) as (Hrun & Herr & Hp).
  set (sys2 := step (StdoutData p a) sys1) in *.
  enter_listener Hex2. unfold send_on_stderr, set_currentError.
  cbn [cl_pid currentOutput currentError isCompleted owner settled].
  rewrite Hb. cbn [fst snd].
  match goal with
  | |- context [updateProcessState p ?u1 (service sys2)] =>
      destruct (update_present p u1 _ _ Hst2) as [Hst3 Hrun3]
  end.
  split.
  - unfold session. cbn [service]. rewrite Hst3. unfold spread_update. simpl.
    now rewrite Hrun, Herr, Hp.
  - split; [exact Hattached|]. cbn [closures]. now apply (closure_at _ _ _ _ Hclosure).
Qed.

(** ** Stopping a process *)

Section StopFacts.

Implicit Types (svc : CommandService) (c : Closure) (p : Z) (sys : System) (call : nat).

Lemma stopped_step sys p call cmd out err ev :
  executing sys p call cmd out err None ->
  session sys p = None ->
  stream_exit_or_timer p call ev = true ->
  exists out' err',
    executing (step ev sys) p call cmd out' err' None /\ session (step ev sys) p = None.
Proof.
  intros Hex Hst Hev. unfold session in Hst.
  destruct ev as [q chunk|q chunk|q e|q code|k]; simpl in Hev; try discriminate;
    try (apply Z.eqb_eq in Hev; subst q); try (apply Nat.eqb_eq in Hev; subst k).
  - exists (out +:+ chunk), err. enter_listener Hex. unfold exec_on_stdout, set_currentOutput.
    cbn [cl_pid currentOutput currentError isCompleted owner settled]. rewrite Hst.
    cbn [fst snd]. split; [|exact Hst].
    split; [exact Hattached|]. cbn [closures]. now apply (closure_at _ _ _ _ Hclosure).
  - exists out, (err +:+ chunk). enter_listener Hex. unfold exec_on_stderr, set_currentError.
    cbn [cl_pid currentOutput currentError isCompleted owner settled]. rewrite Hst.
    cbn [fst snd]. split; [|exact Hst].
    split; [exact Hattached|]. cbn [closures]. now apply (closure_at _ _ _ _ Hclosure).
  - exists out, err. enter_listener Hex. unfold exec_on_exit.
    cbn [cl_pid]. rewrite Hst. cbn [fst snd]. split; [|exact Hst].
    split; [exact Hattached|]. cbn [closures]. now apply (closure_at _ _ _ _ Hclosure).
  - exists out, err. enter_listener Hex. unfold exec_on_timeout.
    cbn [cl_pid isCompleted]. rewrite Hst. cbn [fst snd]. split; [|exact Hst].
    split; [exact Hattached|]. cbn [closures]. now apply (closure_at _ _ _ _ Hclosure).
Qed.

Lemma stopped_run evs sys p call cmd out err :
  executing sys p call cmd out err None ->
  session sys p = None ->
  forallb (stream_exit_or_timer p call) evs = true ->
  exists out' err',
    executing (run evs sys) p call cmd out' err' None /\ session (run evs sys) p = None.
Proof.
  revert sys out err. induction evs as [|ev rest IH]; intros sys out err Hex Hst Hevs.
  - exists out, err. now split.
  - simpl in Hevs. apply andb_true_iff in Hevs as [Hev Hrest].
    destruct (stopped_step sys p call cmd out err ev Hex Hst Hev) as (out1 & err1 & Hex1 & Hst1).
    change (run (ev :: rest) sys) with (run rest (step ev sys)).
    now apply (IH _ out1 err1).
Qed.

End StopFacts.

(** X20. A successful [stopProcess] sends one signal to the process group
    and forgets the pid: both tables lose it, a second [stopProcess]
    returns without sending a signal, and [sendInput] for the pid throws
    'No running process found'. *)
Theorem stopProcess_forgets_session (sys : System) (p : Z) (info : DetachedProcessInfo)
    (kill kill' : Z -> KillOutcome) (text : string) :
  runningProcesses (service sys) !! p = Some info ->
  kill (- p) = KillOk ->
  let sys' := perform (DoStopProcess kill p) sys in
  stopProcess kill p (service sys) = (cleanup p (service sys), Returned tt, [- p])
  /\ service sys' = cleanup p (service sys)
  /\ stopProcess kill' p (service sys') = (service sys', Returned tt, [])
  /\ sendInput {| in_pid := p; stdin := text |} sys'
     = (sys', Threw ("No running process found with PID: " +:+ pretty p), None).
Proof.
  intros Hinfo Hkill sys'. subst sys'.
  assert (Hstop : stopProcess kill p (service sys) = (cleanup p (service sys), Returned tt, [- p])).
  { unfold stopProcess. now rewrite Hinfo, Hkill. }
  cbn [perform]. rewrite Hstop. cbn [fst with_service service].
  destruct (cleanup_purges p (service sys)) as [Hrun Hstate].
  split; [reflexivity|]. split; [reflexivity|]. split.
  - unfold stopProcess. now rewrite Hrun.
  - unfold sendInput, with_service. cbn [service in_pid]. now rewrite Hstate.
Qed.

(** X21. [stopProcess] settles nothing: when the process of a call of
    [executeCommand] whose promise is pending is stopped, no chunk of
    output, no exit of the process and no timer settles the promise
    afterwards, and the session stays forgotten. *)
Theorem stopped_call_stays_pending (sys : System) (p : Z) (call : nat) (cmd out err : string)
    (info : DetachedProcessInfo) (kill : Z -> KillOutcome) (evs : list Event) :
  executing sys p call cmd out err None ->
  runningProcesses (service sys) !! p = Some info ->
  kill (- p) = KillOk ->
  forallb (stream_exit_or_timer p call) evs = true ->
  let sys' := run evs (perform (DoStopProcess kill p) sys) in
  promise sys' call = None /\ session sys' p = None.
Proof.
  intros Hex Hinfo Hkill Hevs sys'. subst sys'.
  assert (Hstop : stopProcess kill p (service sys) = (cleanup p (service sys), Returned tt, [- p])).
  { unfold stopProcess. now rewrite Hinfo, Hkill. }
  destruct (stopped_run evs (perform (DoStopProcess kill p) sys) p call cmd out err)
    as (out' & err' & [_ Hclosure] & Hst).
  - exact Hex.
  - cbn [perform]. rewrite Hstop. unfold session. cbn [fst with_service service].
    apply cleanup_purges.
  - exact Hevs.
  - split; [|exact Hst]. unfold promise. now rewrite Hclosure.
Qed.

(** ** The MCP registry: more of its behaviour *)

Section RegistryFacts.

Variable localeCompare : string -> string -> Z.
Variable looseEqualsString : list obj -> val -> string -> bool.

Implicit Types (st : Registry) (servers : list McpServerConfig) (w : World).

Lemma essentialConfig_of_identity (a b : McpServerConfig) :
  same_identity a b -> essentialConfig a = essentialConfig b.
Proof.
  intros (Hn & Hc & Ha & He). unfold essentialConfig. rewrite Hn, Hc, Ha.
  destruct (mcp_args b); [|reflexivity].
  destruct (env a) as [[|kv kvs]|], (env b) as [[|kv' kvs']|]; try contradiction;
    try reflexivity.
  now rewrite He.
Qed.

Lemma sort_insert_related {A} (R : A -> A -> Prop) (cmp : A -> A -> Z) x x' (l l' : list A) :
  (forall a a' b b', R a a' -> R b b' -> cmp a b = cmp a' b') ->
  R x x' -> Forall2 R l l' ->
  Forall2 R (sort_insert cmp x l) (sort_insert cmp x' l').
Proof.
  intros Hcmp Hx Hl. induction Hl as [|y y' l l' Hy Hl IH]; simpl.
  - constructor; [assumption | constructor].
  - rewrite (Hcmp x x' y y' Hx Hy). destruct (Z.leb (cmp x' y') 0).
    + constructor; [assumption|]. constructor; assumption.
    + constructor; assumption.
Qed.

Lemma sort_by_related {A} (R : A -> A -> Prop) (cmp : A -> A -> Z) (l l' : list A) :
  (forall a a' b b', R a a' -> R b b' -> cmp a b = cmp a' b') ->
  Forall2 R l l' -> Forall2 R (sort_by cmp l) (sort_by cmp l').
Proof.
  intros Hcmp Hl. induction Hl as [|y y' l l' Hy Hl IH]; simpl; [constructor|].
  now apply sort_insert_related.
Qed.

Lemma map_related {A B} (R : A -> A -> Prop) (g : A -> B) (l l' : list A) :
  (forall a a', R a a' -> g a = g a') -> Forall2 R l l' -> List.map g l = List.map g l'.
Proof.
  intros Hg Hl. induction Hl as [|y y' l l' Hy Hl IH]; simpl; [reflexivity|].
  now rewrite (Hg _ _ Hy), IH.
Qed.

Lemma generateConfigHash_of_identity servers servers' :
  Forall2 same_identity servers servers' ->
  generateConfigHash localeCompare servers = generateConfigHash localeCompare servers'.
Proof.
  intros Hl. unfold generateConfigHash.
  destruct Hl as [|s s' rest rest' Hs Hrest]; [reflexivity|].
  assert (Hsorted : Forall2 same_identity
            (sort_by (fun a b => localeCompare (name a) (name b)) (s :: rest))
            (sort_by (fun a b => localeCompare (name a) (name b)) (s' :: rest'))).
  { apply sort_by_related; [|now constructor].
    intros a a' b b' (Ha & _) (Hb & _). now rewrite Ha, Hb. }
  now rewrite (map_related same_identity essentialConfig _ _ essentialConfig_of_identity Hsorted).
Qed.

Lemma launch_all_names w servers :
  List.map fst (launch_all w servers)
  = List.map name (List.filter (fun s => bool_decide (is_Some (fromCommand w s))) servers).
Proof.
  induction servers as [|s rest IH]; simpl; [reflexivity|].
  unfold launch. destruct (fromCommand w s) as [c|]; simpl.
  - now rewrite IH.
  - exact IH.
Qed.

End RegistryFacts.

(** X22. The description of a server and an empty [env] are no part of the
    identity of a configuration: two lists of servers that agree, entry by
    entry, on name, command, arguments and non-empty environment have the
    same hash, and against every cache the change detection answers the
    same for both. *)
Theorem identity_ignores_description_and_empty_env
    (localeCompare : string -> string -> Z) (servers servers' : list McpServerConfig) :
  Forall2 same_identity servers servers' ->
  generateConfigHash localeCompare servers = generateConfigHash localeCompare servers'
  /\ forall st, hasConfigChanged localeCompare st servers
                = hasConfigChanged localeCompare st servers'.
Proof.
  intros Hl. pose proof (generateConfigHash_of_identity localeCompare _ _ Hl) as Hh.
  split; [exact Hh|]. intros st. unfold hasConfigChanged.
  rewrite (Forall2_length _ _ _ Hl), Hh.
  now rewrite (map_related same_identity name servers servers' (fun a b H => proj1 H) Hl).
Qed.

(** X23. A server that fails to start is dropped and not tried again: when a
    changed configuration with well-formed entries that passes validation
    is activated, the call returns although launches or cleanups fail,
    every connection held before is cleaned up once, the registry holds the
    servers that started, in the order of the configuration, and the same
    configuration then counts as unchanged. *)
Theorem failed_launch_is_dropped_and_not_retried
    (localeCompare : string -> string -> Z) (w : World) (servers : list McpServerConfig)
    (st : Registry) :
  servers <> [] ->
  Forall (fun s => entry_valid s = true) servers ->
  configSchema_safeParse servers = true ->
  hasConfigChanged localeCompare st servers = Returned true ->
  exists st',
    initMcpFromAgentConfig localeCompare w servers st
    = (st', Returned tt,
       List.map (fun nc => CleanedUp (snd nc) (cleanup_ok w (snd nc))) (clients st)
       ++ List.map (fun s => Launched (name s) (bool_decide (is_Some (fromCommand w s)))) servers)
    /\ clients st' = launch_all w servers
    /\ List.map fst (clients st')
       = List.map name (List.filter (fun s => bool_decide (is_Some (fromCommand w s))) servers)
    /\ hasConfigChanged localeCompare st' servers = Returned false.
Proof.
  intros Hne Hv Hparse Hch.
  destruct (generateConfigHash_of_valid localeCompare servers Hv) as [h Hh].
  assert (Hcall : initMcpFromAgentConfig localeCompare w servers st
    = ({| clients := launch_all w servers;
          lastMcpServerConfigHash := Some h;
          lastMcpServerLength := length servers;
          lastMcpServerNames := sort_default (List.map name servers) |},
       Returned tt,
       List.map (fun nc => CleanedUp (snd nc) (cleanup_ok w (snd nc))) (clients st)
       ++ List.map (fun s => Launched (name s) (bool_decide (is_Some (fromCommand w s)))) servers)).
  { unfold initMcpFromAgentConfig. rewrite Hch. unfold activate, updateConfigCache.
    rewrite Hh, Hparse. destruct servers; [congruence | reflexivity]. }
  eexists. split; [exact Hcall|]. split; [reflexivity|]. split.
  - apply launch_all_names.
  - eapply initMcpFromAgentConfig_returned. exact Hcall.
Qed.

(** X24. An activation with the empty configuration closes every connection:
    when the cache is not the one of an empty configuration, every
    connection held is cleaned up, the registry holds none, and the cache
    becomes the one of the empty configuration; when the cache is the one
    of an empty configuration the call does nothing. *)
Theorem empty_configuration_closes_connections
    (localeCompare : string -> string -> Z) (w : World) (st : Registry) :
  initMcpFromAgentConfig localeCompare w [] st
  = if Nat.eqb (lastMcpServerLength st) 0
    then (st, Returned tt, [])
    else ({| clients := []; lastMcpServerConfigHash := Some "empty";
             lastMcpServerLength := 0; lastMcpServerNames := [] |},
          Returned tt,
          List.map (fun nc => CleanedUp (snd nc) (cleanup_ok w (snd nc))) (clients st)).
Proof.
  unfold initMcpFromAgentConfig, hasConfigChanged. simpl.
  destruct (lastMcpServerLength st) as [|n]; reflexivity.
Qed.

(** X25. A tool that a connection of the registry advertises under its name
    is found, and [tryExecuteMcpTool] reports what calling it gave instead
    of throwing: for a configuration with well-formed entries that passes
    validation, when some descriptor held by a connection has the string
    [toolName] as [toolSpec.name], the result is named [mcp_<toolName>],
    has [found] true, and carries the value returned by [callTool] of one
    of the connections with [success] true, or the text it threw with
    [success] false. *)
Theorem tryExecuteMcpTool_reports_outcome
    (localeCompare : string -> string -> Z)
    (looseEqualsString : list obj -> val -> string -> bool)
    (w : World) (toolName : string) (input : val) (servers : list McpServerConfig)
    (st : Registry) (h : list obj) :
  servers <> [] ->
  Forall (fun s => entry_valid s = true) servers ->
  configSchema_safeParse servers = true ->
  let st' := fst (fst (initMcpFromAgentConfig localeCompare w servers st)) in
  (exists nc t,
     In nc (clients st') /\ In t (tools (snd nc))
     /\ get_optional h (get_field h t "toolSpec") "name" = VStr toolName) ->
  exists client res,
    In client (List.map snd (clients st'))
    /\ tryExecuteMcpTool localeCompare looseEqualsString w toolName input (Some servers) st h
       = (st', Returned res)
    /\ found res = true
    /\ tool_result_name res = "mcp_" +:+ toolName
    /\ match callTool w client toolName input with
       | Returned v => success res = true /\ tool_result res = Some v /\ error res = None
       | Threw m => success res = false /\ tool_result res = None /\ error res = Some m
       end.
Proof.
  intros Hne Hv Hparse st' (nc & t & Hnc & Ht & Hname).
  destruct (initMcpFromAgentConfig_of_valid localeCompare w servers st Hv Hparse)
    as (st1 & effects & Hinit & _).
  subst st'. unfold tryExecuteMcpTool. destruct servers as [|s0 rest]; [congruence|].
  rewrite Hinit in Hnc |- *. cbn [fst] in Hnc |- *.
  destruct (List.find _ (clients st1)) as [[n client]|] eqn:Hfind.
  - pose proof (find_some _ _ Hfind) as [Hin _].
    exists client. destruct (callTool w client toolName input) as [res|m]; eexists;
      (split; [apply in_map_iff; exists (n, client); split; [reflexivity | exact Hin]|]);
      (split; [reflexivity|]); cbn; repeat split.
  - exfalso. pose proof (find_none _ _ Hfind nc Hnc) as Hno. cbn in Hno.
    unfold advertises in Hno.
    assert (Hyes : existsb (tool_matches looseEqualsString h toolName) (tools (snd nc)) = true).
    { apply existsb_exists. exists t. split; [exact Ht|].
      unfold tool_matches. rewrite Hname. apply String.eqb_refl. }
    congruence.
Qed.

(** ** The MCP registry: connection tests *)

Section ConnectionTestFacts.

Context {V : Type}.

Implicit Types (acc : list (string * V)) (key : string) (v : V).

Lemma results_get_set_same key v acc : results_get key (results_set key v acc) = Some v.
Proof.
  induction acc as [|[k v0] acc IH]; simpl.
  - now rewrite String.eqb_refl.
  - destruct (String.eqb k key) eqn:E; simpl; rewrite E; [reflexivity | exact IH].
Qed.

Lemma results_get_set_other key key' v acc :
  key' <> key -> results_get key' (results_set key v acc) = results_get key' acc.
Proof.
  intros Hne. induction acc as [|[k v0] acc IH]; simpl.
  - apply String.eqb_neq in Hne. rewrite String.eqb_sym in Hne. now rewrite Hne.
  - destruct (String.eqb k key) eqn:E; simpl.
    + apply String.eqb_eq in E. subst k.
      assert (E' : String.eqb key key' = false) by (apply String.eqb_neq; congruence).
      now rewrite E'.
    + destruct (String.eqb k key'); [reflexivity | exact IH].
Qed.

End ConnectionTestFacts.

Section AllConnectionTests.

Variable probe : nat -> McpServerConfig -> ConnectionTest.

Lemma in_lookup {X} (x : X) (l : list X) : In x l -> exists j, l !! j = Some x.
Proof.
  induction l as [|y l IH]; simpl; [contradiction|].
  intros [-> | H]; [now exists 0%nat|]. destruct (IH H) as [j Hj]. now exists (S j).
Qed.

Lemma testAll_from_other key i servers results :
  (forall s, In s servers -> name s <> key) ->
  results_get key (testAll_from probe i servers results) = results_get key results.
Proof.
  revert i results. induction servers as [|s rest IH]; intros i results Hno; simpl; [reflexivity|].
  rewrite IH by (intros s' Hs'; apply Hno; now right).
  unfold results_assign. destruct (String.eqb (name s) "__proto__"); [reflexivity|].
  apply results_get_set_other. intros E. apply (Hno s); [now left | now symmetry].
Qed.

Lemma testAll_from_last i servers results k s :
  servers !! k = Some s ->
  name s <> "__proto__" ->
  (forall j s', (k < j)%nat -> servers !! j = Some s' -> name s' <> name s) ->
  results_get (name s) (testAll_from probe i servers results) = Some (probe (i + k)%nat s).
Proof.
  intros Hk Hproto. revert i results k Hk.
  induction servers as [|s0 rest IH]; intros i results k Hk Hlast; [discriminate|].
  destruct k as [|k]; simpl in *.
  - injection Hk as ->. rewrite Nat.add_0_r.
    rewrite testAll_from_other.
    + unfold results_assign. apply String.eqb_neq in Hproto. rewrite Hproto.
      apply results_get_set_same.
    + intros s' Hs'. apply in_lookup in Hs' as [j Hj].
      apply (Hlast (S j)); [lia | exact Hj].
  - rewrite (IH (S i) _ k Hk).
    + f_equal. f_equal. lia.
    + intros j s' Hj Hs'. apply (Hlast (S j)); [lia | exact Hs'].
Qed.

End AllConnectionTests.

(** X26. [testMcpServerConnection] reports success exactly when the
    connection was made and then cleaned up: it then counts all tools, lists
    at most as many names, all of them truthy, and gives the time between
    its two clock readings; a failure of either step is reported as a
    failed connection, with the text thrown and the advice for it. *)
Theorem connection_test_outcome (mcpServer : McpServerConfig) (launched : result MCPClient)
    (cleaned : result unit) (h : list obj) (startTime endTime : Z) :
  let r := testMcpServerConnection mcpServer launched cleaned h startTime endTime in
  (test_success r = true <-> exists client u, launched = Returned client /\ cleaned = Returned u)
  /\ (forall client u,
        launched = Returned client -> cleaned = Returned u ->
        toolCount (details r) = Some (length (tools client))
        /\ startupTime (details r) = Some (endTime - startTime)
        /\ exists names,
             toolNames (details r) = Some names
             /\ (length names <= length (tools client))%nat
             /\ Forall (fun v => truthy v = true) names)
  /\ (forall errorMessage,
        launched = Threw errorMessage
        \/ (exists client, launched = Returned client /\ cleaned = Threw errorMessage) ->
        test_success r = false
        /\ test_message r = "Failed to connect to MCP server " +:+ Json.dquote
                            +:+ name mcpServer +:+ Json.dquote
        /\ detail_error (details r) = Some errorMessage
        /\ errorDetails (details r) = Some (analyzeServerError errorMessage)
        /\ toolCount (details r) = None).
Proof.
  intros r. subst r. unfold testMcpServerConnection.
  split; [|split].
  - destruct launched as [client|m]; [destruct cleaned as [u|m]|]; simpl.
    + split; eauto.
    + split; [discriminate|]. intros (c & u & _ & Hc). discriminate.
    + split; [discriminate|]. intros (c & u & Hl & _). discriminate.
  - intros client u -> ->. simpl. split; [reflexivity|]. split; [reflexivity|].
    eexists. split; [reflexivity|]. unfold advertised_names. split.
    + etransitivity; [apply List.filter_length_le|]. now rewrite length_map.
    + apply List.Forall_forall. intros v Hv. now apply List.filter_In in Hv.
  - intros m [-> | (client & -> & ->)]; simpl; repeat split.
Qed.

(** X27. A failed connection whose error text holds ENOENT or
    'command not found', in any letter case and whatever else it says, is
    explained as a missing command. *)
Theorem missing_command_is_recognized (mcpServer : McpServerConfig) (cleaned : result unit)
    (h : list obj) (startTime endTime : Z) (errorMessage variant : string) :
  Js.toLowerCase variant = "enoent" \/ Js.toLowerCase variant = "command not found" ->
  Js.includes errorMessage variant = true ->
  analyzeServerError errorMessage = advice_not_found
  /\ errorDetails
       (details (testMcpServerConnection mcpServer (Threw errorMessage) cleaned h
                   startTime endTime))
     = Some advice_not_found.
Proof.
  intros Hvariant Hin.
  assert (Hadvice : analyzeServerError errorMessage = advice_not_found).
  { apply includes_toLowerCase in Hin. unfold analyzeServerError.
    destruct Hvariant as [E|E]; rewrite E in Hin; rewrite Hin; [reflexivity|].
    now rewrite orb_true_r. }
  split; [exact Hadvice|]. simpl. now rewrite Hadvice.
Qed.

(** X28. [testAllMcpServerConnections] keeps one result per server name, the
    one of the last server with that name: the property under the name of
    a server after which no server has the same name holds the test of
    that server (for a name other than [__proto__], which names no
    property), and there is no property under a name that no server
    has. *)
Theorem all_connection_tests_by_name (probe : nat -> McpServerConfig -> ConnectionTest)
    (servers : list McpServerConfig) (k : nat) (s : McpServerConfig) :
  servers !! k = Some s ->
  name s <> "__proto__" ->
  (forall j s', (k < j)%nat -> servers !! j = Some s' -> name s' <> name s) ->
  results_get (name s) (testAllMcpServerConnections probe (Some servers)) = Some (probe k s)
  /\ forall key, (forall s', In s' servers -> name s' <> key) ->
       results_get key (testAllMcpServerConnections probe (Some servers)) = None.
Proof.
  intros Hk Hproto Hlast. unfold testAllMcpServerConnections.
  destruct servers as [|s0 rest]; [discriminate|]. split.
  - now rewrite (testAll_from_last probe 0 (s0 :: rest) [] k s Hk Hproto Hlast).
  - intros key Hno. now rewrite testAll_from_other.
Qed.

(** ** Prompts that stay in the output, and the timer of [sendInput] *)

Section OpenEndedProbes.

Implicit Types (r : Regex.re) (s post out : string) (c : ascii).

Lemma ends_open_deriv r c : ends_open r -> ends_open (Regex.deriv c r).
Proof.
  induction r; simpl; try tauto.
  intros H. destruct (Regex.nullable r1); simpl; [split; [exact H | now apply IHr2] | exact H].
Qed.

Lemma ends_open_nullable_deriv r c :
  ends_open r -> Regex.nullable r = true -> Regex.is_line_terminator c = false ->
  Regex.nullable (Regex.deriv c r) = true.
Proof.
  intros Hopen Hnull Hc. induction r; simpl in *; try discriminate; try contradiction.
  - apply andb_true_iff in Hnull as [H1 H2]. rewrite H1. simpl.
    rewrite (IHr2 Hopen H2). apply orb_true_r.
  - destruct Hopen as [Ho1 Ho2]. apply orb_true_iff in Hnull as [H|H].
    + now rewrite (IHr1 Ho1 H).
    + rewrite (IHr2 Ho2 H). apply orb_true_r.
  - subst r. simpl. now rewrite Hc.
Qed.

Lemma ends_open_runs_on r post :
  ends_open r -> Regex.nullable r = true -> Regex.match_here r post = true.
Proof.
  revert r. induction post as [|c post IH]; intros r Hopen Hnull.
  - simpl. now rewrite Hnull.
  - rewrite match_here_unfold. rewrite Hnull. simpl.
    destruct (Regex.is_line_terminator c) eqn:Hc; [reflexivity|]. simpl.
    apply IH; [now apply ends_open_deriv | now apply ends_open_nullable_deriv].
Qed.

Lemma ends_open_match_here r s post :
  ends_open r -> Regex.match_here r s = true -> Regex.match_here r (s +:+ post) = true.
Proof.
  revert r. induction s as [|c s IH]; intros r Hopen H.
  - rewrite append_nil_l. simpl in H. rewrite orb_false_r, andb_true_r in H.
    now apply ends_open_runs_on.
  - rewrite append_cons. rewrite match_here_unfold in H |- *. simpl in H |- *.
    apply orb_true_iff in H as [H|H]; [now rewrite H|].
    rewrite (IH _ (ends_open_deriv _ c Hopen) H). apply orb_true_r.
Qed.

Lemma ends_open_test r s post :
  ends_open r -> Regex.test r s = true -> Regex.test r (s +:+ post) = true.
Proof.
  intros Hopen H. induction s as [|c s IH].
  - rewrite test_unfold in H. rewrite orb_false_r in H.
    rewrite test_unfold, (ends_open_match_here r "" post Hopen H). reflexivity.
  - rewrite append_cons. rewrite test_unfold in H |- *.
    apply orb_true_iff in H as [H|H].
    + apply (ends_open_match_here r (String c s) post Hopen) in H.
      rewrite append_cons in H. now rewrite H.
    + rewrite (IH H). apply orb_true_r.
Qed.

Lemma inquirer_ends_open : ends_open inquirer_re.
Proof. reflexivity. Qed.

Lemma question_stays out post :
  Regex.test inquirer_re out = true ->
  isWaiting (isWaitingForInput (out +:+ post)) = true.
Proof.
  intros H. rewrite isWaiting_probes.
  now rewrite (ends_open_test inquirer_re out post inquirer_ends_open H).
Qed.

End OpenEndedProbes.

(** X29. A question in the style of inquirer stays a prompt: when the stored
    output of a session holds one ('? ' followed by text with a question
    mark), the first chunk of stdout without error marker that arrives
    after [sendInput] resolves the call at once as waiting for input
    again, whatever the chunk says. *)
Theorem answered_question_still_prompts (sys : System) (p : Z) (text chunk : string)
    (state : ProcessState) (proc : ChildProcess) :
  session sys p = Some state ->
  process state = Some proc ->
  Regex.test inquirer_re (stdout (output state)) = true ->
  checkForErrors chunk "" = false ->
  let call := length (closures sys) in
  let sys' := step (StdoutData p chunk) (fst (fst (sendInput {| in_pid := p; stdin := text |} sys))) in
  let out := stdout (output state) +:+ chunk in
  let answer :=
    Returned (execution_result p (String.concat " " (spawnargs proc)) out
                (stderr (output state)) 0 (Some true) (prompt (isWaitingForInput out))) in
  promise sys' call = Some answer
  /\ answering sys' p call state proc out (stderr (output state)) true (Some answer).
Proof.
  intros Hst Hproc Hquestion Hclean call sys' out answer. subst call sys' out answer.
  destruct (sendInput_starts p text sys state proc Hst Hproc) as (_ & Hex & _).
  pose proof (question_stays _ chunk Hquestion) as Hwait.
  set (sys1 := fst (fst (sendInput {| in_pid := p; stdin := text |} sys))) in *.
  assert (Hstep :
    step (StdoutData p chunk) sys1
    = {| service :=
           updateProcessState p
             {| upd_isRunning := None; upd_hasError := None;
                upd_output := Some {| stdout := stdout (output state) +:+ chunk;
                                      stderr := stderr (output state);
                                      code := code (output state) |};
                upd_process := None |} (service sys1);
         closures :=
           <[length (closures sys) :=
               {| owner := OfSendInput state proc; cl_pid := p;
                  currentOutput := stdout (output state) +:+ chunk;
                  currentError := stderr (output state); isCompleted := true;
                  settled :=
                    Some (Returned
                            (execution_result p (String.concat " " (spawnargs proc))
                               (stdout (output state) +:+ chunk) (stderr (output state)) 0
                               (Some true)
                               (prompt (isWaitingForInput (stdout (output state) +:+ chunk))))) |}]>
             (closures sys1);
         attached := attached sys1 |}).
  { enter_listener Hex. unfold send_on_stdout, set_currentOutput.
    cbn [cl_pid currentOutput currentError isCompleted owner settled].
    rewrite Hclean, Hwait. cbn [orb]. unfold send_completeWithSuccess.
    cbn [isCompleted set_isCompleted currentOutput currentError cl_pid owner settled].
    rewrite Hwait. reflexivity. }
  destruct Hex as [Hattached Hclosure]. rewrite Hstep. split.
  - now rewrite (promise_at _ _ _ _ _ _ Hclosure).
  - split; [exact Hattached|]. cbn [closures]. now apply (closure_at _ _ _ _ Hclosure).
Qed.

(** X30. The timer of [sendInput] never removes a session: when it fires on
    a call that has not completed, both tables are left as they are; a
    pending promise is rejected with 'Command timed out waiting for
    response', unless an error was recorded or the output holds a
    readiness keyword. *)
Theorem sendInput_timer_keeps_session (sys : System) (p : Z) (call : nat)
    (state st : ProcessState) (proc : ChildProcess) (out err : string)
    (s : option (result CommandExecutionResult)) :
  closures sys !! call
  = Some {| owner := OfSendInput state proc; cl_pid := p; currentOutput := out;
            currentError := err; isCompleted := false; settled := s |} ->
  session sys p = Some st ->
  let sys' := step (TimerFired call) sys in
  let w := isWaitingForInput out in
  service sys' = service sys
  /\ promise sys' call
     = Some (default
               (if hasError st then Threw ("Command failed: " +:+ nl +:+ err)
                else if isServerReady out
                then Returned (execution_result p (String.concat " " (spawnargs proc)) out err 0
                                 (Some (isWaiting w)) (if isWaiting w then prompt w else None))
                else Threw "Command timed out waiting for response") s).
Proof.
  intros Hclosure Hst sys' w. subst sys' w. unfold session in Hst.
  unfold step. rewrite (run_listener_at _ _ _ _ Hclosure). cbn [owner].
  unfold send_on_timeout.
  cbn [cl_pid currentOutput currentError isCompleted]. rewrite Hst, timeout_condition.
  destruct (hasError st).
  - rewrite send_completeWithError_pending by reflexivity. cbn [fst snd].
    split; [reflexivity|].
    rewrite (promise_at _ _ _ _ _ _ Hclosure). unfold reject. now rewrite settle_default.
  - destruct (isServerReady out).
    + unfold send_completeWithSuccess.
      cbn [isCompleted set_isCompleted currentOutput fst snd]. split; [reflexivity|].
      rewrite (promise_at _ _ _ _ _ _ Hclosure). unfold resolve. now rewrite settle_default.
    + rewrite send_completeWithError_pending by reflexivity. cbn [fst snd].
      split; [reflexivity|].
      rewrite (promise_at _ _ _ _ _ _ Hclosure). unfold reject. now rewrite settle_default.
Qed.

(** ** The properties above on the examples *)

Lemma error_marker_fails_fast_example :
  (promise (step (StdoutData 501 "npm ERR! code E404") install_started) 0
   = Some (Threw ("Command failed: " +:+ nl +:+ "npm ERR! code E404" +:+ nl))
   /\ session (step (StdoutData 501 "npm ERR! code E404") install_started) 501 = None
   /\ runningProcesses (service (step (StdoutData 501 "npm ERR! code E404") install_started))
      !! 501 = None)
  /\ (promise (step (StderrData 501 "npm ERR! code E404") install_started) 0
      = Some (Threw ("Command failed: " +:+ nl +:+ nl +:+ "npm ERR! code E404"))
      /\ session (step (StderrData 501 "npm ERR! code E404") install_started) 501 = None
      /\ runningProcesses (service (step (StderrData 501 "npm ERR! code E404") install_started))
         !! 501 = None).
Proof.
  assert (Hex : executing install_started 501 0 "npm install" "" "" None)
    by (split; reflexivity).
  assert (Hst : session install_started 501 = Some install_state) by reflexivity.
  destruct (error_marker_fails_fast install_started 501 0 "npm install" "" ""
              "npm ERR! code E404" None install_state Hex Hst) as [Hout Herr].
  split; [apply Hout | apply Herr]; reflexivity.
Defined.

Lemma quiet_output_accumulates_example :
  executing install_printed 501 0 "npm install" "added 12 packages in 3s" "" None
  /\ session install_printed 501 = Some (with_stdout "added 12 packages in 3s" install_state)
  /\ runningProcesses (service install_printed) = runningProcesses (service install_started).
Proof.
  apply (quiet_output_accumulates ["added 12 packages"; " in 3s"] install_started 501 0
           "npm install" "" "" None install_state).
  - split; reflexivity.
  - reflexivity.
  - reflexivity.
  - vm_compute. reflexivity.
Defined.

Lemma clean_exit_completes_example :
  promise (step (ProcessExit 501 (Some 0)) install_printed) 0
  = Some (Returned (execution_result 501 "npm install" "added 12 packages in 3s" "" 0 None None))
  /\ session (step (ProcessExit 501 (Some 0)) install_printed) 501 = None
  /\ runningProcesses (service (step (ProcessExit 501 (Some 0)) install_printed)) !! 501 = None.
Proof.
  apply (clean_exit_completes install_printed 501 0 "npm install" "added 12 packages in 3s" ""
           None (with_stdout "added 12 packages in 3s" install_state)).
  - split; vm_compute; reflexivity.
  - vm_compute. reflexivity.
  - vm_compute. reflexivity.
  - vm_compute. reflexivity.
Defined.

Lemma failing_exit_rejects_example :
  promise (step (ProcessExit 501 (Some 0)) install_marker_cut) 0
  = Some (Threw ("Process exited with code 0" +:+ nl +:+ "npm ERR! missing script" +:+ nl))
  /\ session (step (ProcessExit 501 (Some 0)) install_marker_cut) 501 = None
  /\ runningProcesses (service (step (ProcessExit 501 (Some 0)) install_marker_cut)) !! 501 = None.
Proof.
  apply (failing_exit_rejects install_marker_cut 501 0 "npm install" "npm ERR! missing script" ""
           (Some 0) None (with_stdout "npm ERR! missing script" install_state)).
  - split; vm_compute; reflexivity.
  - vm_compute. reflexivity.
  - left. vm_compute. reflexivity.
Defined.

Lemma prompt_resolves_and_keeps_session_example :
  promise read_name_prompted 0 = Some (Returned read_name_answer)
  /\ executing read_name_prompted 4242 0 "read-name" "Enter name: " ""
       (Some (Returned read_name_answer))
  /\ session read_name_prompted 4242 = Some (with_stdout "Enter name: " read_name_state)
  /\ runningProcesses (service read_name_prompted) = runningProcesses (service read_name_started)
  /\ snd (fst (sendInput {| in_pid := 4242; stdin := "Ada" |} read_name_prompted))
     = Returned 1%nat
  /\ snd (sendInput {| in_pid := 4242; stdin := "Ada" |} read_name_prompted)
     = Some ("Ada" +:+ nl).
Proof.
  apply (prompt_resolves_and_keeps_session read_name_started 4242 0 "read-name" "" ""
           "Enter name: " "Ada" None read_name_state read_name_process).
  - split; reflexivity.
  - reflexivity.
  - reflexivity.
  - vm_compute. reflexivity.
  - vm_compute. reflexivity.
Defined.

Lemma ready_server_survives_timer_example :
  service (step (TimerFired 0) dev_ready) = service dev_ready
  /\ promise (step (TimerFired 0) dev_ready) 0 = Some (Returned dev_answer)
  /\ closures (step (TimerFired 0) dev_ready) !! 0%nat
     = Some {| owner := OfExecuteCommand "npm run dev"; cl_pid := 777;
               currentOutput := "Server listening on port 3000"; currentError := "";
               isCompleted := false; settled := Some (Returned dev_answer) |}.
Proof.
  apply (ready_server_survives_timer dev_ready 777 0 "npm run dev"
           "Server listening on port 3000" "" (Some (Returned dev_answer))
           (with_stdout "Server listening on port 3000"
              {| isRunning := true; hasError := false;
                 output := {| stdout := ""; stderr := ""; code := None |};
                 process := Some {| child_pid := 777;
                                    spawnargs := ["/bin/bash"; "-ic"; "npm run dev"] |} |})).
  - vm_compute. reflexivity.
  - vm_compute. reflexivity.
  - reflexivity.
  - vm_compute. reflexivity.
Defined.

Lemma timer_ends_session_example :
  promise (step (TimerFired 0) read_name_prompted) 0 = Some (Returned read_name_answer)
  /\ session (step (TimerFired 0) read_name_prompted) 4242 = None
  /\ runningProcesses (service (step (TimerFired 0) read_name_prompted)) !! 4242 = None.
Proof.
  apply (timer_ends_session read_name_prompted 4242 0 "read-name" "Enter name: " ""
           (Some (Returned read_name_answer)) (with_stdout "Enter name: " read_name_state)).
  - vm_compute. reflexivity.
  - vm_compute. reflexivity.
  - right. vm_compute. reflexivity.
Defined.

Lemma sendInput_exit_ends_session_example :
  service (step (ProcessExit 4242 (Some 0)) read_name_answered)
  = cleanup 4242 (service read_name_answered)
  /\ promise (step (ProcessExit 4242 (Some 0)) read_name_answered) 1
     = Some (Returned (execution_result 4242 "/bin/bash -ic read-name" "Enter name: " "" 0
                         (Some true) (Some "Enter name: "))).
Proof.
  apply (sendInput_exit_ends_session read_name_answered 4242 1
           (with_stdout "Enter name: " read_name_state) read_name_process
           "Enter name: " "" (Some 0) false None).
  split; vm_compute; reflexivity.
Defined.

Lemma sendInput_error_keeps_session_example :
  promise (step (StdoutData 4242 "bash: Ada: command not found") read_name_answered) 1
  = Some (Threw ("Command failed: " +:+ nl +:+ "Enter name: bash: Ada: command not found" +:+ nl))
  /\ session (step (StdoutData 4242 "bash: Ada: command not found") read_name_answered) 4242
     = Some {| isRunning := true; hasError := true;
               output := {| stdout := "Enter name: bash: Ada: command not found";
                            stderr := ""; code := None |};
               process := Some read_name_process |}
  /\ runningProcesses
       (service (step (StdoutData 4242 "bash: Ada: command not found") read_name_answered))
     = runningProcesses (service read_name_answered).
Proof.
  apply (sendInput_error_keeps_session read_name_answered 4242 1
           (with_stdout "Enter name: " read_name_state)
           (with_stdout "Enter name: " read_name_state) read_name_process
           "Enter name: " "" "bash: Ada: command not found" None).
  - split; vm_compute; reflexivity.
  - vm_compute. reflexivity.
  - vm_compute. reflexivity.
Defined.

Lemma sendInput_stderr_restores_captured_stdout_example :
  session
    (run [StdoutData 4242 "Hello Ada"; StderrData 4242 "warning"] read_name_answered) 4242
  = Some {| isRunning := true; hasError := false;
            output := {| stdout := "Enter name: "; stderr := "warning"; code := None |};
            process := Some read_name_process |}
  /\ answering
       (run [StdoutData 4242 "Hello Ada"; StderrData 4242 "warning"] read_name_answered)
       4242 1 (with_stdout "Enter name: " read_name_state) read_name_process
       "Enter name: Hello Ada" "warning" false None.
Proof.
  apply (sendInput_stderr_restores_captured_stdout read_name_prompted 4242 "Ada" "Hello Ada"
           "warning" (with_stdout "Enter name: " read_name_state) read_name_process).
  - vm_compute. reflexivity.
  - reflexivity.
  - vm_compute. reflexivity.
  - vm_compute. reflexivity.
  - vm_compute. reflexivity.
Defined.

Lemma stopProcess_forgets_session_example :
  stopProcess kill_granted 501 (service install_started)
  = (cleanup 501 (service install_started), Returned tt, [- 501])
  /\ service (perform (DoStopProcess kill_granted 501) install_started)
     = cleanup 501 (service install_started)
  /\ stopProcess kill_denied 501
       (service (perform (DoStopProcess kill_granted 501) install_started))
     = (service (perform (DoStopProcess kill_granted 501) install_started), Returned tt, [])
  /\ sendInput {| in_pid := 501; stdin := "y" |}
       (perform (DoStopProcess kill_granted 501) install_started)
     = (perform (DoStopProcess kill_granted 501) install_started,
        Threw ("No running process found with PID: " +:+ pretty 501), None).
Proof.
  apply (stopProcess_forgets_session install_started 501
           {| pid := 501; info_command := "npm install"; timestamp := 1000 |}
           kill_granted kill_denied "y").
  - reflexivity.
  - reflexivity.
Defined.

Lemma stopped_call_stays_pending_example :
  promise
    (run [StdoutData 501 "added 12 packages"; ProcessExit 501 None; TimerFired 0]
       (perform (DoStopProcess kill_granted 501) install_started)) 0 = None
  /\ session
       (run [StdoutData 501 "added 12 packages"; ProcessExit 501 None; TimerFired 0]
          (perform (DoStopProcess kill_granted 501) install_started)) 501 = None.
Proof.
  apply (stopped_call_stays_pending install_started 501 0 "npm install" "" ""
           {| pid := 501; info_command := "npm install"; timestamp := 1000 |} kill_granted).
  - split; reflexivity.
  - reflexivity.
  - reflexivity.
  - reflexivity.
Defined.

Lemma identity_ignores_description_and_empty_env_example :
  generateConfigHash compare_code_units [github_server; fetch_server]
  = generateConfigHash compare_code_units [github_server_redescribed; fetch_server_empty_env]
  /\ forall st,
       hasConfigChanged compare_code_units st [github_server; fetch_server]
       = hasConfigChanged compare_code_units st
           [github_server_redescribed; fetch_server_empty_env].
Proof.
  apply (identity_ignores_description_and_empty_env compare_code_units
           [github_server; fetch_server] [github_server_redescribed; fetch_server_empty_env]).
  constructor; [|constructor; [|constructor]]; (split; [|split; [|split]]); reflexivity || exact I.
Defined.

Lemma failed_launch_is_dropped_and_not_retried_example :
  exists st',
    initMcpFromAgentConfig compare_code_units fetch_only_world [github_server; fetch_server]
      initial_registry
    = (st', Returned tt, [Launched "github" false; Launched "fetch" true])
    /\ clients st' = [("fetch", mock_client)]
    /\ List.map fst (clients st') = ["fetch"]
    /\ hasConfigChanged compare_code_units st' [github_server; fetch_server] = Returned false.
Proof.
  apply (failed_launch_is_dropped_and_not_retried compare_code_units fetch_only_world
           [github_server; fetch_server] initial_registry).
  - discriminate.
  - repeat constructor.
  - reflexivity.
  - reflexivity.
Defined.

Lemma tryExecuteMcpTool_reports_outcome_example :
  exists client res,
    In client [mock_client]
    /\ tryExecuteMcpTool compare_code_units sample_looseEqualsString mock_world "mockTool"
         (VStr "input") (Some mockMcpServers) initial_registry mock_heap
       = (fst (fst (initMcpFromAgentConfig compare_code_units mock_world mockMcpServers
                      initial_registry)),
          Returned res)
    /\ found res = true
    /\ tool_result_name res = "mcp_mockTool"
    /\ success res = true
    /\ tool_result res = Some (VStr "Mock tool response")
    /\ error res = None.
Proof.
  apply (tryExecuteMcpTool_reports_outcome compare_code_units sample_looseEqualsString
           mock_world "mockTool" (VStr "input") mockMcpServers initial_registry mock_heap).
  - discriminate.
  - repeat constructor.
  - reflexivity.
  - exists ("mock-server", mock_client), 3%nat.
    split; [now left|]. split; [now left | reflexivity].
Defined.

Lemma missing_command_is_recognized_example :
  analyzeServerError "Error: spawn uvx ENOENT (timeout while waiting)" = advice_not_found
  /\ errorDetails
       (details (testMcpServerConnection fetch_server
                   (Threw "Error: spawn uvx ENOENT (timeout while waiting)") (Returned tt)
                   mock_heap 0 5))
     = Some advice_not_found.
Proof.
  apply (missing_command_is_recognized fetch_server (Returned tt) mock_heap 0 5
           "Error: spawn uvx ENOENT (timeout while waiting)" "ENOENT").
  - left. reflexivity.
  - vm_compute. reflexivity.
Defined.

Lemma all_connection_tests_by_name_example :
  results_get "fetch"
    (testAllMcpServerConnections probe_not_found
       (Some [fetch_server; github_server; fetch_server_again]))
  = Some (probe_not_found 2 fetch_server_again)
  /\ forall key,
       (forall s', In s' [fetch_server; github_server; fetch_server_again] -> name s' <> key) ->
       results_get key
         (testAllMcpServerConnections probe_not_found
            (Some [fetch_server; github_server; fetch_server_again]))
       = None.
Proof.
  apply (all_connection_tests_by_name probe_not_found
           [fetch_server; github_server; fetch_server_again] 2 fetch_server_again).
  - reflexivity.
  - discriminate.
  - intros j s' Hj Hs'. destruct j as [|[|[|j]]]; try lia. destruct j; discriminate Hs'.
Defined.

Lemma answered_question_still_prompts_example :
  promise
    (step (StdoutData 88 "version: (1.0.0)")
       (fst (fst (sendInput {| in_pid := 88; stdin := "demo" |} init_asked)))) 1
  = Some (Returned (execution_result 88 "/bin/bash -ic npm init"
                      "? package name? version: (1.0.0)" "" 0 (Some true)
                      (Some "package name? version: (1.0.0)")))
  /\ answering
       (step (StdoutData 88 "version: (1.0.0)")
          (fst (fst (sendInput {| in_pid := 88; stdin := "demo" |} init_asked))))
       88 1 init_state init_process "? package name? version: (1.0.0)" "" true
       (Some (Returned (execution_result 88 "/bin/bash -ic npm init"
                          "? package name? version: (1.0.0)" "" 0 (Some true)
                          (Some "package name? version: (1.0.0)")))).
Proof.
  apply (answered_question_still_prompts init_asked 88 "demo" "version: (1.0.0)"
           init_state init_process).
  - vm_compute. reflexivity.
  - reflexivity.
  - vm_compute. reflexivity.
  - vm_compute. reflexivity.
Defined.

Lemma sendInput_timer_keeps_session_example :
  service (step (TimerFired 1) read_name_answered) = service read_name_answered
  /\ promise (step (TimerFired 1) read_name_answered) 1
     = Some (Threw "Command timed out waiting for response").
Proof.
  apply (sendInput_timer_keeps_session read_name_answered 4242 1
           (with_stdout "Enter name: " read_name_state)
           (with_stdout "Enter name: " read_name_state) read_name_process
           "Enter name: " "" None).
  - vm_compute. reflexivity.
  - vm_compute. reflexivity.
Defined.
